(** * ub::BuddyAllocator: a shallow embedding of include/BuddyAllocator.h

    The allocator object is modelled with its three members: the array of
    free-list heads [m_freelists], the byte in front of the buffer
    ([m_dummy]) and the byte array [m_buffer].  Pointers are machine
    addresses ([Z], with [0] for [nullptr]); the free-list links live inside
    the buffer as little-endian pointer images, the way
    [*reinterpret_cast<uint8_t**>(block)] stores them.  Undefined behaviour
    of the C++ program (a shift by 32 or more, an index outside
    [m_freelists], an access outside the object) is an explicit fault.

    The byte at address [base - 1], where [alloc] stores the order of the
    block at offset 0, stands for [m_dummy] (with [ALIGNMENT > 1] it is the
    padding byte that follows [m_dummy]).  The constructor zeroes [m_dummy]
    but no padding, so the value of that byte in a new allocator is a
    parameter of the model, [pad]; the code writes the byte before it reads
    it.  The alignment of the pointer accesses themselves is not modelled.

    The two test cases of test/test.cpp are modelled as clients of the
    allocator; the values of [std::rand()] and the outcome of
    [std::shuffle] are parameters of the model. *)

From stdpp Require Import base tactics option numbers list.

Local Open Scope Z_scope.

(** ** Results of possibly undefined or non-terminating computations *)

Inductive fault : Type :=
| Undefined   (* the C++ program has undefined behaviour here *)
| OutOfFuel.  (* a loop was cut off by the model's iteration bound *)

Inductive res (A : Type) : Type :=
| Val (a : A)
| Err (f : fault).
Arguments Val {A} a.
Arguments Err {A} f.

Global Instance res_ret : MRet res := fun A a => Val a.
Global Instance res_bind : MBind res := fun A B k r =>
  match r with
  | Val a => k a
  | Err f => Err f
  end.

(** ** The allocator object *)

Record state : Type := State {
  m_freelists : list Z;    (* uint8_t* m_freelists[MAX_ORDER - MIN_ORDER + 1] *)
  m_dummy : Z;             (* the byte of the object just before m_buffer *)
  m_buffer : Z -> Z        (* uint8_t m_buffer[1 << MAX_ORDER], by index *)
}.

(** [uint8_t**]: the address of a free-list head or of a link inside the buffer. *)
Inductive slot : Type :=
| Head (i : Z)
| Link (addr : Z).

Definition upd (f : Z -> Z) (i v : Z) : Z -> Z :=
  fun j => if j =? i then v else f j.

(** Little-endian image of a pointer in [n] consecutive bytes. *)
Fixpoint le_load (n : nat) (f : Z -> Z) (i : Z) : Z :=
  match n with
  | O => 0
  | S n' => f i + 256 * le_load n' f (i + 1)
  end.

Fixpoint le_store (n : nat) (f : Z -> Z) (i v : Z) : Z -> Z :=
  match n with
  | O => f
  | S n' => le_store n' (upd f i (v mod 256)) (i + 1) (v / 256)
  end.

(** [static constexpr uint8_t log2(uint32_t size)]: the loop shifts [1U] by
    [result]; a shift count of 32 is undefined. *)
Fixpoint log2_loop (fuel : nat) (result size : Z) : res Z :=
  match fuel with
  | O => Err OutOfFuel
  | S fuel' =>
      if 32 <=? result then Err Undefined
      else if Z.shiftl 1 result <? size
           then log2_loop fuel' ((result + 1) mod 256) size
           else Val result
  end.

Definition log2 (size : Z) : res Z := log2_loop 34 0 size.

Section BuddyAllocator.

(** Template parameter, [sizeof(void* )] of the target, and the address of
    [m_buffer[0]]. *)
Variable MAX_POWER : Z.
Variable ptr_size : Z.
Variable base : Z.

(** What the byte in front of [m_buffer] holds when the constructor
    returns: 0 where that byte is [m_dummy] itself, anything where it is
    padding. *)
Variable pad : Z.

Definition MIN_ORDER : Z :=
  match log2 (ptr_size + 1) with
  | Val k => k
  | Err _ => 0
  end.

Definition MAX_ORDER : Z := MAX_POWER.

Definition nlists : Z := MAX_ORDER - MIN_ORDER + 1.

(** The constructor: value-initialised members, then
    [m_freelists[MAX_ORDER - MIN_ORDER] = &m_buffer[0]]. *)
Definition init : state :=
  State (<[Z.to_nat (MAX_ORDER - MIN_ORDER) := base]> (replicate (Z.to_nat nlists) 0))
        pad (fun _ => 0).

(** *** Memory accesses *)

Definition in_buffer (a n : Z) : bool :=
  (base <=? a) && (a + n <=? base + 2 ^ MAX_ORDER).

(** The byte at address [a], whatever the bounds. *)
Definition bytes (s : state) (a : Z) : Z :=
  if a =? base - 1 then m_dummy s else m_buffer s (a - base).

Definition load_byte (s : state) (a : Z) : res Z :=
  if (a =? base - 1) || in_buffer a 1 then Val (bytes s a) else Err Undefined.

Definition store_byte (s : state) (a v : Z) : res state :=
  if a =? base - 1 then Val (State (m_freelists s) v (m_buffer s))
  else if in_buffer a 1
       then Val (State (m_freelists s) (m_dummy s) (upd (m_buffer s) (a - base) v))
       else Err Undefined.

(** [*reinterpret_cast<uint8_t**>(a)] as an rvalue and as an lvalue. *)
Definition load_ptr (s : state) (a : Z) : res Z :=
  if in_buffer a ptr_size
  then Val (le_load (Z.to_nat ptr_size) (m_buffer s) (a - base))
  else Err Undefined.

Definition store_ptr (s : state) (a v : Z) : res state :=
  if in_buffer a ptr_size
  then Val (State (m_freelists s) (m_dummy s)
                  (le_store (Z.to_nat ptr_size) (m_buffer s) (a - base) v))
  else Err Undefined.

Definition freelist_get (s : state) (i : Z) : res Z :=
  if 0 <=? i
  then match m_freelists s !! Z.to_nat i with
       | Some h => Val h
       | None => Err Undefined
       end
  else Err Undefined.

Definition freelist_set (s : state) (i v : Z) : res state :=
  if (0 <=? i) && (i <? Z.of_nat (length (m_freelists s)))
  then Val (State (<[Z.to_nat i := v]> (m_freelists s)) (m_dummy s) (m_buffer s))
  else Err Undefined.

Definition deref (s : state) (p : slot) : res Z :=
  match p with
  | Head i => freelist_get s i
  | Link a => load_ptr s a
  end.

Definition assign (s : state) (p : slot) (v : Z) : res state :=
  match p with
  | Head i => freelist_set s i v
  | Link a => store_ptr s a v
  end.

(** [buddy_of]: [base + ((ptr - base) ^ (1U << order))]. *)
Definition buddy_of (ptr order : Z) : res Z :=
  if (0 <=? order) && (order <? 32)
  then Val (base + Z.lxor (ptr - base) (Z.shiftl 1 order))
  else Err Undefined.

(** *** alloc *)

(** Line 81: [std::max(MIN_ORDER, log2(size + 1))], the sum in [uint32_t]. *)
Definition alloc_order (size : Z) : res Z :=
  l ← log2 ((size + 1) mod 2 ^ 32);
  mret (Z.max MIN_ORDER l).

(** Lines 92-96: the search for the first non-empty list. *)
Fixpoint find_block (fuel : nat) (s : state) (block index : Z) : res (Z * Z) :=
  if (block =? 0) && (index <? MAX_ORDER)
  then match fuel with
       | O => Err OutOfFuel
       | S fuel' =>
           let index' := (index + 1) mod 256 in
           block' ← freelist_get s (index' - MIN_ORDER);
           find_block fuel' s block' index'
       end
  else Val (block, index).

(** Lines 106-113: the upper halves go to their free lists. *)
Fixpoint split_loop (fuel : nat) (s : state) (block index order : Z) : res state :=
  if order <? index
  then match fuel with
       | O => Err OutOfFuel
       | S fuel' =>
           let index' := (index - 1) mod 256 in
           buddy ← buddy_of block index';
           head ← freelist_get s (index' - MIN_ORDER);
           s1 ← store_ptr s buddy head;
           s2 ← freelist_set s1 (index' - MIN_ORDER) buddy;
           split_loop fuel' s2 block index' order
       end
  else Val s.

Definition alloc (size : Z) (s : state) : res (Z * state) :=
  order ← alloc_order size;
  if (size =? 0) || (MAX_ORDER <? order) then Val (0, s)
  else
    block0 ← freelist_get s (order - MIN_ORDER);
    '(block, index) ← find_block (Z.to_nat (MAX_ORDER - order)) s block0 order;
    if block =? 0 then Val (0, s)
    else
      next ← load_ptr s block;
      s1 ← freelist_set s (index - MIN_ORDER) next;
      s2 ← split_loop (Z.to_nat (index - order)) s1 block index order;
      s3 ← store_byte s2 (block - 1) order;
      Val (block, s3).

(** *** free *)

(** Lines 137-141: the walk along one list, up to the buddy or the end. *)
Fixpoint walk (fuel : nat) (s : state) (ptr : slot) (buddy : Z) : res slot :=
  v ← deref s ptr;
  if negb (v =? 0) && negb (v =? buddy)
  then match fuel with
       | O => Err OutOfFuel
       | S fuel' => walk fuel' s (Link v) buddy
       end
  else Val ptr.

(** Lines 132-160.  [iters] bounds the passes through the [while (true)]
    body, [steps] the link steps of one walk.  The result also names the
    block and the order with which the loop is left. *)
Fixpoint free_loop (iters steps : nat) (s : state) (block order : Z)
  : res (Z * Z * state) :=
  match iters with
  | O => Err OutOfFuel
  | S iters' =>
      buddy ← buddy_of block order;
      ptr ← walk steps s (Head (order - MIN_ORDER)) buddy;
      v ← deref s ptr;
      if v =? 0
      then
        head ← freelist_get s (order - MIN_ORDER);
        s1 ← store_ptr s block head;
        s2 ← freelist_set s1 (order - MIN_ORDER) block;
        Val (block, order, s2)
      else
        next ← load_ptr s v;
        s1 ← assign s ptr next;
        free_loop iters' steps s1 (Z.min block buddy) ((order + 1) mod 256)
      end.

Definition free (fuel : nat) (pointer : Z) (s : state) : res state :=
  if pointer =? 0 then Val s
  else
    order ← load_byte s (pointer - 1);
    '(_, _, s') ← free_loop fuel fuel s pointer order;
    Val s'.

(** The fill loop of the tests (test.cpp, lines 50-59): allocate [size]
    bytes until [alloc] returns [nullptr]; the number of blocks obtained. *)
Fixpoint fill (fuel : nat) (size : Z) (s : state) : res (Z * state) :=
  match fuel with
  | O => Err OutOfFuel
  | S fuel' =>
      '(p, s1) ← alloc size s;
      if p =? 0 then Val (0, s1)
      else '(n, s2) ← fill fuel' size s1; Val (n + 1, s2)
  end.

(** A client that obtains a block for each of [sizes], keeping the
    pointers that are not [nullptr], and one that releases the pointers of
    a list in the order of the list. *)
Fixpoint alloc_all (sizes : list Z) (s : state) : res (list Z * state) :=
  match sizes with
  | [] => Val ([], s)
  | size :: sizes' =>
      '(p, s1) ← alloc size s;
      '(ptrs, s2) ← alloc_all sizes' s1;
      Val (if p =? 0 then ptrs else p :: ptrs, s2)
  end.

Fixpoint free_all (fuel : nat) (ptrs : list Z) (s : state) : res state :=
  match ptrs with
  | [] => Val s
  | p :: ptrs' => s1 ← free fuel p s; free_all fuel ptrs' s1
  end.

(** *** The first test case of test/test.cpp

    One round of its loop allocates blocks of [(1 << i) - 1] bytes until
    [alloc] returns [nullptr], fills each block with a byte that counts the
    blocks, and then checks and frees the blocks in a shuffled order.  The
    comparisons of the pointers with the address and the size of the pool
    object itself (lines 74-79) need the layout of the object and are not
    part of the model. *)

(** [1 << k] in a type of [bits] value bits; a count the type cannot take
    is a fault. *)
Definition shl (bits k : Z) : res Z :=
  if (0 <=? k) && (k <? bits) then Val (Z.shiftl 1 k) else Err Undefined.

(** [std::memset(ptr, value, n)], byte by byte. *)
Fixpoint memset (n : nat) (s : state) (ptr value : Z) : res state :=
  match n with
  | O => Val s
  | S n' => s1 ← store_byte s ptr value; memset n' s1 (ptr + 1) value
  end.

(** [std::all_of(first, first + n, [](uint8_t b) { return b == value; })]. *)
Fixpoint all_of (n : nat) (s : state) (first value : Z) : res bool :=
  match n with
  | O => Val true
  | S n' =>
      b ← load_byte s first;
      if b =? value then all_of n' s (first + 1) value else Val false
  end.

(** Lines 50-59: the blocks obtained, each with pointer, size and fill
    byte, in the order of [push_back]. *)
Fixpoint fill_blocks (fuel : nat) (size count : Z) (s : state)
  : res (list (Z * Z * Z) * state) :=
  match fuel with
  | O => Err OutOfFuel
  | S fuel' =>
      '(ptr, s1) ← alloc size s;
      if ptr =? 0 then Val ([], s1)
      else
        s2 ← memset (Z.to_nat size) s1 ptr count;
        '(blocks, s3) ← fill_blocks fuel' size ((count + 1) mod 256) s2;
        Val ((ptr, size, count) :: blocks, s3)
  end.

(** Line 65: [std::unique(...) == blocks.end()], no two neighbours with
    the same pointer. *)
Fixpoint adjacent_distinct (l : list Z) : bool :=
  match l with
  | a :: l' =>
      match l' with
      | b :: _ => negb (a =? b) && adjacent_distinct l'
      | [] => true
      end
  | [] => true
  end.

(** Lines 68-69: [std::min_element(...)->ptr] with [<] and with [>]; on
    an empty vector the iterator is [end()]. *)
Definition min_ptr (blocks : list (Z * Z * Z)) : res Z :=
  match blocks.*1.*1 with
  | a :: l => Val (foldr Z.min a l)
  | [] => Err Undefined
  end.

Definition max_ptr (blocks : list (Z * Z * Z)) : res Z :=
  match blocks.*1.*1 with
  | a :: l => Val (foldr Z.max a l)
  | [] => Err Undefined
  end.

(** Lines 87-95: the checks on each block, then [free]; the result is the
    conjunction of the checks. *)
Fixpoint release_blocks (fuel : nat) (blocks : list (Z * Z * Z)) (s : state)
  : res (bool * state) :=
  match blocks with
  | [] => Val (true, s)
  | (ptr, size, count) :: blocks' =>
      order ← load_byte s (ptr - 1);
      pow ← shl 32 order;
      low ← shl 32 MIN_ORDER;
      same ← all_of (Z.to_nat size) s ptr count;
      s1 ← free fuel ptr s;
      '(ok, s2) ← release_blocks fuel blocks' s1;
      Val ((MIN_ORDER <=? order) && (order <=? MAX_ORDER) &&
           (pow =? Z.max ((size + 1) mod 2 ^ 32) low) && same && ok, s2)
  end.

(** Lines 45-95, the body of the loop for one [i]; [shuffle] stands for
    [std::shuffle] with the random generator of the round. *)
Definition test_round (fuel : nat) (shuffle : list (Z * Z * Z) -> list (Z * Z * Z))
    (i : Z) (s : state) : res (bool * state) :=
  one ← shl 31 i;
  let size := one - 1 in
  '(blocks, s1) ← fill_blocks fuel size 0 s;
  expected ← shl 31 (MAX_ORDER - Z.max MIN_ORDER i);
  lo ← min_ptr blocks;
  hi ← max_ptr blocks;
  whole ← shl 31 MAX_ORDER;
  '(ok, s2) ← release_blocks fuel (shuffle blocks) s1;
  Val ((Z.of_nat (length blocks) =? expected) &&
       adjacent_distinct (blocks.*1.*1) &&
       ((Z.of_nat (length blocks) =? 1) || (lo <? hi)) &&
       (hi - lo <=? whole) && ok, s2).

(** Lines 43-96: [for (uint8_t i = 1; i < pool.MAX_ORDER; ++i)]. *)
Fixpoint test_rounds (n fuel : nat) (shuffle : Z -> list (Z * Z * Z) -> list (Z * Z * Z))
    (i : Z) (s : state) : res (bool * state) :=
  if i <? MAX_ORDER
  then match n with
       | O => Err OutOfFuel
       | S n' =>
           '(ok, s1) ← test_round fuel (shuffle i) i s;
           '(oks, s2) ← test_rounds n' fuel shuffle ((i + 1) mod 256) s1;
           Val (ok && oks, s2)
       end
  else Val (true, s).

(** Lines 27-97: the test case on a new pool. *)
Definition test_fixed (fuel : nat) (shuffle : Z -> list (Z * Z * Z) -> list (Z * Z * Z))
  : res bool :=
  '(p0, s0) ← alloc 0 init;
  whole ← shl 31 MAX_ORDER;
  '(p1, s1) ← alloc whole s0;
  '(ok, _) ← test_rounds (Z.to_nat MAX_ORDER) fuel shuffle 1 s1;
  Val ((p0 =? 0) && (p1 =? 0) && ok).

(** *** The second test case of test/test.cpp

    Each round allocates blocks of random sizes [(1U << k) - 1] until the
    sizes with their order bytes add up to the buffer, then checks and
    frees the blocks as the first test does.  [rands] holds the values
    [std::rand()] returns, in the order of the calls; when they run out
    before the loop ends the model stops with [OutOfFuel]. *)

(** Lines 120-132; the result also gives the values not yet used. *)
Fixpoint fill_random (rands : list Z) (total count : Z) (s : state)
  : res (list (Z * Z * Z) * state * list Z) :=
  whole ← shl 31 MAX_ORDER;
  if total <? whole
  then match rands with
       | [] => Err OutOfFuel
       | r :: rands' =>
           one ← shl 32 (Z.rem r (MAX_ORDER - MIN_ORDER + 1) + MIN_ORDER);
           let size := (one - 1) mod 2 ^ 32 in
           '(ptr, s1) ← alloc size s;
           if ptr =? 0 then fill_random rands' total count s1
           else
             s2 ← memset (Z.to_nat size) s1 ptr count;
             '(blocks, s3, rest) ←
               fill_random rands' ((total + (size + 1) mod 2 ^ 32) mod 2 ^ 32)
                           ((count + 1) mod 256) s2;
             Val ((ptr, size, count) :: blocks, s3, rest)
       end
  else Val ([], s, rands).

(** Lines 116-165, the body of the outer loop. *)
Definition random_round (fuel : nat) (shuffle : list (Z * Z * Z) -> list (Z * Z * Z))
    (rands : list Z) (s : state) : res (bool * state * list Z) :=
  '(blocks, s1, rest) ← fill_random rands 0 0 s;
  lo ← min_ptr blocks;
  hi ← max_ptr blocks;
  whole ← shl 31 MAX_ORDER;
  '(ok, s2) ← release_blocks fuel (shuffle blocks) s1;
  Val (adjacent_distinct (blocks.*1.*1) &&
       ((Z.of_nat (length blocks) =? 1) || (lo <? hi)) &&
       (hi - lo <=? whole) && ok, s2, rest).

(** Lines 114-166: [n] rounds, each with the shuffle of its own. *)
Fixpoint random_rounds (n fuel : nat) (shuffle : nat -> list (Z * Z * Z) -> list (Z * Z * Z))
    (rands : list Z) (s : state) : res bool :=
  match n with
  | O => Val true
  | S n' =>
      '(ok, s1, rest) ← random_round fuel (shuffle n') rands s;
      oks ← random_rounds n' fuel shuffle rest s1;
      Val (ok && oks)
  end.

(** Lines 100-167: the test case on a new pool, [1'000] rounds. *)
Definition test_random (fuel : nat) (shuffle : nat -> list (Z * Z * Z) -> list (Z * Z * Z))
    (rands : list Z) : res bool :=
  random_rounds 1000 fuel shuffle rands init.

(** How often [rands] selects the smallest order. *)
Fixpoint min_picks (rands : list Z) : Z :=
  match rands with
  | [] => 0
  | r :: rands' =>
      (if Z.rem r (MAX_ORDER - MIN_ORDER + 1) =? 0 then 1 else 0) + min_picks rands'
  end.

(** ** Specification vocabulary *)

(** The pointer image stored in the first bytes of the block at [a]. *)
Definition ptr_at (s : state) (a : Z) : Z :=
  le_load (Z.to_nat ptr_size) (m_buffer s) (a - base).

(** [flist s h l]: following the links from head value [h] visits exactly
    the blocks [l] and ends in [nullptr]. *)
Fixpoint flist (s : state) (h : Z) (l : list Z) : Prop :=
  match l with
  | [] => h = 0
  | a :: l' => h = a /\ a <> 0 /\ flist s (ptr_at s a) l'
  end.

Definition head_of (s : state) (k : Z) : option Z :=
  m_freelists s !! Z.to_nat (k - MIN_ORDER).

(** Block [a] is on the free list of order [k]. *)
Definition on_freelist (s : state) (k a : Z) : Prop :=
  MIN_ORDER <= k <= MAX_ORDER /\
  exists h l, head_of s k = Some h /\ flist s h l /\ a ∈ l.

(** A size below [1U << 31] that, with the byte for the order, comes to a
    power of two, or fits the smallest block: the release loop of the tests
    checks [(1U << order) == std::max(size + 1U, 1U << MIN_ORDER)]. *)
Definition good_size (sz : Z) : Prop :=
  0 < sz < 2 ^ 31 /\
  2 ^ Z.max MIN_ORDER (Z.log2_up (sz + 1)) = Z.max (sz + 1) (2 ^ MIN_ORDER).

(** [freelist_is s k l]: the free list of order [k], read from its head
    along the links in the buffer, is [l]. *)
Definition freelist_is (s : state) (k : Z) (l : list Z) : Prop :=
  MIN_ORDER <= k <= MAX_ORDER /\ exists h, head_of s k = Some h /\ flist s h l.

Definition buddy_addr (a k : Z) : Z := base + Z.lxor (a - base) (2 ^ k).

(** A block of order [k] at address [a]: inside the buffer, aligned to its
    size relative to [base]. *)
Definition wfb (a k : Z) : Prop :=
  MIN_ORDER <= k <= MAX_ORDER /\ base <= a /\
  a + 2 ^ k <= base + 2 ^ MAX_ORDER /\ (2 ^ k | a - base).

Definition disj (a1 k1 a2 k2 : Z) : Prop :=
  a1 + 2 ^ k1 <= a2 \/ a2 + 2 ^ k2 <= a1.

(** Ghost state: the free lists by order, the outstanding allocations
    (pointer, size asked for, order recorded in front of the pointer), and
    the block an operation in progress has taken off the lists. *)
Inductive tag : Type := Free | Live | Limbo.

Definition Blk (fl : Z -> list Z) (live : list (Z * Z * Z)) (limbo : option (Z * Z))
    (t : tag) (a k : Z) : Prop :=
  match t with
  | Free => MIN_ORDER <= k <= MAX_ORDER /\ a ∈ fl k
  | Live => exists sz, (a, sz, k) ∈ live
  | Limbo => limbo = Some (a, k)
  end.

Fixpoint fsum (fl : Z -> list Z) (n : nat) (k : Z) : Z :=
  match n with
  | O => 0
  | S n' => 2 ^ k * Z.of_nat (length (fl k)) + fsum fl n' (k + 1)
  end.

Definition free_bytes (fl : Z -> list Z) : Z := fsum fl (Z.to_nat nlists) MIN_ORDER.

Definition live_bytes (live : list (Z * Z * Z)) : Z :=
  foldr (fun x acc => 2 ^ x.2 + acc) 0 live.

Definition limbo_bytes (limbo : option (Z * Z)) : Z :=
  match limbo with
  | Some (_, k) => 2 ^ k
  | None => 0
  end.

(** The geometry of the ghost state: the blocks are well formed, pairwise
    disjoint, tile the buffer, and no two free blocks are buddies. *)
Record Geo (fl : Z -> list Z) (live : list (Z * Z * Z))
    (limbo : option (Z * Z)) : Prop := {
  geo_nodup : forall k, NoDup (fl k);
  geo_live_nodup : NoDup (live.*1.*1);
  geo_wf : forall t a k, Blk fl live limbo t a k -> wfb a k;
  geo_disj : forall t1 a1 k1 t2 a2 k2,
      Blk fl live limbo t1 a1 k1 -> Blk fl live limbo t2 a2 k2 ->
      (t1 = t2 /\ a1 = a2 /\ k1 = k2) \/ disj a1 k1 a2 k2;
  geo_cover : forall x, base <= x < base + 2 ^ MAX_ORDER ->
      exists t a k, Blk fl live limbo t a k /\ a <= x < a + 2 ^ k;
  geo_sum : free_bytes fl + live_bytes live + limbo_bytes limbo = 2 ^ MAX_ORDER;
  geo_buddy : forall a k, Blk fl live limbo Free a k ->
      ~ Blk fl live limbo Free (buddy_addr a k) k
}.

(** The object represents the ghost state: the heads and links spell the
    free lists, and every outstanding pointer has its order in front. *)
Record Rep (s : state) (fl : Z -> list Z) (live : list (Z * Z * Z)) : Prop := {
  rep_len : Z.of_nat (length (m_freelists s)) = nlists;
  rep_heads : forall k, MIN_ORDER <= k <= MAX_ORDER ->
      exists h, head_of s k = Some h /\ flist s h (fl k);
  rep_order : forall p sz k, (p, sz, k) ∈ live -> bytes s (p - 1) = k
}.

Definition Inv (s : state) (fl : Z -> list Z) (live : list (Z * Z * Z))
    (limbo : option (Z * Z)) : Prop :=
  Geo fl live limbo /\ Rep s fl live.

Definition fupd (fl : Z -> list Z) (i : Z) (l : list Z) : Z -> list Z :=
  fun k => if k =? i then l else fl k.

(** The bytes a caller owns: the order byte and the block up to, not
    including, its last byte. *)
Definition stable (live : list (Z * Z * Z)) (s s' : state) : Prop :=
  forall p sz k a, (p, sz, k) ∈ live -> p - 1 <= a < p + 2 ^ k - 1 ->
    bytes s' a = bytes s a.

(** States of the allocator a client can produce: calls of [alloc], calls
    of [free] on outstanding pointers, and writes into the bytes of an
    outstanding allocation, as far as its block reaches (the last byte of a
    block is not the caller's).  The list holds the outstanding allocations:
    pointer, size asked for, and the order found in front of the pointer
    when [alloc] returned. *)
Inductive reachable : state -> list (Z * Z * Z) -> Prop :=
| reach_init : reachable init []
| reach_alloc s live size p s' :
    reachable s live -> alloc size s = Val (p, s') -> p <> 0 ->
    reachable s' ((p, size, bytes s' (p - 1)) :: live)
| reach_alloc_null s live size s' :
    reachable s live -> alloc size s = Val (0, s') -> reachable s' live
| reach_free s live fuel p sz k s' :
    reachable s live -> (p, sz, k) ∈ live -> free fuel p s = Val s' ->
    reachable s' (filter (fun x => x.1.1 <> p) live)
| reach_free_null s live fuel s' :
    reachable s live -> free fuel 0 s = Val s' -> reachable s' live
| reach_write s live p sz k a v s' :
    reachable s live -> (p, sz, k) ∈ live ->
    p <= a < p + sz -> a < p + 2 ^ k - 1 -> 0 <= v < 256 ->
    store_byte s a v = Val s' -> reachable s' live.

(** Where the walk of [free] stops when the buddy follows the blocks [l1]
    of the list that starts in slot [ptr]. *)
Definition last_slot (ptr : slot) (l1 : list Z) : slot :=
  match last l1 with
  | Some a => Link a
  | None => ptr
  end.

(** The free lists of a newly constructed allocator. *)
Definition fl_init : Z -> list Z :=
  fun k => if k =? MAX_ORDER then [base] else [].

(** ** Assumptions on the target and the instantiation *)

Hypothesis ptr_size_range : 1 <= ptr_size <= 8.
(* static_assert(MAX_ORDER >= MIN_ORDER); 1U << MAX_ORDER in 32 bits *)
Hypothesis max_power_range : MIN_ORDER <= MAX_POWER <= 31.
(* the object lies in the address space of the target, away from nullptr *)
Hypothesis base_range : 1 < base /\ base + 2 ^ MAX_POWER < 2 ^ (8 * ptr_size).

(** ** Powers of two and the buddy map *)

Lemma pow2_pos k : 0 <= k -> 0 < 2 ^ k.
Proof. intros. apply Z.pow_pos_nonneg; lia. Qed.

Lemma pow2_succ k : 0 <= k -> 2 ^ (k + 1) = 2 * 2 ^ k.
Proof. intros. rewrite Z.pow_add_r by lia. lia. Qed.

Lemma pow2_le j k : 0 <= j <= k -> 2 ^ j <= 2 ^ k.
Proof. intros. apply Z.pow_le_mono_r; lia. Qed.

Lemma pow2_lt j k : 0 <= j < k -> 2 ^ j < 2 ^ k.
Proof. intros. apply Z.pow_lt_mono_r; lia. Qed.

Lemma pow2_lt_double j k : 0 <= j < k -> 2 * 2 ^ j <= 2 ^ k.
Proof.
  intros. rewrite <- pow2_succ by lia. apply pow2_le. lia.
Qed.

Lemma pow2_divide j k : 0 <= j <= k -> (2 ^ j | 2 ^ k).
Proof.
  intros. exists (2 ^ (k - j)). rewrite <- Z.pow_add_r by lia. f_equal. lia.
Qed.

Lemma shiftl_1 k : 0 <= k -> Z.shiftl 1 k = 2 ^ k.
Proof. intros. rewrite Z.shiftl_mul_pow2 by lia. lia. Qed.

Lemma lxor_pow2_clear o k :
  0 <= k -> Z.testbit o k = false -> Z.lxor o (2 ^ k) = o + 2 ^ k.
Proof.
  intros Hk Hb. symmetry. apply Z.add_nocarry_lxor.
  apply Z.bits_inj'. intros n Hn.
  rewrite Z.land_spec, Z.bits_0, Z.pow2_bits_eqb by lia.
  destruct (Z.eqb_spec k n) as [->|]; [rewrite Hb; reflexivity|].
  apply andb_false_r.
Qed.

Lemma lxor_pow2_set o k :
  0 <= k -> Z.testbit o k = true -> Z.lxor o (2 ^ k) = o - 2 ^ k.
Proof.
  intros Hk Hb.
  assert (Z.testbit (Z.lxor o (2 ^ k)) k = false) as Hc.
  { rewrite Z.lxor_spec, Hb, Z.pow2_bits_true by lia. reflexivity. }
  apply lxor_pow2_clear in Hc; [|lia].
  rewrite Z.lxor_assoc, Z.lxor_nilpotent, Z.lxor_0_r in Hc. lia.
Qed.

(** The buddy of an aligned block is the other half of the enclosing block
    of the next order. *)
Lemma buddy_cases o k :
  0 <= k -> (2 ^ k | o) ->
  (exists h, o = h * 2 ^ (k + 1) /\ Z.lxor o (2 ^ k) = o + 2 ^ k) \/
  (exists h, o = h * 2 ^ (k + 1) + 2 ^ k /\ Z.lxor o (2 ^ k) = o - 2 ^ k).
Proof.
  intros Hk [q ->].
  assert (Z.testbit (q * 2 ^ k) k = Z.odd q) as Hb.
  { rewrite Z.mul_pow2_bits by lia. rewrite Z.sub_diag. apply Z.bit0_odd. }
  rewrite pow2_succ by lia.
  destruct (Z.odd q) eqn:Hq.
  - right. exists (q / 2). split; [|by apply lxor_pow2_set].
    pose proof (Z.div_mod q 2 ltac:(lia)) as Hd.
    rewrite Zmod_odd, Hq in Hd. nia.
  - left. exists (q / 2). split; [|by apply lxor_pow2_clear].
    pose proof (Z.div_mod q 2 ltac:(lia)) as Hd.
    rewrite Zmod_odd, Hq in Hd. nia.
Qed.

(** Two aligned blocks that meet are nested. *)
Lemma dyadic_nested o1 k1 o2 k2 :
  0 <= k1 <= k2 -> (2 ^ k1 | o1) -> (2 ^ k2 | o2) ->
  o1 < o2 + 2 ^ k2 -> o2 < o1 + 2 ^ k1 ->
  o2 <= o1 /\ o1 + 2 ^ k1 <= o2 + 2 ^ k2.
Proof.
  intros Hk [q1 ->] [q2 ->].
  replace k2 with ((k2 - k1) + k1) by lia.
  rewrite Z.pow_add_r by lia.
  pose proof (pow2_pos k1 ltac:(lia)). pose proof (pow2_pos (k2 - k1) ltac:(lia)).
  generalize dependent (2 ^ k1). generalize dependent (2 ^ (k2 - k1)).
  intros N HN P HP H1 H2.
  assert (q1 < (q2 + 1) * N) by nia.
  assert (q2 * N < q1 + 1) by nia.
  nia.
Qed.

(** ** [log2] computes the rounded-up binary logarithm *)

Lemma log2_loop_spec n fuel r :
  0 <= r <= 31 -> n <= 2 ^ 31 -> (32 - r < Z.of_nat fuel) ->
  (r = 0 \/ 2 ^ (r - 1) < n) ->
  exists k, log2_loop fuel r n = Val k /\ r <= k <= 31 /\ n <= 2 ^ k /\
            (k = 0 \/ 2 ^ (k - 1) < n).
Proof.
  revert r. induction fuel as [|fuel IH]; intros r Hr Hn Hf Hlow; [lia|].
  simpl. destruct (Z.leb_spec 32 r); [lia|].
  rewrite shiftl_1 by lia.
  destruct (Z.ltb_spec (2 ^ r) n) as [Hlt|Hge].
  - assert (r < 31).
    { destruct (Z.eq_dec r 31) as [->|]; [lia|lia]. }
    rewrite Z.mod_small by lia.
    destruct (IH (r + 1)) as (k & Hk & ? & ? & ?); try lia.
    { right. replace (r + 1 - 1) with r by lia. done. }
    exists k. repeat split; try done; lia.
  - exists r. repeat split; try done; lia.
Qed.

Lemma log2_spec n :
  n <= 2 ^ 31 -> log2 n = Val (Z.log2_up n).
Proof.
  intros Hn. destruct (log2_loop_spec n 34 0) as (k & Hk & Hr & Hle & Hlow); try lia.
  unfold log2. rewrite Hk. f_equal.
  destruct (Z.le_gt_cases n 1) as [H1|H1].
  - rewrite Z.log2_up_eqn0 by done.
    destruct Hlow as [|Hlow]; [done|].
    pose proof (pow2_pos (k - 1)). destruct (Z.eq_dec k 0); [done|lia].
  - pose proof (Z.log2_up_spec n H1) as [Hl Hu].
    pose proof (Z.log2_up_nonneg n).
    destruct (Z.lt_trichotomy k (Z.log2_up n)) as [Hlt|[Heq|Hgt]]; [|done|].
    + assert (2 ^ k <= 2 ^ Z.pred (Z.log2_up n)) by (apply pow2_le; lia). lia.
    + destruct Hlow as [->|Hlow]; [lia|].
      assert (2 ^ Z.log2_up n <= 2 ^ (k - 1)) by (apply pow2_le; lia). lia.
Qed.

Lemma log2_undefined n : 2 ^ 31 < n -> log2 n = Err Undefined.
Proof.
  intros Hn. unfold log2.
  assert (forall fuel r, 0 <= r <= 32 -> 32 - r < Z.of_nat fuel ->
            log2_loop fuel r n = Err Undefined) as H.
  { induction fuel as [|fuel IH]; intros r Hr Hf; [lia|].
    simpl. destruct (Z.leb_spec 32 r); [done|].
    rewrite shiftl_1 by lia.
    assert (2 ^ r <= 2 ^ 31) by (apply pow2_le; lia).
    destruct (Z.ltb_spec (2 ^ r) n); [|lia].
    rewrite Z.mod_small by lia. apply IH; lia. }
  apply H; lia.
Qed.

Lemma min_order_spec :
  1 <= MIN_ORDER <= 4 /\ ptr_size + 1 <= 2 ^ MIN_ORDER.
Proof.
  unfold MIN_ORDER. rewrite log2_spec by lia.
  assert (1 < ptr_size + 1) as H1 by lia.
  pose proof (Z.log2_up_spec _ H1) as [Hl Hu].
  pose proof (Z.log2_up_pos _ H1).
  split; [split; [lia|]|lia].
  destruct (Z.le_gt_cases (Z.log2_up (ptr_size + 1)) 4); [done|].
  assert (2 ^ 4 <= 2 ^ Z.pred (Z.log2_up (ptr_size + 1))) by (apply pow2_le; lia).
  lia.
Qed.

(** ** Bytes, pointer images and the members of the object *)

Lemma le_store_other n f i v j :
  j < i \/ i + Z.of_nat n <= j -> le_store n f i v j = f j.
Proof.
  revert f i v. induction n as [|n IH]; intros f i v Hj; simpl; [done|].
  rewrite IH by lia. unfold upd.
  destruct (Z.eqb_spec j i); [lia|done].
Qed.

Lemma le_load_ext n f g i :
  (forall j, i <= j < i + Z.of_nat n -> f j = g j) -> le_load n f i = le_load n g i.
Proof.
  revert i. induction n as [|n IH]; intros i H; simpl; [done|].
  rewrite H by lia. rewrite (IH (i + 1)); [done|].
  intros j Hj. apply H. lia.
Qed.

Lemma le_load_store n f i v :
  0 <= v < 256 ^ Z.of_nat n -> le_load n (le_store n f i v) i = v.
Proof.
  revert f i v. induction n as [|n IH]; intros f i v Hv; simpl.
  - simpl in Hv. lia.
  - rewrite le_store_other by lia.
    unfold upd at 1. rewrite Z.eqb_refl.
    rewrite IH.
    + pose proof (Z.div_mod v 256 ltac:(lia)). lia.
    + rewrite Nat2Z.inj_succ, Z.pow_succ_r in Hv by lia.
      split; [apply Z.div_pos; lia|].
      apply Z.div_lt_upper_bound; lia.
Qed.

Lemma block_room a k :
  wfb a k -> base <= a /\ a + ptr_size <= a + 2 ^ k - 1 /\ a + 2 ^ k <= base + 2 ^ MAX_ORDER
             /\ 0 < a /\ 0 <= k <= 31 /\ a < 2 ^ (8 * ptr_size).
Proof.
  intros (Hk & Ha & Hb & _). pose proof min_order_spec as [? ?].
  assert (2 ^ MIN_ORDER <= 2 ^ k) by (apply pow2_le; lia).
  unfold MAX_ORDER in *. lia.
Qed.

Lemma in_buffer_true a n :
  base <= a -> a + n <= base + 2 ^ MAX_ORDER -> in_buffer a n = true.
Proof. intros. unfold in_buffer. apply andb_true_iff. split; lia. Qed.

Lemma bytes_buffer s a : base <= a -> bytes s a = m_buffer s (a - base).
Proof. intros. unfold bytes. destruct (Z.eqb_spec a (base - 1)); [lia|done]. Qed.

Lemma ptr_at_ext s s' a :
  base <= a -> (forall x, a <= x < a + ptr_size -> bytes s' x = bytes s x) ->
  ptr_at s' a = ptr_at s a.
Proof.
  intros Ha H. unfold ptr_at. apply le_load_ext. intros j Hj.
  specialize (H (j + base)). rewrite !bytes_buffer in H by lia.
  replace (j + base - base) with j in H by lia. apply H. lia.
Qed.

Lemma load_ptr_spec s a :
  base <= a -> a + ptr_size <= base + 2 ^ MAX_ORDER -> load_ptr s a = Val (ptr_at s a).
Proof. intros. unfold load_ptr. rewrite in_buffer_true by lia. done. Qed.

Lemma store_ptr_spec s a v :
  base <= a -> a + ptr_size <= base + 2 ^ MAX_ORDER -> 0 <= v < 2 ^ (8 * ptr_size) ->
  exists s', store_ptr s a v = Val s' /\ m_freelists s' = m_freelists s /\
    ptr_at s' a = v /\
    forall x, x < a \/ a + ptr_size <= x -> bytes s' x = bytes s x.
Proof.
  intros Ha Hb Hv. unfold store_ptr. rewrite in_buffer_true by lia.
  eexists. split; [done|]. split; [done|]. split.
  - unfold ptr_at. simpl. apply le_load_store.
    rewrite Z2Nat.id by lia.
    replace (256 ^ ptr_size) with (2 ^ (8 * ptr_size)); [done|].
    rewrite Z.pow_mul_r by lia. done.
  - intros x Hx. unfold bytes. simpl.
    destruct (Z.eqb_spec x (base - 1)); [done|].
    apply le_store_other. rewrite Z2Nat.id by lia. lia.
Qed.

Lemma load_byte_spec s a :
  base - 1 <= a < base + 2 ^ MAX_ORDER -> load_byte s a = Val (bytes s a).
Proof.
  intros. unfold load_byte.
  destruct (Z.eqb_spec a (base - 1)); [done|].
  rewrite in_buffer_true by lia. done.
Qed.

Lemma store_byte_spec s a v :
  base - 1 <= a < base + 2 ^ MAX_ORDER ->
  exists s', store_byte s a v = Val s' /\ m_freelists s' = m_freelists s /\
    bytes s' a = v /\ forall x, x <> a -> bytes s' x = bytes s x.
Proof.
  intros Ha. unfold store_byte, bytes.
  destruct (Z.eqb_spec a (base - 1)) as [->|Hne].
  - eexists. split; [done|]. simpl. split; [done|]. split; [done|].
    intros x Hx. destruct (Z.eqb_spec x (base - 1)); [lia|done].
  - rewrite in_buffer_true by lia.
    eexists. split; [done|]. simpl. split; [done|]. split.
    + unfold upd. rewrite Z.eqb_refl. done.
    + intros x Hx. destruct (Z.eqb_spec x (base - 1)); [done|].
      unfold upd. destruct (Z.eqb_spec (x - base) (a - base)); [lia|done].
Qed.

Lemma freelist_get_spec s k h :
  MIN_ORDER <= k -> head_of s k = Some h -> freelist_get s (k - MIN_ORDER) = Val h.
Proof.
  intros Hk Hh. unfold freelist_get, head_of in *.
  destruct (Z.leb_spec 0 (k - MIN_ORDER)); [|lia]. rewrite Hh. done.
Qed.

Lemma freelist_set_spec s k v :
  Z.of_nat (length (m_freelists s)) = nlists -> MIN_ORDER <= k <= MAX_ORDER ->
  exists s', freelist_set s (k - MIN_ORDER) v = Val s' /\
    Z.of_nat (length (m_freelists s')) = nlists /\
    head_of s' k = Some v /\
    (forall j, MIN_ORDER <= j -> j <> k -> head_of s' j = head_of s j) /\
    m_dummy s' = m_dummy s /\ m_buffer s' = m_buffer s.
Proof.
  intros Hlen Hk. unfold freelist_set, nlists in *.
  destruct (Z.leb_spec 0 (k - MIN_ORDER)); [|lia].
  destruct (Z.ltb_spec (k - MIN_ORDER) (Z.of_nat (length (m_freelists s)))); [|lia].
  eexists. split; [done|]. unfold head_of. simpl.
  split; [rewrite length_insert; done|].
  split; [apply list_lookup_insert_eq; lia|].
  split; [|done].
  intros j Hj Hne. apply list_lookup_insert_ne. lia.
Qed.

Lemma flist_ext s s' h l :
  (forall a, a ∈ l -> ptr_at s' a = ptr_at s a) -> flist s h l -> flist s' h l.
Proof.
  revert h. induction l as [|a l IH]; intros h Hext H; simpl in *; [done|].
  destruct H as (-> & Hnz & H). split; [done|]. split; [done|].
  rewrite Hext by (apply elem_of_cons; auto). apply IH; [|done].
  intros b Hb. apply Hext. apply elem_of_cons. auto.
Qed.

Lemma flist_inj s h l1 l2 : flist s h l1 -> flist s h l2 -> l1 = l2.
Proof.
  revert h l2. induction l1 as [|a l1 IH]; intros h [|b l2] H1 H2; simpl in *.
  - done.
  - destruct H2 as (? & ? & _). congruence.
  - destruct H1 as (? & ? & _). congruence.
  - destruct H1 as (-> & _ & H1). destruct H2 as (<- & _ & H2).
    f_equal. eapply IH; done.
Qed.

Lemma flist_nil s h l : flist s h l -> (h = 0 <-> l = []).
Proof.
  destruct l; simpl; [done|]. intros (-> & ? & _). split; [done|discriminate].
Qed.

(** ** Sums over the free lists *)

Lemma fsum_ext fl fl' n k :
  (forall j, k <= j < k + Z.of_nat n -> fl' j = fl j) -> fsum fl' n k = fsum fl n k.
Proof.
  revert k. induction n as [|n IH]; intros k H; simpl; [done|].
  rewrite H by lia. rewrite (IH (k + 1)); [done|].
  intros j Hj. apply H. lia.
Qed.

Lemma fsum_fupd fl i l n k :
  k <= i < k + Z.of_nat n ->
  fsum (fupd fl i l) n k
  = fsum fl n k + 2 ^ i * (Z.of_nat (length l) - Z.of_nat (length (fl i))).
Proof.
  revert k. induction n as [|n IH]; intros k H; simpl; [lia|].
  unfold fupd at 1. destruct (Z.eqb_spec k i) as [->|Hne].
  - rewrite (fsum_ext fl (fupd fl i l)); [lia|].
    intros j Hj. unfold fupd. destruct (Z.eqb_spec j i); [lia|done].
  - rewrite IH by lia. lia.
Qed.

Lemma fsum_nonneg fl n k : 0 <= k -> 0 <= fsum fl n k.
Proof.
  revert k. induction n as [|n IH]; intros k Hk; simpl; [lia|].
  pose proof (pow2_pos k Hk). specialize (IH (k + 1)). nia.
Qed.

Lemma fsum_term fl n k i :
  0 <= k -> k <= i < k + Z.of_nat n -> 2 ^ i * Z.of_nat (length (fl i)) <= fsum fl n k.
Proof.
  revert k. induction n as [|n IH]; intros k Hk Hi; simpl; [lia|].
  destruct (Z.eq_dec k i) as [->|Hne].
  - pose proof (fsum_nonneg fl n (i + 1)). lia.
  - pose proof (pow2_pos k Hk). specialize (IH (k + 1)). nia.
Qed.

Lemma free_bytes_fupd fl i l :
  MIN_ORDER <= i <= MAX_ORDER ->
  free_bytes (fupd fl i l)
  = free_bytes fl + 2 ^ i * (Z.of_nat (length l) - Z.of_nat (length (fl i))).
Proof.
  intros. unfold free_bytes. apply fsum_fupd. unfold nlists. lia.
Qed.

Lemma free_bytes_term fl i :
  MIN_ORDER <= i <= MAX_ORDER -> 2 ^ i * Z.of_nat (length (fl i)) <= free_bytes fl.
Proof.
  intros. pose proof min_order_spec. apply fsum_term; unfold nlists; lia.
Qed.

Lemma free_bytes_nonneg fl : 0 <= free_bytes fl.
Proof. pose proof min_order_spec. apply fsum_nonneg. lia. Qed.

Lemma live_bytes_nonneg live : 0 <= live_bytes live.
Proof.
  induction live as [|[[p sz] k] live IH]; simpl; [lia|].
  pose proof (Z.pow_nonneg 2 k). lia.
Qed.

Lemma live_bytes_remove live p sz k :
  NoDup (live.*1.*1) -> (p, sz, k) ∈ live ->
  live_bytes (filter (fun x => x.1.1 <> p) live) = live_bytes live - 2 ^ k.
Proof.
  induction live as [|[[q sz'] k'] live IH]; intros Hnd Hin; [by apply elem_of_nil in Hin|].
  simpl in Hnd. apply NoDup_cons in Hnd as [Hq Hnd].
  rewrite filter_cons. simpl.
  apply elem_of_cons in Hin as [Heq|Hin].
  - inversion Heq; subst q sz' k'. destruct (decide (p <> p)); [done|].
    assert (filter (fun x : Z * Z * Z => x.1.1 <> p) live = live) as ->; [|lia].
    clear IH Hnd. induction live as [|y live IH']; [done|].
    rewrite filter_cons. simpl in Hq. apply not_elem_of_cons in Hq as [Hy Hq].
    destruct (decide (y.1.1 <> p)); [|lia].
    rewrite IH' by done. done.
  - destruct (decide (q <> p)) as [Hne|Heq].
    + simpl. rewrite IH by done. lia.
    + exfalso. apply Hq. assert (q = p) as -> by lia.
      apply list_elem_of_fmap. exists (p, sz). split; [done|].
      apply list_elem_of_fmap. exists (p, sz, k). done.
Qed.

(** ** Geometry of the ghost state *)

Lemma buddy_addr_invol a k : buddy_addr (buddy_addr a k) k = a.
Proof.
  unfold buddy_addr.
  replace (base + Z.lxor (a - base) (2 ^ k) - base) with (Z.lxor (a - base) (2 ^ k)) by lia.
  rewrite Z.lxor_assoc, Z.lxor_nilpotent, Z.lxor_0_r. lia.
Qed.

Lemma buddy_addr_neq a k : 0 <= k -> buddy_addr a k <> a.
Proof.
  unfold buddy_addr. intros Hk H. pose proof (pow2_pos k Hk).
  assert (Z.lxor (a - base) (2 ^ k) = a - base) as E by lia.
  assert (2 ^ k = Z.lxor (a - base) (Z.lxor (a - base) (2 ^ k))) as E'.
  { by rewrite <- Z.lxor_assoc, Z.lxor_nilpotent, Z.lxor_0_l. }
  rewrite E, Z.lxor_nilpotent in E'. lia.
Qed.

Lemma wfb_pos a k : wfb a k -> 0 <= k /\ 0 < 2 ^ k.
Proof.
  intros (Hk & _). pose proof min_order_spec.
  split; [lia|]. apply pow2_pos. lia.
Qed.

Lemma geo_same_addr fl live limbo t1 a k1 t2 k2 :
  Geo fl live limbo -> Blk fl live limbo t1 a k1 -> Blk fl live limbo t2 a k2 ->
  t1 = t2 /\ k1 = k2.
Proof.
  intros G H1 H2.
  pose proof (geo_wf _ _ _ G _ _ _ H1) as W1. apply wfb_pos in W1.
  pose proof (geo_wf _ _ _ G _ _ _ H2) as W2. apply wfb_pos in W2.
  destruct (geo_disj _ _ _ G _ _ _ _ _ _ H1 H2) as [(? & _ & ?)|[?|?]]; [done|lia|lia].
Qed.

Lemma tags_unique (B : tag -> Z -> Z -> Prop) :
  (forall a k, B Free a k -> B Live a k -> False) ->
  (forall a k, B Free a k -> B Limbo a k -> False) ->
  (forall a k, B Live a k -> B Limbo a k -> False) ->
  forall t1 t2 a k, B t1 a k -> B t2 a k -> t1 = t2.
Proof.
  intros E1 E2 E3 t1 t2 a k H1 H2.
  destruct t1, t2; try done; exfalso; eauto.
Qed.

(** A change of the ghost state that keeps the set of blocks. *)
Lemma geo_retag fl live limbo fl' live' limbo' :
  Geo fl live limbo ->
  (forall t a k, Blk fl' live' limbo' t a k -> exists t0, Blk fl live limbo t0 a k) ->
  (forall t a k, Blk fl live limbo t a k -> exists t', Blk fl' live' limbo' t' a k) ->
  (forall a k, Blk fl' live' limbo' Free a k -> Blk fl' live' limbo' Live a k -> False) ->
  (forall a k, Blk fl' live' limbo' Free a k -> Blk fl' live' limbo' Limbo a k -> False) ->
  (forall a k, Blk fl' live' limbo' Live a k -> Blk fl' live' limbo' Limbo a k -> False) ->
  (forall k, NoDup (fl' k)) -> NoDup (live'.*1.*1) ->
  free_bytes fl' + live_bytes live' + limbo_bytes limbo' = 2 ^ MAX_ORDER ->
  (forall a k, Blk fl' live' limbo' Free a k -> ~ Blk fl' live' limbo' Free (buddy_addr a k) k) ->
  Geo fl' live' limbo'.
Proof.
  intros G R1 R2 E1 E2 E3 Hnd Hlnd Hsum Hbud. split; try done.
  - intros t a k H. destruct (R1 _ _ _ H) as [t0 H0]. eapply geo_wf; done.
  - intros t1 a1 k1 t2 a2 k2 H1 H2.
    destruct (R1 _ _ _ H1) as [t01 H01]. destruct (R1 _ _ _ H2) as [t02 H02].
    destruct (geo_disj _ _ _ G _ _ _ _ _ _ H01 H02) as [(_ & -> & ->)|?]; [|by right].
    left. split; [|done].
    eapply (tags_unique (Blk fl' live' limbo')); done.
  - intros x Hx. destruct (geo_cover _ _ _ G x Hx) as (t & a & k & H & Hr).
    destruct (R2 _ _ _ H) as [t' H']. exists t', a, k. done.
Qed.

Lemma geo_free_live fl live limbo a k1 k2 :
  Geo fl live limbo -> Blk fl live limbo Free a k1 -> Blk fl live limbo Live a k2 -> False.
Proof. intros G H1 H2. by destruct (geo_same_addr _ _ _ _ _ _ _ _ G H1 H2). Qed.

Lemma geo_free_limbo fl live limbo a k1 k2 :
  Geo fl live limbo -> Blk fl live limbo Free a k1 -> Blk fl live limbo Limbo a k2 -> False.
Proof. intros G H1 H2. by destruct (geo_same_addr _ _ _ _ _ _ _ _ G H1 H2). Qed.

Lemma geo_live_limbo fl live limbo a k1 k2 :
  Geo fl live limbo -> Blk fl live limbo Live a k1 -> Blk fl live limbo Limbo a k2 -> False.
Proof. intros G H1 H2. by destruct (geo_same_addr _ _ _ _ _ _ _ _ G H1 H2). Qed.

Lemma fupd_same fl i l : fupd fl i l i = l.
Proof. unfold fupd. by rewrite Z.eqb_refl. Qed.

Lemma fupd_other fl i l k : k <> i -> fupd fl i l k = fl k.
Proof. intros. unfold fupd. destruct (Z.eqb_spec k i); done. Qed.

Lemma geo_pop fl live i b rest :
  Geo fl live None -> MIN_ORDER <= i <= MAX_ORDER -> fl i = b :: rest ->
  Geo (fupd fl i rest) live (Some (b, i)).
Proof.
  intros G Hi Hfl.
  pose proof (geo_nodup _ _ _ G i) as Hnd. rewrite Hfl in Hnd.
  apply NoDup_cons in Hnd as [Hb Hnd].
  assert (Blk fl live None Free b i) as Hfree.
  { split; [done|]. rewrite Hfl. apply elem_of_cons. auto. }
  assert (forall a k, Blk (fupd fl i rest) live (Some (b, i)) Free a k ->
            Blk fl live None Free a k) as F.
  { intros a k [Hk H]. split; [done|].
    destruct (Z.eq_dec k i) as [->|Hne].
    - rewrite fupd_same in H. rewrite Hfl. apply elem_of_cons. auto.
    - by rewrite fupd_other in H. }
  apply (geo_retag fl live None); try done.
  - intros [] a k H.
    + exists Free. by apply F.
    + exists Live. done.
    + inversion H; subst. exists Free. done.
  - intros [] a k H; simpl in H.
    + destruct H as [Hk H]. destruct (Z.eq_dec k i) as [->|Hne].
      * rewrite Hfl in H. apply elem_of_cons in H as [->|H].
        -- exists Limbo. done.
        -- exists Free. split; [done|]. by rewrite fupd_same.
      * exists Free. split; [done|]. by rewrite fupd_other.
    + exists Live. done.
    + done.
  - intros a k H1 H2. apply F in H1. eapply geo_free_live; done.
  - intros a k [_ H1] H2. inversion H2; subst. by rewrite fupd_same in H1.
  - intros a k H1 H2. inversion H2; subst. eapply geo_free_live; done.
  - intros k. destruct (Z.eq_dec k i) as [->|].
    + by rewrite fupd_same.
    + rewrite fupd_other by done. apply (geo_nodup _ _ _ G).
  - apply (geo_live_nodup _ _ _ G).
  - pose proof (geo_sum _ _ _ G) as Hs. rewrite free_bytes_fupd by done.
    rewrite Hfl. simpl in *. lia.
  - intros a k H Hb'. apply (geo_buddy _ _ _ G a k); by apply F.
Qed.

Lemma geo_push fl live b k :
  Geo fl live (Some (b, k)) -> buddy_addr b k ∉ fl k ->
  Geo (fupd fl k (b :: fl k)) live None.
Proof.
  intros G Hbud.
  assert (Blk fl live (Some (b, k)) Limbo b k) as Hl by done.
  pose proof (geo_wf _ _ _ G _ _ _ Hl) as (Hk & _).
  assert (b ∉ fl k) as Hb.
  { intros H. eapply (geo_free_limbo _ _ _ b k k G); done. }
  assert (forall a j, Blk (fupd fl k (b :: fl k)) live None Free a j ->
            (a = b /\ j = k) \/ Blk fl live (Some (b, k)) Free a j) as F.
  { intros a j [Hj H].
    destruct (Z.eq_dec j k) as [->|Hne].
    - rewrite fupd_same in H. apply elem_of_cons in H as [->|H]; [by left|by right].
    - rewrite fupd_other in H by done. by right. }
  apply (geo_retag fl live (Some (b, k))); try done.
  - intros [] a j H.
    + destruct (F _ _ H) as [[-> ->]|H']; [by exists Limbo|by exists Free].
    + exists Live. done.
    + done.
  - intros [] a j H.
    + exists Free. destruct H as [Hj H]. split; [done|].
      destruct (Z.eq_dec j k) as [->|Hne].
      * rewrite fupd_same. apply elem_of_cons. auto.
      * by rewrite fupd_other.
    + exists Live. done.
    + inversion H; subst. exists Free. split; [done|].
      rewrite fupd_same. apply elem_of_cons. auto.
  - intros a j H1 H2. destruct (F _ _ H1) as [[-> ->]|H'].
    + eapply geo_live_limbo; done.
    + eapply geo_free_live; done.
  - intros j. destruct (Z.eq_dec j k) as [->|].
    + rewrite fupd_same. apply NoDup_cons. split; [done|]. apply (geo_nodup _ _ _ G).
    + rewrite fupd_other by done. apply (geo_nodup _ _ _ G).
  - apply (geo_live_nodup _ _ _ G).
  - pose proof (geo_sum _ _ _ G) as Hs. rewrite free_bytes_fupd by done.
    simpl in *. lia.
  - intros a j H1 H2.
    destruct (F _ _ H1) as [[-> ->]|H1']; destruct (F _ _ H2) as [[E Ej]|H2'].
    + pose proof min_order_spec. eapply (buddy_addr_neq b k); [lia|done].
    + apply Hbud. by destruct H2'.
    + destruct H1' as [_ H1']. subst j.
      apply Hbud. rewrite <- E, buddy_addr_invol. done.
    + exact (geo_buddy _ _ _ G _ _ H1' H2').
Qed.

Lemma geo_commit fl live b r sz :
  Geo fl live (Some (b, r)) -> Geo fl ((b, sz, r) :: live) None.
Proof.
  intros G.
  assert (Blk fl live (Some (b, r)) Limbo b r) as Hl by done.
  assert (forall a k, Blk fl ((b, sz, r) :: live) None Live a k ->
            (a = b /\ k = r) \/ Blk fl live (Some (b, r)) Live a k) as L.
  { intros a k [sz' H]. apply elem_of_cons in H as [H|H].
    - inversion H. by left.
    - right. by exists sz'. }
  apply (geo_retag fl live (Some (b, r))); try done.
  - intros [] a k H.
    + by exists Free.
    + destruct (L _ _ H) as [[-> ->]|H']; [by exists Limbo|by exists Live].
    + done.
  - intros [] a k H.
    + by exists Free.
    + exists Live. destruct H as [sz' H]. exists sz'. apply elem_of_cons. auto.
    + inversion H; subst. exists Live. exists sz. apply elem_of_cons. auto.
  - intros a k H1 H2. destruct (L _ _ H2) as [[-> ->]|H'].
    + eapply geo_free_limbo; done.
    + eapply geo_free_live; done.
  - apply (geo_nodup _ _ _ G).
  - simpl. apply NoDup_cons. split; [|apply (geo_live_nodup _ _ _ G)].
    intros H. apply list_elem_of_fmap in H as ([b' sz'] & E & H). simpl in E. subst b'.
    apply list_elem_of_fmap in H as ([[b' sz''] k'] & E & H). simpl in E.
    inversion E; subst b' sz''. eapply (geo_live_limbo _ _ _ b k' r G); [|done]. by exists sz'.
  - pose proof (geo_sum _ _ _ G) as Hs. simpl in *. lia.
  - apply (geo_buddy _ _ _ G).
Qed.

Lemma geo_release fl live p sz k :
  Geo fl live None -> (p, sz, k) ∈ live ->
  Geo fl (filter (fun x => x.1.1 <> p) live) (Some (p, k)).
Proof.
  intros G Hin.
  assert (Blk fl live None Live p k) as Hl by (by exists sz).
  assert (forall a j, Blk fl (filter (fun x => x.1.1 <> p) live) (Some (p, k)) Live a j ->
            a <> p /\ Blk fl live None Live a j) as L.
  { intros a j [sz' H]. apply list_elem_of_filter in H as [Hne H]. simpl in Hne.
    split; [done|]. by exists sz'. }
  apply (geo_retag fl live None); try done.
  - intros [] a j H.
    + by exists Free.
    + exists Live. by apply L.
    + inversion H; subst. by exists Live.
  - intros [] a j H.
    + by exists Free.
    + destruct (Z.eq_dec a p) as [->|Hne].
      * destruct (geo_same_addr _ _ _ _ _ _ _ _ G H Hl) as [_ ->]. by exists Limbo.
      * exists Live. destruct H as [sz' H]. exists sz'.
        apply list_elem_of_filter. done.
    + done.
  - intros a j H1 H2. apply L in H2 as [_ H2]. eapply geo_free_live; done.
  - intros a j H1 H2. inversion H2; subst. eapply geo_free_live; done.
  - intros a j H1 H2. inversion H2; subst. by apply L in H1 as [? _].
  - apply (geo_nodup _ _ _ G).
  - eapply sublist_NoDup; [apply (geo_live_nodup _ _ _ G)|].
    apply fmap_sublist, fmap_sublist, sublist_filter.
  - pose proof (geo_sum _ _ _ G) as Hs.
    rewrite (live_bytes_remove live p sz k); [|apply (geo_live_nodup _ _ _ G)|done].
    simpl in *. lia.
  - apply (geo_buddy _ _ _ G).
Qed.

(** The two halves of a block of order [j + 1]. *)
Lemma wfb_halves b j :
  MIN_ORDER <= j -> wfb b (j + 1) ->
  wfb b j /\ wfb (b + 2 ^ j) j /\ buddy_addr (b + 2 ^ j) j = b /\ buddy_addr b j = b + 2 ^ j.
Proof.
  intros Hj (Hk & Hb & He & Hd). pose proof min_order_spec.
  rewrite pow2_succ in * by lia. pose proof (pow2_pos j ltac:(lia)).
  assert ((2 ^ j | b - base)) as Hd'.
  { etrans; [|exact Hd]. exists 2. lia. }
  assert (buddy_addr b j = b + 2 ^ j) as Hbud.
  { unfold buddy_addr. destruct Hd as [q Hq].
    rewrite lxor_pow2_clear; [lia|lia|].
    rewrite Hq. replace (q * (2 * 2 ^ j)) with ((2 * q) * 2 ^ j) by lia.
    rewrite Z.mul_pow2_bits by lia. rewrite Z.sub_diag.
    rewrite Z.bit0_odd, Z.odd_mul. done. }
  repeat split; try lia; try done.
  - replace (b + 2 ^ j - base) with ((b - base) + 2 ^ j) by lia.
    apply Z.divide_add_r; [done|apply Z.divide_refl].
  - rewrite <- Hbud. apply buddy_addr_invol.
Qed.

Lemma geo_split fl live b j :
  Geo fl live (Some (b, j + 1)) -> MIN_ORDER <= j ->
  Geo (fupd fl j ((b + 2 ^ j) :: fl j)) live (Some (b, j)).
Proof.
  intros G Hj. pose proof min_order_spec as Hmin.
  assert (Blk fl live (Some (b, j + 1)) Limbo b (j + 1)) as Hl by done.
  pose proof (geo_wf _ _ _ G _ _ _ Hl) as Hw.
  destruct (wfb_halves b j Hj Hw) as (Hw1 & Hw2 & Hb1 & Hb2).
  assert (j + 1 <= MAX_ORDER) as Hj' by (destruct Hw; lia).
  pose proof (pow2_succ j ltac:(lia)) as Hp. pose proof (pow2_pos j ltac:(lia)) as Hpp.
  assert (forall t a k, Blk fl live (Some (b, j + 1)) t a k -> t <> Limbo ->
            disj a k b (j + 1)) as D.
  { intros t a k H Ht.
    destruct (geo_disj _ _ _ G _ _ _ _ _ _ H Hl) as [(-> & _)|?]; done. }
  assert (forall a, a ∈ fl j -> disj a j b (j + 1)) as DF.
  { intros a Ha. apply (D Free); [|done]. split; [lia|done]. }
  assert (forall t a k, Blk (fupd fl j ((b + 2 ^ j) :: fl j)) live (Some (b, j)) t a k ->
            (t = Free /\ a = b + 2 ^ j /\ k = j) \/ (t = Limbo /\ a = b /\ k = j) \/
            (t <> Limbo /\ Blk fl live (Some (b, j + 1)) t a k)) as C.
  { intros [] a k H.
    - destruct H as [Hk H]. destruct (Z.eq_dec k j) as [->|Hne].
      + rewrite fupd_same in H. apply elem_of_cons in H as [->|H]; [by left|].
        right; right. done.
      + rewrite fupd_other in H by done. right; right. done.
    - right; right. done.
    - inversion H; subst. right; left. done. }
  split.
  - intros k. destruct (Z.eq_dec k j) as [->|].
    + rewrite fupd_same. apply NoDup_cons. split; [|apply (geo_nodup _ _ _ G)].
      intros Hin. apply DF in Hin. unfold disj in Hin. lia.
    + rewrite fupd_other by done. apply (geo_nodup _ _ _ G).
  - apply (geo_live_nodup _ _ _ G).
  - intros t a k H. destruct (C _ _ _ H) as [(-> & -> & ->)|[(-> & -> & ->)|[_ H']]]; try done.
    eapply geo_wf; done.
  - intros t1 a1 k1 t2 a2 k2 H1 H2. unfold disj.
    destruct (C _ _ _ H1) as [(-> & -> & ->)|[(-> & -> & ->)|[T1 H1']]];
    destruct (C _ _ _ H2) as [(-> & -> & ->)|[(-> & -> & ->)|[T2 H2']]];
    try (left; done); try (right; lia).
    + apply D in H2'; [|done]. unfold disj in H2'. right. lia.
    + apply D in H2'; [|done]. unfold disj in H2'. right. lia.
    + apply D in H1'; [|done]. unfold disj in H1'. right. lia.
    + apply D in H1'; [|done]. unfold disj in H1'. right. lia.
    + apply (geo_disj _ _ _ G); done.
  - intros x Hx. destruct (geo_cover _ _ _ G x Hx) as (t & a & k & H & Hr).
    destruct t.
    + exists Free, a, k. split; [|done]. destruct H as [Hk H]. split; [done|].
      destruct (Z.eq_dec k j) as [->|].
      * rewrite fupd_same. apply elem_of_cons. auto.
      * by rewrite fupd_other.
    + exists Live, a, k. done.
    + injection H as <- <-. destruct (Z.lt_ge_cases x (b + 2 ^ j)).
      * exists Limbo, b, j. split; [done|lia].
      * exists Free, (b + 2 ^ j), j. split; [|lia]. split; [lia|].
        rewrite fupd_same. apply elem_of_cons. auto.
  - pose proof (geo_sum _ _ _ G) as Hs. rewrite free_bytes_fupd by lia.
    simpl in *. lia.
  - assert (b ∉ fl j) as Hnb.
    { intros Hin. apply DF in Hin. unfold disj in Hin. lia. }
    intros a k H1 H2.
    destruct (C _ _ _ H1) as [(_ & -> & ->)|[(? & _)|[_ H1']]]; [|done|];
    destruct (C _ _ _ H2) as [(_ & E & Ek)|[(? & _)|[_ H2']]]; try done.
    + rewrite Hb1 in E. lia.
    + rewrite Hb1 in H2'. destruct H2' as [_ H2']. done.
    + subst k. apply Hnb. rewrite <- Hb1, <- E, buddy_addr_invol. by destruct H1'.
    + exact (geo_buddy _ _ _ G _ _ H1' H2').
Qed.

Lemma geo_merge fl live b k l1 l2 :
  Geo fl live (Some (b, k)) -> fl k = l1 ++ buddy_addr b k :: l2 ->
  k + 1 <= MAX_ORDER /\
  Geo (fupd fl k (l1 ++ l2)) live (Some (Z.min b (buddy_addr b k), k + 1)).
Proof.
  intros G Hfl. pose proof min_order_spec as Hmin.
  set (b' := buddy_addr b k) in *. set (m := Z.min b b').
  assert (Blk fl live (Some (b, k)) Limbo b k) as Hl by done.
  pose proof (geo_wf _ _ _ G _ _ _ Hl) as Hw.
  assert (MIN_ORDER <= k <= MAX_ORDER) as Hk by (by destruct Hw).
  assert (Blk fl live (Some (b, k)) Free b' k) as Hf.
  { split; [done|]. rewrite Hfl. apply elem_of_app. right. apply elem_of_cons. auto. }
  pose proof (geo_wf _ _ _ G _ _ _ Hf) as Hw'.
  pose proof (pow2_succ k ltac:(lia)) as Hp. pose proof (pow2_pos k ltac:(lia)) as Hpp.
  pose proof (geo_nodup _ _ _ G k) as Hnd. rewrite Hfl in Hnd.
  apply NoDup_app in Hnd as (Hnd1 & Hnd12 & Hnd2).
  apply NoDup_cons in Hnd2 as [Hnd2' Hnd2].
  assert (b' ∉ l1) as Hnd1'.
  { intros Hin. apply (Hnd12 _ Hin). apply elem_of_cons. auto. }
  assert (exists h, m - base = h * 2 ^ (k + 1) /\
            ((b = m /\ b' = m + 2 ^ k) \/ (b' = m /\ b = m + 2 ^ k))) as (h & Hm & Hmb).
  { destruct Hw as (_ & _ & _ & Hd).
    destruct (buddy_cases (b - base) k ltac:(lia) Hd) as [(h & Hh & Hx)|(h & Hh & Hx)];
      exists h; unfold m, b', buddy_addr in *; rewrite Hx; lia. }
  clearbody m b'.
  assert (k + 1 <= MAX_ORDER) as Hk1.
  { destruct (Z.eq_dec k MAX_ORDER) as [->|]; [|lia].
    destruct Hw as (_ & ? & ? & _), Hw' as (_ & ? & ? & _). lia. }
  split; [done|].
  assert (wfb m (k + 1)) as Hwm.
  { destruct Hw as (_ & ? & ? & _), Hw' as (_ & ? & ? & _).
    split; [lia|]. split; [lia|]. split; [lia|]. exists h. done. }
  assert (forall t a j, Blk (fupd fl k (l1 ++ l2)) live (Some (m, k + 1)) t a j ->
            (t = Limbo /\ a = m /\ j = k + 1) \/
            (t <> Limbo /\ Blk fl live (Some (b, k)) t a j /\ disj a j b k /\ disj a j b' k
             /\ 0 < 2 ^ j))
    as C.
  { assert (forall t a j, Blk fl live (Some (b, k)) t a j -> 0 < 2 ^ j) as Hpos.
    { intros t a j H. by apply (geo_wf _ _ _ G), wfb_pos in H as [_ ?]. }
    intros [] a j H.
    - right. split; [done|]. destruct H as [Hj H].
      assert (a ∈ fl j /\ (j = k -> a <> b')) as [Hin Hne].
      { destruct (Z.eq_dec j k) as [->|Hne].
        - rewrite fupd_same in H. rewrite Hfl. apply elem_of_app in H as [H|H].
          + split; [apply elem_of_app; auto|]. intros _ ->. done.
          + split; [apply elem_of_app; right; apply elem_of_cons; auto|].
            intros _ ->. done.
        - rewrite fupd_other in H by done. done. }
      assert (Blk fl live (Some (b, k)) Free a j) as Ha by done.
      split; [done|]. split; [|split; [|by eapply Hpos]].
      + destruct (geo_disj _ _ _ G _ _ _ _ _ _ Ha Hl) as [(? & _)|?]; done.
      + destruct (geo_disj _ _ _ G _ _ _ _ _ _ Ha Hf) as [(_ & ? & ?)|?]; [|done].
        exfalso. by apply Hne.
    - right. split; [done|]. split; [done|].
      split; [|split; [|by eapply (Hpos Live)]].
      + destruct (geo_disj _ _ _ G _ _ _ _ _ _ (H : Blk fl live (Some (b, k)) Live a j) Hl)
          as [(? & _)|?]; done.
      + destruct (geo_disj _ _ _ G _ _ _ _ _ _ (H : Blk fl live (Some (b, k)) Live a j) Hf)
          as [(? & _)|?]; done.
    - left. injection H as <- <-. done. }
  split.
  - intros j. destruct (Z.eq_dec j k) as [->|].
    + rewrite fupd_same. apply NoDup_app. split; [done|]. split; [|done].
      intros x Hx Hx'. apply (Hnd12 _ Hx). apply elem_of_cons. auto.
    + rewrite fupd_other by done. apply (geo_nodup _ _ _ G).
  - apply (geo_live_nodup _ _ _ G).
  - intros t a j H. destruct (C _ _ _ H) as [(-> & -> & ->)|(_ & H' & _)]; [done|].
    eapply geo_wf; done.
  - intros t1 a1 k1 t2 a2 k2 H1 H2. unfold disj in *.
    destruct (C _ _ _ H1) as [(-> & -> & ->)|(T1 & H1' & D1 & D1' & P1)];
    destruct (C _ _ _ H2) as [(-> & -> & ->)|(T2 & H2' & D2 & D2' & P2)].
    + by left.
    + right. lia.
    + right. lia.
    + apply (geo_disj _ _ _ G); done.
  - intros x Hx. destruct (geo_cover _ _ _ G x Hx) as (t & a & j & H & Hr).
    destruct t.
    + destruct H as [Hj H]. destruct (Z.eq_dec j k) as [->|Hne].
      * rewrite Hfl in H. 
        assert (a = b' \/ a ∈ l1 ++ l2) as [->|Hin].
        { apply elem_of_app in H as [H|H]; [right; apply elem_of_app; auto|].
          apply elem_of_cons in H as [H|H]; [by left|right; apply elem_of_app; auto]. }
        -- exists Limbo, m, (k + 1). split; [done|lia].
        -- exists Free, a, k. split; [|done]. split; [done|]. by rewrite fupd_same.
      * exists Free, a, j. split; [|done]. split; [done|]. by rewrite fupd_other.
    + exists Live, a, j. done.
    + injection H as <- <-. exists Limbo, m, (k + 1). split; [done|lia].
  - pose proof (geo_sum _ _ _ G) as Hs. rewrite free_bytes_fupd by lia.
    rewrite Hfl, !length_app. simpl in *. lia.
  - intros a j H1 H2.
    destruct (C _ _ _ H1) as [(? & _)|(_ & H1' & _)]; [done|].
    destruct (C _ _ _ H2) as [(? & _)|(_ & H2' & _)]; [done|].
    exact (geo_buddy _ _ _ G _ _ H1' H2').
Qed.

(** ** The object and the ghost state *)

(** Every block owns the byte in front of it and all its bytes but the
    last; what two different blocks own never meets. *)
Lemma geo_frame fl live limbo t c kc t' a k x :
  Geo fl live limbo -> Blk fl live limbo t c kc -> Blk fl live limbo t' a k ->
  ~ (t' = t /\ a = c /\ k = kc) ->
  c - 1 <= x < c + 2 ^ kc - 1 -> a - 1 <= x < a + 2 ^ k - 1 -> False.
Proof.
  intros G H1 H2 Hne Hx1 Hx2.
  destruct (geo_disj _ _ _ G _ _ _ _ _ _ H2 H1) as [?|D]; [done|].
  unfold disj in D. lia.
Qed.

Lemma bytes_same s s' x :
  m_dummy s' = m_dummy s -> m_buffer s' = m_buffer s -> bytes s' x = bytes s x.
Proof. intros Hd Hb. unfold bytes. by rewrite Hd, Hb. Qed.

Lemma ptr_at_same s s' a : m_buffer s' = m_buffer s -> ptr_at s' a = ptr_at s a.
Proof. intros Hb. unfold ptr_at. by rewrite Hb. Qed.

Lemma flist_same s s' h l : m_buffer s' = m_buffer s -> flist s h l -> flist s' h l.
Proof. intros Hb. apply flist_ext. intros. by apply ptr_at_same. Qed.

Lemma head_range s fl live limbo k h :
  Geo fl live limbo -> MIN_ORDER <= k <= MAX_ORDER -> flist s h (fl k) ->
  0 <= h < 2 ^ (8 * ptr_size).
Proof.
  intros G Hk Hl. destruct (fl k) as [|a l] eqn:E; simpl in Hl.
  - subst h. split; [done|]. apply pow2_pos. lia.
  - destruct Hl as (-> & _).
    assert (Blk fl live limbo Free a k) as Ha.
    { split; [done|]. rewrite E. apply elem_of_cons. auto. }
    apply (geo_wf _ _ _ G), block_room in Ha. lia.
Qed.

Lemma free_ptr_frame s s' fl live limbo a k :
  Geo fl live limbo -> Blk fl live limbo Free a k ->
  (forall x, a - 1 <= x < a + 2 ^ k - 1 -> bytes s' x = bytes s x) ->
  ptr_at s' a = ptr_at s a.
Proof.
  intros G Ha H. pose proof (geo_wf _ _ _ G _ _ _ Ha) as Hw. apply block_room in Hw.
  apply ptr_at_ext; [lia|]. intros x Hx. apply H. lia.
Qed.

(** A change of bytes that no free or outstanding block owns keeps the
    representation. *)
Lemma rep_frame s s' fl live limbo :
  Geo fl live limbo -> Rep s fl live ->
  m_freelists s' = m_freelists s ->
  (forall t a k x, Blk fl live limbo t a k -> t <> Limbo ->
     a - 1 <= x < a + 2 ^ k - 1 -> bytes s' x = bytes s x) ->
  Rep s' fl live /\ stable live s s'.
Proof.
  intros G R Hfl F. split; [split|].
  - rewrite Hfl. apply (rep_len _ _ _ R).
  - intros k Hk. destruct (rep_heads _ _ _ R k Hk) as (h & Hh & Hl).
    exists h. split; [unfold head_of in *; by rewrite Hfl|].
    eapply flist_ext; [|done]. intros a Ha.
    assert (Blk fl live limbo Free a k) as Hb by done.
    eapply free_ptr_frame; [done..|]. intros x Hx. by eapply (F Free).
  - intros p sz k Hin. rewrite <- (rep_order _ _ _ R p sz k Hin).
    assert (Blk fl live limbo Live p k) as Hb by (by exists sz).
    apply (geo_wf _ _ _ G), wfb_pos in Hb as Hpos.
    eapply (F Live); [by exists sz|done|lia].
  - intros p sz k a Hin Ha. eapply (F Live); [by exists sz|done|done].
Qed.

(** Line 105: the head of list [i] leaves the list. *)
Lemma step_pop s fl live i b rest :
  Inv s fl live None -> MIN_ORDER <= i <= MAX_ORDER -> fl i = b :: rest ->
  exists s1, load_ptr s b = Val (ptr_at s b) /\
    freelist_set s (i - MIN_ORDER) (ptr_at s b) = Val s1 /\
    Inv s1 (fupd fl i rest) live (Some (b, i)) /\
    m_dummy s1 = m_dummy s /\ m_buffer s1 = m_buffer s.
Proof.
  intros [G R] Hi Hfl.
  assert (Blk fl live None Free b i) as Hb.
  { split; [done|]. rewrite Hfl. apply elem_of_cons. auto. }
  pose proof (geo_wf _ _ _ G _ _ _ Hb) as Hw. apply block_room in Hw.
  destruct (freelist_set_spec s i (ptr_at s b) (rep_len _ _ _ R) Hi)
    as (s1 & Hs1 & Hlen & Hhd & Hoth & Hd & Hm).
  exists s1. split; [apply load_ptr_spec; lia|]. split; [done|].
  split; [|done]. split; [by apply geo_pop|]. split.
  - done.
  - intros k Hk. destruct (Z.eq_dec k i) as [->|Hne].
    + exists (ptr_at s b). split; [done|]. rewrite fupd_same.
      destruct (rep_heads _ _ _ R i Hi) as (h & _ & Hl). rewrite Hfl in Hl.
      simpl in Hl. destruct Hl as (_ & _ & Hl). by apply (flist_same s).
    + destruct (rep_heads _ _ _ R k Hk) as (h & Hh & Hl). exists h.
      rewrite Hoth by lia. split; [done|]. rewrite fupd_other by done.
      by apply (flist_same s).
  - intros p sz k Hin. rewrite <- (rep_order _ _ _ R p sz k Hin). by apply bytes_same.
Qed.

(** Lines 111-112 and 147-148: block [c], inside the block in limbo, goes
    to the front of list [j]. *)
Lemma rep_push s fl live c0 k0 c j :
  Geo fl live (Some (c0, k0)) -> Rep s fl live -> MIN_ORDER <= j <= MAX_ORDER ->
  c0 <= c -> c + ptr_size <= c0 + 2 ^ k0 - 1 ->
  exists h s1 s2, freelist_get s (j - MIN_ORDER) = Val h /\
    store_ptr s c h = Val s1 /\ freelist_set s1 (j - MIN_ORDER) c = Val s2 /\
    Rep s2 (fupd fl j (c :: fl j)) live /\ stable live s s2.
Proof.
  intros G R Hj Hc1 Hc2.
  assert (Blk fl live (Some (c0, k0)) Limbo c0 k0) as Hl by done.
  pose proof (geo_wf _ _ _ G _ _ _ Hl) as Hw. apply block_room in Hw.
  destruct (rep_heads _ _ _ R j Hj) as (h & Hh & Hlj).
  pose proof (head_range _ _ _ _ _ _ G Hj Hlj) as Hhr.
  destruct (store_ptr_spec s c h) as (s1 & Hs1 & Hfl1 & Hp1 & Hb1); [lia..|].
  destruct (freelist_set_spec s1 j c) as (s2 & Hs2 & Hlen & Hhd & Hoth & Hd & Hm);
    [rewrite Hfl1; apply (rep_len _ _ _ R)|done|].
  exists h, s1, s2. split; [by apply freelist_get_spec; [lia|]|].
  split; [done|]. split; [done|].
  assert (forall t a k x, Blk fl live (Some (c0, k0)) t a k -> t <> Limbo ->
            a - 1 <= x < a + 2 ^ k - 1 -> bytes s2 x = bytes s x) as F.
  { intros t a k x Ha Ht Hx. rewrite (bytes_same s1 s2) by done. apply Hb1.
    destruct (Z.lt_ge_cases x c); [by left|]. 
    destruct (Z.lt_ge_cases x (c + ptr_size)); [|by right].
    exfalso. eapply (geo_frame _ _ _ _ _ _ _ _ _ x G Hl Ha); [|lia|done].
    intros (-> & _). done. }
  destruct (rep_frame s s1 fl live _ G R Hfl1) as [R1 St].
  { intros t a k x Ha Ht Hx. rewrite <- (bytes_same s1 s2) by done. by eapply F. }
  split.
  - split; [done| |].
    + intros k Hk. destruct (Z.eq_dec k j) as [->|Hne].
      * exists c. split; [done|]. rewrite fupd_same. simpl.
        split; [done|]. split; [lia|].
        rewrite (ptr_at_same s1 s2), Hp1 by done.
        destruct (rep_heads _ _ _ R1 j Hj) as (h' & Hh' & Hl').
        unfold head_of in *. rewrite Hfl1 in Hh'. rewrite Hh in Hh'. injection Hh' as <-.
        by apply (flist_same s1).
      * destruct (rep_heads _ _ _ R1 k Hk) as (h' & Hh' & Hl'). exists h'.
        rewrite Hoth by lia. split; [done|]. rewrite fupd_other by done.
        by apply (flist_same s1).
    + intros p sz k Hin. rewrite <- (rep_order _ _ _ R1 p sz k Hin). by apply bytes_same.
  - intros p sz k a Hin Ha. rewrite (bytes_same s1 s2) by done. by eapply St.
Qed.

Lemma stable_trans live s1 s2 s3 :
  stable live s1 s2 -> stable live s2 s3 -> stable live s1 s3.
Proof.
  intros H1 H2 p sz k a Hin Ha. rewrite (H2 p sz k a) by done. by eapply H1.
Qed.

Lemma stable_refl live s : stable live s s.
Proof. by intros p sz k a _ _. Qed.

Lemma buddy_of_spec b k :
  0 <= k <= 31 -> buddy_of b k = Val (buddy_addr b k).
Proof.
  intros Hk. unfold buddy_of, buddy_addr.
  destruct (Z.leb_spec 0 k); [|lia]. destruct (Z.ltb_spec k 32); [|lia].
  simpl. by rewrite shiftl_1.
Qed.

(** Lines 108-112: one pass of the splitting loop. *)
Lemma step_split s fl live b j :
  Inv s fl live (Some (b, j + 1)) -> MIN_ORDER <= j ->
  exists h s1 s2, buddy_of b j = Val (b + 2 ^ j) /\
    freelist_get s (j - MIN_ORDER) = Val h /\
    store_ptr s (b + 2 ^ j) h = Val s1 /\
    freelist_set s1 (j - MIN_ORDER) (b + 2 ^ j) = Val s2 /\
    Inv s2 (fupd fl j ((b + 2 ^ j) :: fl j)) live (Some (b, j)) /\
    stable live s s2.
Proof.
  intros [G R] Hj. pose proof min_order_spec as Hmin.
  assert (Blk fl live (Some (b, j + 1)) Limbo b (j + 1)) as Hl by done.
  pose proof (geo_wf _ _ _ G _ _ _ Hl) as Hw.
  destruct (wfb_halves b j Hj Hw) as (Hw1 & Hw2 & Hb1 & Hb2).
  pose proof (block_room _ _ Hw2) as Hr2. pose proof (block_room _ _ Hw) as Hr.
  pose proof (pow2_succ j ltac:(lia)) as Hp.
  assert (j + 1 <= MAX_ORDER) as Hj' by (destruct Hw; lia).
  destruct (rep_push s fl live b (j + 1) (b + 2 ^ j) j G R)
    as (h & s1 & s2 & Hg & Hs1 & Hs2 & R2 & St); [lia..|].
  exists h, s1, s2. split; [rewrite buddy_of_spec by lia; by rewrite Hb2|].
  do 3 (split; [done|]). split; [|done]. split; [by apply geo_split|done].
Qed.

(** Lines 147-148: the block in limbo goes to its free list. *)
Lemma step_push s fl live b k :
  Inv s fl live (Some (b, k)) -> buddy_addr b k ∉ fl k ->
  exists h s1 s2, freelist_get s (k - MIN_ORDER) = Val h /\
    store_ptr s b h = Val s1 /\ freelist_set s1 (k - MIN_ORDER) b = Val s2 /\
    Inv s2 (fupd fl k (b :: fl k)) live None /\ stable live s s2.
Proof.
  intros [G R] Hbud.
  assert (Blk fl live (Some (b, k)) Limbo b k) as Hl by done.
  pose proof (geo_wf _ _ _ G _ _ _ Hl) as Hw.
  pose proof (block_room _ _ Hw) as Hr. destruct Hw as (Hk & _).
  destruct (rep_push s fl live b k b k G R) as (h & s1 & s2 & Hg & Hs1 & Hs2 & R2 & St);
    [lia..|].
  exists h, s1, s2. do 3 (split; [done|]). split; [|done].
  split; [by apply geo_push|done].
Qed.

(** Line 116: the order goes in front of the block, which is handed out. *)
Lemma step_commit s fl live b r sz :
  Inv s fl live (Some (b, r)) ->
  exists s3, store_byte s (b - 1) r = Val s3 /\
    Inv s3 fl ((b, sz, r) :: live) None /\ stable live s s3 /\ bytes s3 (b - 1) = r.
Proof.
  intros [G R].
  assert (Blk fl live (Some (b, r)) Limbo b r) as Hl by done.
  pose proof (geo_wf _ _ _ G _ _ _ Hl) as Hw.
  pose proof (block_room _ _ Hw) as Hr. pose proof (wfb_pos _ _ Hw) as Hpos.
  destruct (store_byte_spec s (b - 1) r) as (s3 & Hs3 & Hfl & Hb & Hoth); [lia|].
  exists s3. split; [done|].
  destruct (rep_frame s s3 fl live _ G R Hfl) as [R3 St].
  { intros t a k x Ha Ht Hx. apply Hoth. intros ->.
    eapply (geo_frame _ _ _ _ _ _ _ _ _ (b - 1) G Hl Ha); [|lia|done].
    intros (-> & _). done. }
  split; [|done]. split; [by apply geo_commit|].
  split; [apply (rep_len _ _ _ R3)|apply (rep_heads _ _ _ R3)|].
  intros p sz' k Hin. apply elem_of_cons in Hin as [Hin|Hin].
  - by injection Hin as -> -> ->.
  - by apply (rep_order _ _ _ R3 p sz' k).
Qed.

Lemma split_loop_spec n : forall s fl live b i r,
  Inv s fl live (Some (b, i)) -> MIN_ORDER <= r <= i -> Z.of_nat n = i - r ->
  exists s' fl', split_loop n s b i r = Val s' /\
    Inv s' fl' live (Some (b, r)) /\ stable live s s' /\
    forall k, fl' k = if (r <=? k) && (k <? i) then (b + 2 ^ k) :: fl k else fl k.
Proof.
  induction n as [|n IH]; intros s fl live b i r HI Hr Hn.
  - assert (i = r) as -> by lia. exists s, fl. simpl.
    rewrite Z.ltb_irrefl. split; [done|]. split; [done|]. split; [apply stable_refl|].
    intros k. destruct (Z.leb_spec r k), (Z.ltb_spec k r); simpl; done || lia.
  - simpl. destruct (Z.ltb_spec r i); [|lia].
    assert (Blk fl live (Some (b, i)) Limbo b i) as Hl by done.
    destruct HI as [G R]. pose proof (geo_wf _ _ _ G _ _ _ Hl) as Hw.
    apply block_room in Hw. pose proof min_order_spec as Hmin.
    rewrite Z.mod_small by lia.
    replace i with ((i - 1) + 1) in G by lia.
    destruct (step_split s fl live b (i - 1) (conj G R))
      as (h & s1 & s2 & -> & -> & Hs1 & Hs2 & HI2 & St); [lia|].
    simpl. rewrite Hs1. simpl. rewrite Hs2. simpl.
    destruct (IH s2 _ live b (i - 1) r HI2) as (s' & fl' & Hloop & HI' & St' & Hfl');
      [lia..|].
    exists s', fl'. split; [done|]. split; [done|].
    split; [by eapply stable_trans|].
    intros k. rewrite Hfl'.
    destruct (Z.leb_spec r k), (Z.ltb_spec k (i - 1)), (Z.ltb_spec k i); simpl; try lia;
      first [ by rewrite fupd_other by lia
            | assert (k = i - 1) as -> by lia; by rewrite fupd_same ].
Qed.

Lemma find_block_spec s fl live r n : forall index block,
  Rep s fl live -> MIN_ORDER <= r <= index -> index <= MAX_ORDER ->
  head_of s index = Some block -> MAX_ORDER - index <= Z.of_nat n ->
  (forall j, r <= j < index -> fl j = []) ->
  exists b i, find_block n s block index = Val (b, i) /\
    r <= i <= MAX_ORDER /\ head_of s i = Some b /\
    (forall j, r <= j < i -> fl j = []) /\ (b = 0 -> i = MAX_ORDER).
Proof.
  induction n as [|n IH]; intros index block R Hr Hi Hh Hn Hlow.
  - assert (index = MAX_ORDER) as -> by lia. simpl.
    rewrite Z.ltb_irrefl, andb_false_r. exists block, MAX_ORDER.
    split; [done|]. split; [lia|]. done.
  - simpl. destruct (Z.eqb_spec block 0) as [->|Hnz]; simpl.
    + destruct (Z.ltb_spec index MAX_ORDER) as [Hlt|Hge].
      * pose proof max_power_range as Hmax. pose proof min_order_spec as Hmin.
        assert (MAX_ORDER <= 31) by (unfold MAX_ORDER; lia).
        rewrite Z.mod_small by lia.
        destruct (rep_heads _ _ _ R (index + 1)) as (h & Hh' & Hl'); [lia|].
        rewrite (freelist_get_spec s (index + 1) h) by (done || lia). simpl.
        apply IH; try done; try lia.
        intros j Hj. destruct (Z.eq_dec j index) as [->|]; [|apply Hlow; lia].
        destruct (rep_heads _ _ _ R index) as (h0 & Hh0 & Hl0); [lia|].
        rewrite Hh in Hh0. injection Hh0 as <-. by apply (flist_nil s 0).
      * exists 0, index. split; [done|]. split; [lia|]. split; [done|].
        split; [done|]. lia.
    + exists block, index. split; [done|]. split; [lia|]. done.
Qed.

(** ** What [alloc] does *)

Lemma alloc_order_min size r : alloc_order size = Val r -> MIN_ORDER <= r.
Proof.
  unfold alloc_order. destruct (log2 _); simpl; [|done]. intros [= <-]. lia.
Qed.

Lemma alloc_null_spec s size r :
  alloc_order size = Val r -> size = 0 \/ MAX_ORDER < r -> alloc size s = Val (0, s).
Proof.
  intros Hr H. unfold alloc. rewrite Hr. simpl.
  destruct (Z.eqb_spec size 0); [done|]. destruct (Z.ltb_spec MAX_ORDER r); [done|lia].
Qed.

Lemma alloc_spec s fl live size r :
  Inv s fl live None -> alloc_order size = Val r -> size <> 0 -> r <= MAX_ORDER ->
  ((forall k, r <= k <= MAX_ORDER -> fl k = []) /\ alloc size s = Val (0, s)) \/
  (exists i b rest s' fl', r <= i <= MAX_ORDER /\ fl i = b :: rest /\
     (forall j, r <= j < i -> fl j = []) /\
     alloc size s = Val (b, s') /\ b <> 0 /\
     Inv s' fl' ((b, size, r) :: live) None /\ stable live s s' /\
     bytes s' (b - 1) = r /\
     forall k, fl' k = if k =? i then rest
                       else if (r <=? k) && (k <? i) then [b + 2 ^ k] else fl k).
Proof.
  intros HI Hr Hsz Hmax. pose proof (alloc_order_min _ _ Hr) as Hmin.
  destruct HI as [G R]. unfold alloc. rewrite Hr. simpl.
  destruct (Z.eqb_spec size 0); [done|]. destruct (Z.ltb_spec MAX_ORDER r); [lia|]. simpl.
  destruct (rep_heads _ _ _ R r) as (h0 & Hh0 & Hl0); [lia|].
  rewrite (freelist_get_spec s r h0) by done. simpl.
  destruct (find_block_spec s fl live r (Z.to_nat (MAX_ORDER - r)) r h0 R)
    as (b & i & -> & Hi & Hhi & Hlow & Hnull); try done; try lia.
  simpl. destruct (rep_heads _ _ _ R i) as (h & Hh & Hl); [lia|].
  rewrite Hhi in Hh. injection Hh as <-.
  destruct (Z.eqb_spec b 0) as [->|Hnz].
  - left. split; [|done]. intros k Hk. specialize (Hnull eq_refl). subst i.
    destruct (Z.eq_dec k MAX_ORDER) as [->|]; [|apply Hlow; lia].
    by apply (flist_nil s 0).
  - right. destruct (fl i) as [|b' rest] eqn:Hfl; simpl in Hl; [done|].
    destruct Hl as (<- & _ & Hl).
    destruct (step_pop s fl live i b rest (conj G R)) as (s1 & Hld & Hset & HI1 & Hd1 & Hb1);
      [lia|done|].
    rewrite Hld. simpl. rewrite Hset. simpl.
    destruct (split_loop_spec (Z.to_nat (i - r)) s1 _ live b i r HI1)
      as (s2 & fl2 & -> & HI2 & St2 & Hfl2); [lia..|].
    simpl.
    destruct (step_commit s2 fl2 live b r size HI2) as (s3 & -> & HI3 & St3 & Hb3).
    simpl. exists i, b, rest, s3, fl2.
    split; [done|]. split; [done|]. split; [done|]. split; [done|]. split; [done|].
    split; [done|]. split.
    { eapply stable_trans; [|done]. eapply stable_trans; [|done].
      intros p sz k a _ _. by apply bytes_same. }
    split; [done|].
    intros k. rewrite Hfl2.
    destruct (Z.eqb_spec k i) as [->|Hne].
    + rewrite fupd_same. destruct (Z.ltb_spec i i); [lia|]. by rewrite andb_false_r.
    + rewrite fupd_other by done.
      destruct (Z.leb_spec r k), (Z.ltb_spec k i); simpl; try done.
      rewrite Hlow by lia. done.
Qed.

(** ** What [free] does *)

Lemma walk_spec s buddy : forall l n ptr h,
  deref s ptr = Val h -> flist s h l ->
  (forall a, a ∈ l -> base <= a /\ a + ptr_size <= base + 2 ^ MAX_ORDER) ->
  (length l <= n)%nat ->
  (buddy ∉ l -> exists ptr', walk n s ptr buddy = Val ptr' /\ deref s ptr' = Val 0) /\
  (forall l1 l2, l = l1 ++ buddy :: l2 -> buddy ∉ l1 ->
     walk n s ptr buddy = Val (last_slot ptr l1) /\
     deref s (last_slot ptr l1) = Val buddy).
Proof.
  induction l as [|a l IH]; intros n ptr h Hd Hl Hin Hn.
  - simpl in Hl. subst h. split.
    + intros _. exists ptr. split; [|done]. destruct n; simpl; rewrite Hd; done.
    + intros [|x l1] l2 E; discriminate.
  - simpl in Hl. destruct Hl as (-> & Hnz & Hl).
    destruct (Hin a) as [Ha1 Ha2]; [apply elem_of_cons; auto|].
    assert (walk n s ptr buddy =
            if negb (a =? buddy) then
              match n with O => Err OutOfFuel | S n' => walk n' s (Link a) buddy end
            else Val ptr) as Hw.
    { destruct n; simpl; rewrite Hd; simpl; destruct (Z.eqb_spec a 0); done. }
    rewrite Hw. destruct (Z.eqb_spec a buddy) as [->|Hne]; simpl.
    + split.
      * intros Hb. exfalso. apply Hb. apply elem_of_cons. auto.
      * intros [|x l1] l2 E Hb; [done|].
        injection E as <- _. exfalso. apply Hb. apply elem_of_cons. auto.
    + destruct n as [|n]; [simpl in Hn; lia|].
      destruct (IH n (Link a) (ptr_at s a)) as [IH1 IH2]; try done.
      { simpl. apply load_ptr_spec; done. }
      { intros x Hx. apply Hin. apply elem_of_cons. auto. }
      { simpl in Hn. lia. }
      split.
      * intros Hb. apply IH1. intros Hb'. apply Hb. apply elem_of_cons. auto.
      * intros [|x l1] l2 E Hb; [injection E as ->; done|].
        injection E as <- ->.
        destruct (IH2 l1 l2 eq_refl) as [E1 E2].
        { intros Hb'. apply Hb. apply elem_of_cons. auto. }
        assert (last_slot ptr (a :: l1) = last_slot (Link a) l1) as ->; [|done].
        unfold last_slot. destruct l1 as [|z l1]; [done|].
        rewrite (last_cons a). destruct (last (z :: l1)) eqn:El; [done|].
        rewrite last_cons in El. destruct (last l1); done.
Qed.

Lemma flist_unlink s s' c : forall l1 h a l2,
  flist s h (l1 ++ a :: c :: l2) -> ptr_at s' a = ptr_at s c ->
  (forall x, x ∈ l1 ++ l2 -> ptr_at s' x = ptr_at s x) ->
  flist s' h (l1 ++ a :: l2).
Proof.
  induction l1 as [|y l1 IH]; intros h a l2 Hl Ha Hx; simpl in *.
  - destruct Hl as (-> & Hnz & _ & _ & Hl). split; [done|]. split; [done|].
    rewrite Ha. eapply flist_ext; [|done]. intros x Hin. by apply Hx.
  - destruct Hl as (-> & Hnz & Hl). split; [done|]. split; [done|].
    rewrite Hx by (apply elem_of_cons; auto). apply IH; [done..|].
    intros x Hin. apply Hx. apply elem_of_cons. auto.
Qed.

Lemma flist_suffix s : forall l1 h c l2,
  flist s h (l1 ++ c :: l2) -> flist s (ptr_at s c) l2.
Proof.
  induction l1 as [|y l1 IH]; intros h c l2 Hl; simpl in *.
  - by destruct Hl as (_ & _ & Hl).
  - destruct Hl as (_ & _ & Hl). by eapply IH.
Qed.

Lemma geo_length fl live limbo k :
  Geo fl live limbo -> MIN_ORDER <= k <= MAX_ORDER ->
  Z.of_nat (length (fl k)) <= 2 ^ (MAX_ORDER - MIN_ORDER).
Proof.
  intros G Hk. pose proof min_order_spec as Hmin.
  pose proof (geo_sum _ _ _ G) as Hs. pose proof (free_bytes_term fl k Hk) as Ht.
  pose proof (live_bytes_nonneg live).
  assert (0 <= limbo_bytes limbo).
  { destruct limbo as [[? j]|]; simpl; [apply Z.pow_nonneg|]; lia. }
  assert (2 ^ MIN_ORDER <= 2 ^ k) by (apply pow2_le; lia).
  assert (2 ^ MAX_ORDER = 2 ^ MIN_ORDER * 2 ^ (MAX_ORDER - MIN_ORDER)) as E.
  { rewrite <- Z.pow_add_r by lia. f_equal. lia. }
  pose proof (pow2_pos MIN_ORDER ltac:(lia)).
  pose proof (pow2_pos (MAX_ORDER - MIN_ORDER) ltac:(lia)).
  nia.
Qed.

(** Line 154: the buddy [c] leaves list [k] through the slot found by the walk. *)
Lemma rep_unlink s fl live limbo k l1 c l2 :
  Geo fl live limbo -> Rep s fl live -> MIN_ORDER <= k <= MAX_ORDER ->
  fl k = l1 ++ c :: l2 ->
  exists s1, load_ptr s c = Val (ptr_at s c) /\
    assign s (last_slot (Head (k - MIN_ORDER)) l1) (ptr_at s c) = Val s1 /\
    Rep s1 (fupd fl k (l1 ++ l2)) live /\ stable live s s1.
Proof.
  intros G R Hk Hfl.
  assert (forall x, x ∈ fl k -> Blk fl live limbo Free x k) as Hfree by done.
  assert (Blk fl live limbo Free c k) as Hc.
  { apply Hfree. rewrite Hfl. apply elem_of_app. right. apply elem_of_cons. auto. }
  pose proof (block_room _ _ (geo_wf _ _ _ G _ _ _ Hc)) as Hcr.
  destruct (rep_heads _ _ _ R k Hk) as (h & Hh & Hl). rewrite Hfl in Hl.
  pose proof (flist_suffix _ _ _ _ _ Hl) as Hl2.
  assert (0 <= ptr_at s c < 2 ^ (8 * ptr_size)) as Hnext.
  { destruct l2 as [|y l2]; simpl in Hl2.
    - rewrite Hl2. split; [done|]. apply pow2_pos. lia.
    - destruct Hl2 as (-> & _).
      assert (Blk fl live limbo Free y k) as Hy.
      { apply Hfree. rewrite Hfl. apply elem_of_app. right.
        apply elem_of_cons. right. apply elem_of_cons. auto. }
      apply (geo_wf _ _ _ G), block_room in Hy. lia. }
  pose proof (geo_nodup _ _ _ G k) as Hnd. rewrite Hfl in Hnd.
  destruct l1 as [|a l1 _] using rev_ind.
  - (* the buddy is the head of the list *)
    destruct (freelist_set_spec s k (ptr_at s c) (rep_len _ _ _ R) Hk)
      as (s1 & Hs1 & Hlen & Hhd & Hoth & Hd & Hm).
    exists s1. split; [apply load_ptr_spec; lia|]. split; [done|]. split; [split|].
    + done.
    + intros j Hj. destruct (Z.eq_dec j k) as [->|Hne].
      * exists (ptr_at s c). split; [done|]. rewrite fupd_same. by apply (flist_same s).
      * destruct (rep_heads _ _ _ R j Hj) as (h' & Hh' & Hl'). exists h'.
        rewrite Hoth by lia. split; [done|]. rewrite fupd_other by done.
        by apply (flist_same s).
    + intros p sz j Hin. rewrite <- (rep_order _ _ _ R p sz j Hin). by apply bytes_same.
    + intros p sz j x _ _. by apply bytes_same.
  - (* the buddy follows block [a] *)
    unfold last_slot. rewrite last_snoc. simpl.
    assert (Blk fl live limbo Free a k) as Ha.
    { apply Hfree. rewrite Hfl. apply elem_of_app. left. apply elem_of_app. right.
      apply elem_of_cons. auto. }
    pose proof (block_room _ _ (geo_wf _ _ _ G _ _ _ Ha)) as Har.
    destruct (store_ptr_spec s a (ptr_at s c)) as (s1 & Hs1 & Hfl1 & Hp1 & Hb1); [lia..|].
    exists s1. split; [apply load_ptr_spec; lia|]. split; [done|].
    assert (forall t x j y, Blk fl live limbo t x j -> ~ (t = Free /\ x = a /\ j = k) ->
              x - 1 <= y < x + 2 ^ j - 1 -> bytes s1 y = bytes s y) as F.
    { intros t x j y Hx Hne Hy. apply Hb1.
      destruct (Z.lt_ge_cases y a); [by left|].
      destruct (Z.lt_ge_cases y (a + ptr_size)); [|by right].
      exfalso. eapply (geo_frame _ _ _ _ _ _ _ _ _ y G Ha Hx); [done|lia|done]. }
    assert (forall x j, Blk fl live limbo Free x j -> ~ (x = a /\ j = k) ->
              ptr_at s1 x = ptr_at s x) as FP.
    { intros x j Hx Hne. eapply free_ptr_frame; [done..|].
      intros y Hy. eapply (F Free); [done| |done]. intros (_ & ? & ?). by apply Hne. }
    rewrite <- app_assoc in Hnd, Hl. simpl in Hnd, Hl.
    apply NoDup_app in Hnd as (Hnd1 & Hnd12 & Hnd2).
    apply NoDup_cons in Hnd2 as [Hnd2a Hnd2].
    apply NoDup_cons in Hnd2 as [Hnd2c Hnd2].
    split; [split|].
    + rewrite Hfl1. apply (rep_len _ _ _ R).
    + intros j Hj. destruct (Z.eq_dec j k) as [->|Hne].
      * exists h. split; [unfold head_of in *; by rewrite Hfl1|]. rewrite fupd_same.
        rewrite <- app_assoc. simpl. eapply flist_unlink; [done|done|].
        intros x Hx. apply (FP x k).
        -- apply Hfree. rewrite Hfl. rewrite <- app_assoc. simpl.
           apply elem_of_app in Hx as [Hx|Hx]; apply elem_of_app; [by left|right].
           apply elem_of_cons. right. apply elem_of_cons. auto.
        -- intros [-> _]. apply elem_of_app in Hx as [Hx|Hx].
           ++ apply (Hnd12 _ Hx). apply elem_of_cons. auto.
           ++ apply Hnd2a. apply elem_of_cons. auto.
      * destruct (rep_heads _ _ _ R j Hj) as (h' & Hh' & Hl'). exists h'.
        split; [unfold head_of in *; by rewrite Hfl1|]. rewrite fupd_other by done.
        eapply flist_ext; [|done]. intros x Hx. apply (FP x j); [done|].
        intros [_ ?]. done.
    + intros p sz j Hin. rewrite <- (rep_order _ _ _ R p sz j Hin).
      assert (Blk fl live limbo Live p j) as Hp by (by exists sz).
      pose proof (wfb_pos _ _ (geo_wf _ _ _ G _ _ _ Hp)).
      eapply (F Live); [done| |lia]. intros (? & _). done.
    + intros p sz j x Hin Hx. eapply (F Live); [by exists sz| |done].
      intros (? & _). done.
Qed.

Lemma rep_subset s fl live live' :
  Rep s fl live -> (forall x, x ∈ live' -> x ∈ live) -> Rep s fl live'.
Proof.
  intros R Hsub. split; [apply (rep_len _ _ _ R)|apply (rep_heads _ _ _ R)|].
  intros p sz k Hin. apply (rep_order _ _ _ R p sz k). by apply Hsub.
Qed.

(** One pass through the body of the loop of [free] with a block in limbo:
    either the block goes to its list and the loop is left, or the buddy is
    unlinked and the loop goes on one order up. *)
Lemma free_pass steps s fl live b k :
  2 ^ (MAX_ORDER - MIN_ORDER) <= Z.of_nat steps ->
  Inv s fl live (Some (b, k)) ->
  (exists s2,
     (forall it, free_loop (S it) steps s b k = Val (b, k, s2)) /\
     Inv s2 (fupd fl k (b :: fl k)) live None /\ stable live s s2) \/
  (exists s1 fl1,
     k + 1 <= MAX_ORDER /\
     (forall it, free_loop (S it) steps s b k
                 = free_loop it steps s1 (Z.min b (buddy_addr b k)) (k + 1)) /\
     Inv s1 fl1 live (Some (Z.min b (buddy_addr b k), k + 1)) /\ stable live s s1).
Proof.
  intros Hsteps [G R].
  assert (Blk fl live (Some (b, k)) Limbo b k) as Hl by done.
  pose proof (geo_wf _ _ _ G _ _ _ Hl) as Hw. pose proof (block_room _ _ Hw) as Hr.
  assert (MIN_ORDER <= k <= MAX_ORDER) as Hk by (by destruct Hw).
  destruct (rep_heads _ _ _ R k Hk) as (h & Hh & Hlk).
  destruct (walk_spec s (buddy_addr b k) (fl k) steps (Head (k - MIN_ORDER)) h)
    as [W0 W1]; try done.
  { simpl. by apply freelist_get_spec; [lia|]. }
  { intros a Ha. assert (Blk fl live (Some (b, k)) Free a k) as Hb by done.
    apply (geo_wf _ _ _ G), block_room in Hb. lia. }
  { pose proof (geo_length _ _ _ k G Hk). lia. }
  destruct (decide (buddy_addr b k ∈ fl k)) as [Hin|Hnin].
  - (* the buddy is free: unlink it and go up one order *)
    right. destruct (list_elem_of_split_l _ _ Hin) as (l1 & l2 & Hfl & Hnl1).
    destruct (W1 l1 l2 Hfl Hnl1) as [Hwalk Hd].
    assert (Blk fl live (Some (b, k)) Free (buddy_addr b k) k) as Hbd by done.
    pose proof (block_room _ _ (geo_wf _ _ _ G _ _ _ Hbd)) as Hbr.
    destruct (rep_unlink s fl live _ k l1 _ l2 G R Hk Hfl) as (s1 & Hld & Ha & R1 & St1).
    destruct (geo_merge fl live b k l1 l2 G Hfl) as [Hk1 G1].
    exists s1, (fupd fl k (l1 ++ l2)). split; [done|]. split; [|done].
    intros it. simpl. rewrite buddy_of_spec by lia. simpl.
    rewrite Hwalk. simpl. rewrite Hd. simpl.
    destruct (Z.eqb_spec (buddy_addr b k) 0); [lia|].
    rewrite Hld. simpl. rewrite Ha. simpl. by rewrite Z.mod_small by lia.
  - (* the buddy is not free: the block goes to list [k] *)
    left. destruct (W0 Hnin) as (ptr' & Hwalk & Hd).
    destruct (step_push s fl live b k (conj G R) Hnin)
      as (h' & s1 & s2 & Hg & Hs1 & Hs2 & HI2 & St).
    exists s2. split; [|done].
    intros it. simpl. rewrite buddy_of_spec by lia. simpl.
    rewrite Hwalk. simpl. rewrite Hd. simpl. rewrite Hg. simpl.
    rewrite Hs1. simpl. by rewrite Hs2.
Qed.

(** The loop of [free], started with a block in limbo of order [k], ends
    with the merged block of some order [k'] on its free list; its body is
    entered exactly [k' - k + 1] times, of which [k' - k] passes merge. *)
Lemma free_loop_spec steps :
  2 ^ (MAX_ORDER - MIN_ORDER) <= Z.of_nat steps ->
  forall n s fl live b k,
  Inv s fl live (Some (b, k)) -> MAX_ORDER - k < Z.of_nat n ->
  exists b' k' s' fl' tl, k <= k' <= MAX_ORDER /\
    (forall iters, (Z.to_nat (k' - k) < iters)%nat ->
       free_loop iters steps s b k = Val (b', k', s')) /\
    (forall iters, (iters <= Z.to_nat (k' - k))%nat ->
       free_loop iters steps s b k = Err OutOfFuel) /\
    Inv s' fl' live None /\ stable live s s' /\ fl' k' = b' :: tl.
Proof.
  intros Hsteps. induction n as [|n IH]; intros s fl live b k HI Hn.
  { assert (Blk fl live (Some (b, k)) Limbo b k) as Hl by done.
    apply (geo_wf _ _ _ (proj1 HI)) in Hl as (? & _). lia. }
  assert (Blk fl live (Some (b, k)) Limbo b k) as Hl by done.
  apply (geo_wf _ _ _ (proj1 HI)) in Hl as (Hk & _).
  destruct (free_pass steps s fl live b k Hsteps HI)
    as [(s2 & Hpass & HI2 & St)|(s1 & fl1 & Hk1 & Hpass & HI1 & St1)].
  - exists b, k, s2, (fupd fl k (b :: fl k)), (fl k). split; [lia|].
    rewrite Z.sub_diag. simpl. split; [|split].
    + intros [|it] Hit; [lia|]. apply Hpass.
    + intros [|it] Hit; [done|lia].
    + split; [done|]. split; [done|]. by rewrite fupd_same.
  - destruct (IH s1 fl1 live _ (k + 1) HI1)
      as (b' & k' & s' & fl' & tl & Hk' & Hval & Herr & HI' & St' & Hfl'); [lia|].
    exists b', k', s', fl', tl. split; [lia|]. split; [|split].
    + intros [|it] Hit; [lia|]. rewrite Hpass. apply Hval. lia.
    + intros [|it] Hit; [done|]. rewrite Hpass. apply Herr. lia.
    + split; [done|]. split; [by eapply stable_trans|done].
Qed.

Lemma free_spec s fl live p sz k fuel :
  Inv s fl live None -> (p, sz, k) ∈ live ->
  2 ^ (MAX_ORDER - MIN_ORDER) <= Z.of_nat fuel ->
  exists s' fl', free fuel p s = Val s' /\
    Inv s' fl' (filter (fun x => x.1.1 <> p) live) None /\
    stable (filter (fun x => x.1.1 <> p) live) s s'.
Proof.
  intros [G R] Hin Hfuel.
  assert (Blk fl live None Live p k) as Hl by (by exists sz).
  pose proof (geo_wf _ _ _ G _ _ _ Hl) as Hw. pose proof (block_room _ _ Hw) as Hr.
  assert (MIN_ORDER <= k <= MAX_ORDER) as Hk by (by destruct Hw).
  unfold free. destruct (Z.eqb_spec p 0); [lia|].
  rewrite load_byte_spec by lia. rewrite (rep_order _ _ _ R p sz k Hin). simpl.
  pose proof (geo_release fl live p sz k G Hin) as G'.
  assert (Rep s fl (filter (fun x => x.1.1 <> p) live)) as R'.
  { apply (rep_subset s fl live); [done|]. intros x Hx.
    by apply list_elem_of_filter in Hx as [_ ?]. }
  pose proof (Z.pow_gt_lin_r 2 (MAX_ORDER - MIN_ORDER) ltac:(lia) ltac:(lia)).
  destruct (free_loop_spec fuel Hfuel fuel s fl _ p k (conj G' R'))
    as (b' & k' & s' & fl' & tl & Hk' & Hval & _ & HI' & St' & _); [lia|].
  rewrite Hval by lia. simpl. exists s', fl'. done.
Qed.

(** More fuel does not change a result. *)
Lemma walk_mono s buddy : forall n n' ptr r,
  (n <= n')%nat -> walk n s ptr buddy = Val r -> walk n' s ptr buddy = Val r.
Proof.
  induction n as [|n IH]; intros n' ptr r Hn H.
  - destruct n'; simpl in *; destruct (deref s ptr) as [v|]; simpl in *; try done;
      destruct (negb (v =? 0) && negb (v =? buddy)); done.
  - destruct n' as [|n']; [lia|]. simpl in *.
    destruct (deref s ptr) as [v|]; simpl in *; [|done].
    destruct (negb (v =? 0) && negb (v =? buddy)); [|done].
    apply IH; [lia|done].
Qed.

Lemma free_loop_mono steps steps' : (steps <= steps')%nat ->
  forall iters iters' s b k r, (iters <= iters')%nat ->
  free_loop iters steps s b k = Val r -> free_loop iters' steps' s b k = Val r.
Proof.
  intros Hst. induction iters as [|iters IH]; intros iters' s b k r Hit H; [done|].
  destruct iters' as [|iters']; [lia|]. simpl in *.
  destruct (buddy_of b k) as [bd|]; simpl in *; [|done].
  destruct (walk steps s (Head (k - MIN_ORDER)) bd) as [ptr|] eqn:W; simpl in *; [|done].
  rewrite (walk_mono _ _ _ _ _ _ Hst W). simpl.
  destruct (deref s ptr) as [v|]; simpl in *; [|done].
  destruct (v =? 0); [done|].
  destruct (load_ptr s v) as [nx|]; simpl in *; [|done].
  destruct (assign s ptr nx) as [s1|]; simpl in *; [|done].
  apply IH; [lia|done].
Qed.

Lemma free_mono fuel fuel' p s s' :
  (fuel <= fuel')%nat -> free fuel p s = Val s' -> free fuel' p s = Val s'.
Proof.
  intros Hf. unfold free. destruct (p =? 0); [done|].
  destruct (load_byte s (p - 1)) as [k|]; simpl; [|done].
  destruct (free_loop fuel fuel s p k) as [[[b' k'] s1]|] eqn:E; simpl; [|done].
  intros [= <-]. by rewrite (free_loop_mono _ _ Hf _ _ _ _ _ _ Hf E).
Qed.

(** ** The invariant holds in every reachable state *)

Lemma le_load_zero n i : le_load n (fun _ => 0) i = 0.
Proof. revert i. induction n as [|n IH]; intros i; simpl; [done|]. rewrite IH. lia. Qed.

Lemma fsum_nil n k : fsum (fun _ => []) n k = 0.
Proof. revert k. induction n as [|n IH]; intros k; simpl; [done|]. rewrite IH. lia. Qed.

Lemma top_block a : wfb a MAX_ORDER -> a = base.
Proof. intros (_ & ? & ? & _). lia. Qed.

Lemma buddy_addr_top : buddy_addr base MAX_ORDER = base + 2 ^ MAX_ORDER.
Proof. unfold buddy_addr. rewrite Z.sub_diag, Z.lxor_0_l. done. Qed.

Lemma inv_init : Inv init fl_init [] None.
Proof.
  pose proof min_order_spec as Hmin. pose proof max_power_range as Hmax.
  assert (MIN_ORDER <= MAX_ORDER) as Hmm by (unfold MAX_ORDER; lia).
  assert (wfb base MAX_ORDER) as Hw.
  { split; [lia|]. split; [lia|]. split; [lia|]. rewrite Z.sub_diag. apply Z.divide_0_r. }
  assert (forall t a k, Blk fl_init [] None t a k -> t = Free /\ a = base /\ k = MAX_ORDER) as B.
  { intros [] a k H; simpl in H.
    - destruct H as [_ H]. unfold fl_init in H. destruct (Z.eqb_spec k MAX_ORDER) as [Ek|].
      + apply elem_of_cons in H as [->|H]; [done|]. by apply elem_of_nil in H.
      + by apply elem_of_nil in H.
    - destruct H as [sz H]. by apply elem_of_nil in H.
    - done. }
  assert (Blk fl_init [] None Free base MAX_ORDER) as B0.
  { split; [lia|]. unfold fl_init. rewrite Z.eqb_refl. apply elem_of_cons. auto. }
  split; [split|split].
  - intros k. unfold fl_init. destruct (k =? MAX_ORDER); [|apply NoDup_nil; done].
    apply NoDup_cons. split; [apply not_elem_of_nil|apply NoDup_nil; done].
  - apply NoDup_nil. done.
  - intros t a k H. destruct (B _ _ _ H) as (_ & Ea & Ek). by subst a k.
  - intros t1 a1 k1 t2 a2 k2 H1 H2. left.
    destruct (B _ _ _ H1) as (E1 & E2 & E3). destruct (B _ _ _ H2) as (E4 & E5 & E6).
    by subst.
  - intros x Hx. exists Free, base, MAX_ORDER. done.
  - change fl_init with (fupd (fun _ => []) MAX_ORDER [base]).
    rewrite free_bytes_fupd by lia. unfold free_bytes. rewrite fsum_nil. simpl. lia.
  - intros a k H1 H2. destruct (B _ _ _ H1) as (_ & Ea & Ek). subst a k.
    destruct (B _ _ _ H2) as (_ & E & _). rewrite buddy_addr_top in E.
    pose proof (pow2_pos MAX_ORDER ltac:(lia)). lia.
  - unfold init. simpl. rewrite length_insert, length_replicate. unfold nlists. lia.
  - intros k Hk. unfold head_of, init, fl_init. simpl.
    destruct (Z.eqb_spec k MAX_ORDER) as [Ek|Hne].
    + subst k. exists base. split.
      * apply list_lookup_insert_eq. rewrite length_replicate. unfold nlists. lia.
      * simpl. split; [done|]. split; [lia|]. unfold ptr_at. simpl. apply le_load_zero.
    + exists 0. split; [|done]. rewrite list_lookup_insert_ne by lia.
      apply lookup_replicate. split; [done|]. unfold nlists. lia.
  - intros p sz k H. by apply elem_of_nil in H.
Qed.

(** A client writes into an allocation it holds. *)
Lemma step_write s fl live p sz k a v :
  Inv s fl live None -> (p, sz, k) ∈ live -> p <= a < p + 2 ^ k - 1 ->
  exists s', store_byte s a v = Val s' /\ Inv s' fl live None /\
    forall x, x <> a -> bytes s' x = bytes s x.
Proof.
  intros [G R] Hin Ha.
  assert (Blk fl live None Live p k) as Hl by (by exists sz).
  pose proof (block_room _ _ (geo_wf _ _ _ G _ _ _ Hl)) as Hr.
  destruct (store_byte_spec s a v) as (s' & Hs' & Hfl & Hb & Hoth); [lia|].
  exists s'. split; [done|]. split; [|done]. split; [done|].
  assert (forall t x j y, Blk fl live None t x j -> ~ (t = Live /\ x = p /\ j = k) ->
            x - 1 <= y < x + 2 ^ j - 1 -> bytes s' y = bytes s y) as F.
  { intros t x j y Hx Hne Hy. apply Hoth. intros ->.
    eapply (geo_frame _ _ _ _ _ _ _ _ _ a G Hl Hx); [done|lia|done]. }
  split.
  - rewrite Hfl. apply (rep_len _ _ _ R).
  - intros j Hj. destruct (rep_heads _ _ _ R j Hj) as (h & Hh & Hlj). exists h.
    split; [unfold head_of in *; by rewrite Hfl|].
    eapply flist_ext; [|done]. intros x Hx.
    assert (Blk fl live None Free x j) as Hb' by done.
    eapply free_ptr_frame; [done..|]. intros y Hy. eapply (F Free); [done| |done].
    intros (? & _). done.
  - intros q sz' j Hq. rewrite <- (rep_order _ _ _ R q sz' j Hq).
    destruct (Z.eq_dec q p) as [->|Hne].
    + apply Hoth. lia.
    + assert (Blk fl live None Live q j) as Hb' by (by exists sz').
      pose proof (wfb_pos _ _ (geo_wf _ _ _ G _ _ _ Hb')).
      eapply (F Live); [done| |lia]. intros (_ & ? & _). done.
Qed.

Lemma alloc_cases s fl live size p s' :
  Inv s fl live None -> alloc size s = Val (p, s') ->
  (p = 0 /\ s' = s) \/
  (p <> 0 /\ exists r i rest fl', alloc_order size = Val r /\ size <> 0 /\
     MIN_ORDER <= r <= i /\ i <= MAX_ORDER /\ fl i = p :: rest /\
     (forall j, r <= j < i -> fl j = []) /\
     Inv s' fl' ((p, size, r) :: live) None /\ stable live s s' /\
     bytes s' (p - 1) = r /\
     forall k, fl' k = if k =? i then rest
                       else if (r <=? k) && (k <? i) then [p + 2 ^ k] else fl k).
Proof.
  intros HI Ha. destruct (alloc_order size) as [r|] eqn:Hr.
  2:{ unfold alloc in Ha. rewrite Hr in Ha. done. }
  pose proof (alloc_order_min _ _ Hr) as Hmin.
  destruct (Z.eq_dec size 0) as [Hz|Hnz].
  { rewrite (alloc_null_spec s size r Hr) in Ha by auto. injection Ha as <- <-. by left. }
  destruct (Z.lt_ge_cases MAX_ORDER r) as [Hlt|Hge].
  { rewrite (alloc_null_spec s size r Hr) in Ha by auto. injection Ha as <- <-. by left. }
  destruct (alloc_spec s fl live size r HI Hr Hnz Hge)
    as [[_ E]|(i & b & rest & s1 & fl' & Hi & Hfl & Hlow & E & Hb & HI' & St & Hby & Hfl')].
  - rewrite E in Ha. injection Ha as <- <-. by left.
  - rewrite E in Ha. injection Ha as <- <-. right. split; [done|].
    exists r, i, rest, fl'. split; [done|]. split; [done|]. split; [lia|].
    split; [lia|]. done.
Qed.

Lemma free_cases s fl live p sz k fuel s' :
  Inv s fl live None -> (p, sz, k) ∈ live -> free fuel p s = Val s' ->
  exists fl', Inv s' fl' (filter (fun x => x.1.1 <> p) live) None /\
    stable (filter (fun x => x.1.1 <> p) live) s s'.
Proof.
  intros HI Hin Hf.
  set (big := Nat.max fuel (Z.to_nat (2 ^ (MAX_ORDER - MIN_ORDER)))).
  assert (2 ^ (MAX_ORDER - MIN_ORDER) <= Z.of_nat big) as Hbig by lia.
  destruct (free_spec s fl live p sz k big HI Hin Hbig) as (s'' & fl' & E & HI' & St).
  rewrite (free_mono fuel big p s s') in E by (done || lia).
  injection E as <-. by exists fl'.
Qed.

Lemma free_null fuel s : free fuel 0 s = Val s.
Proof. done. Qed.

Theorem reachable_inv s live : reachable s live -> exists fl, Inv s fl live None.
Proof.
  induction 1 as [|s live size p s' _ [fl HI] Ha Hp|s live size s' _ [fl HI] Ha
                  |s live fuel p sz k s' _ [fl HI] Hin Hf|s live fuel s' _ [fl HI] Hf
                  |s live p sz k a v s' _ [fl HI] Hin Ha Hk Hv Hs].
  - exists fl_init. apply inv_init.
  - destruct (alloc_cases _ _ _ _ _ _ HI Ha) as [[? _]|(_ & r & i & rest & fl' & H)]; [done|].
    destruct H as (_ & _ & _ & _ & _ & _ & HI' & _ & -> & _). by exists fl'.
  - destruct (alloc_cases _ _ _ _ _ _ HI Ha) as [[_ ->]|[? _]]; [|done]. by exists fl.
  - destruct (free_cases _ _ _ _ _ _ _ _ HI Hin Hf) as (fl' & HI' & _). by exists fl'.
  - rewrite free_null in Hf. injection Hf as <-. by exists fl.
  - destruct (step_write s fl live p sz k a v HI Hin) as (s'' & E & HI' & _); [lia|].
    rewrite E in Hs. injection Hs as <-. by exists fl.
Qed.

(** ** With nothing outstanding the buffer is one free block *)

Lemma enclosing_block a k :
  MIN_ORDER <= k < MAX_ORDER -> wfb a k ->
  exists m, wfb m (k + 1) /\
    ((a = m /\ buddy_addr a k = m + 2 ^ k) \/ (buddy_addr a k = m /\ a = m + 2 ^ k)).
Proof.
  intros Hk (_ & Ha & Hb & Hd). pose proof min_order_spec as Hmin.
  pose proof (pow2_succ k ltac:(lia)) as Hp. pose proof (pow2_pos k ltac:(lia)) as Hpp.
  assert (exists m h, m - base = h * 2 ^ (k + 1) /\
            ((a = m /\ buddy_addr a k = m + 2 ^ k) \/ (buddy_addr a k = m /\ a = m + 2 ^ k)))
    as (m & h & Hm & Hc).
  { destruct (buddy_cases (a - base) k ltac:(lia) Hd) as [(h & Hh & Hx)|(h & Hh & Hx)].
    - exists a, h. split; [done|]. left. unfold buddy_addr. rewrite Hx. lia.
    - exists (a - 2 ^ k), h. split; [lia|]. right. unfold buddy_addr. rewrite Hx. lia. }
  exists m. split; [|done].
  assert ((2 ^ (k + 1) | m - base)) as Hdm by (by exists h).
  assert (0 <= m - base) as Hm0.
  { destruct Hc as [[-> _]|[_ ->]]; [lia|]. rewrite Hp in Hm.
    destruct (Z.lt_ge_cases h 0) as [Hneg|Hpos]; [|nia].
    assert (h * 2 ^ k <= - 2 ^ k) by nia. lia. }
  destruct (dyadic_nested (m - base) (k + 1) 0 MAX_ORDER) as [_ Hn]; try done; try lia.
  { apply Z.divide_0_r. }
  split; [lia|]. split; [lia|]. split; [lia|done].
Qed.

Lemma geo_idle_low fl :
  Geo fl [] None -> forall k, MIN_ORDER <= k -> k < MAX_ORDER -> fl k = [].
Proof.
  intros G. pose proof min_order_spec as Hmin.
  apply (Zlt_lower_bound_ind (fun k => k < MAX_ORDER -> fl k = [])).
  intros k IH Hk Hlt. destruct (fl k) as [|a l] eqn:Hfl; [done|]. exfalso.
  assert (Blk fl [] None Free a k) as Ha.
  { split; [lia|]. rewrite Hfl. apply elem_of_cons. auto. }
  pose proof (geo_wf _ _ _ G _ _ _ Ha) as Hw.
  destruct (enclosing_block a k ltac:(lia) Hw) as (m & Hwm & Hc).
  pose proof (pow2_succ k ltac:(lia)) as Hp. pose proof (wfb_pos _ _ Hw) as [_ Hpp].
  remember (buddy_addr a k) as a' eqn:Ea'.
  destruct (geo_cover _ _ _ G a') as (t & c & j & Hb & Hr).
  { destruct Hwm as (_ & ? & ? & _). lia. }
  destruct t; simpl in Hb.
  2:{ destruct Hb as [sz Hb]. by apply elem_of_nil in Hb. }
  2:{ done. }
  pose proof (geo_wf _ _ _ G Free c j Hb) as Hwc. pose proof (wfb_pos _ _ Hwc) as [_ Hpc].
  destruct Hb as [Hj Hin].
  assert (k <= j) as Hkj.
  { destruct (Z.lt_ge_cases j k) as [Hjk|]; [|done].
    rewrite (IH j) in Hin by lia. by apply elem_of_nil in Hin. }
  destruct (Z.eq_dec j k) as [->|Hne].
  - assert (c = a') as ->.
    { assert ((2 ^ k | a' - base)) as Hd'.
      { destruct Hw as (_ & _ & _ & [q Hq]). destruct Hc as [[E0 E]|[E E']].
        - exists (q + 1). lia.
        - exists (q - 1). lia. }
      destruct Hwc as (_ & _ & _ & Hdc).
      destruct (dyadic_nested (a' - base) k (c - base) k); try done; lia. }
    subst a'. by apply (geo_buddy _ _ _ G a k).
  - destruct Hwm as (_ & _ & _ & Hdm). destruct Hwc as (_ & _ & _ & Hdc).
    destruct (dyadic_nested (m - base) (k + 1) (c - base) j); try done; try lia.
    destruct (geo_disj _ _ _ G Free a k Free c j) as [(_ & _ & ?)|D]; try done.
    unfold disj in D. lia.
Qed.

Lemma geo_idle_top fl : Geo fl [] None -> fl MAX_ORDER = [base].
Proof.
  intros G. pose proof min_order_spec as Hmin. pose proof max_power_range as Hmax.
  assert (MIN_ORDER <= MAX_ORDER) as Hmm by (unfold MAX_ORDER; lia).
  pose proof (pow2_pos MAX_ORDER ltac:(lia)) as Hpp.
  assert (forall a, a ∈ fl MAX_ORDER -> a = base) as Hall.
  { intros a Ha. apply top_block. apply (geo_wf _ _ _ G Free). split; [lia|done]. }
  assert (base ∈ fl MAX_ORDER) as Hin.
  { destruct (geo_cover _ _ _ G base) as (t & c & j & Hb & Hr); [lia|].
    destruct t; simpl in Hb.
    2:{ destruct Hb as [sz Hb]. by apply elem_of_nil in Hb. }
    2:{ done. }
    destruct Hb as [Hj Hc]. destruct (Z.eq_dec j MAX_ORDER) as [Ej|Hne].
    - subst j. by rewrite <- (Hall c Hc).
    - rewrite (geo_idle_low fl G j) in Hc by lia. by apply elem_of_nil in Hc. }
  pose proof (geo_nodup _ _ _ G MAX_ORDER) as Hnd.
  destruct (fl MAX_ORDER) as [|a [|a' l]]; [by apply elem_of_nil in Hin| |].
  - f_equal. apply Hall. apply elem_of_cons. auto.
  - exfalso. apply NoDup_cons in Hnd as [Hnd _]. apply Hnd.
    assert (a = base) as -> by (apply Hall, elem_of_cons; auto).
    assert (a' = base) as ->.
    { apply Hall, elem_of_cons. right. apply elem_of_cons. auto. }
    apply elem_of_cons. auto.
Qed.

(** ** The properties of the specification *)

Lemma alloc_order_spec size :
  0 <= size < 2 ^ 31 ->
  alloc_order size = Val (Z.max MIN_ORDER (Z.log2_up (size + 1))).
Proof.
  intros Hs. unfold alloc_order.
  rewrite Z.mod_small by lia. rewrite log2_spec by lia. done.
Qed.

(** In every state reached from a new allocator in which no allocation is
    outstanding, [alloc((1 << MAX_ORDER) - 1)] succeeds and returns the
    whole buffer. *)
Lemma idle_alloc_whole s :
  reachable s [] ->
  exists s', alloc (2 ^ MAX_ORDER - 1) s = Val (base, s') /\ base <> 0.
Proof.
  intros Hr. destruct (reachable_inv _ _ Hr) as [fl HI].
  pose proof min_order_spec as Hmin. pose proof max_power_range as Hmax.
  assert (MIN_ORDER <= MAX_ORDER <= 31) as Hmm by (unfold MAX_ORDER; lia).
  pose proof (pow2_le MAX_ORDER 31 ltac:(lia)) as Hle.
  pose proof (pow2_le 1 MAX_ORDER ltac:(lia)) as Hge. 
  assert (alloc_order (2 ^ MAX_ORDER - 1) = Val MAX_ORDER) as Ho.
  { rewrite alloc_order_spec by lia.
    replace (2 ^ MAX_ORDER - 1 + 1) with (2 ^ MAX_ORDER) by lia.
    rewrite Z.log2_up_pow2 by lia. f_equal. lia. }
  pose proof (geo_idle_top fl (proj1 HI)) as Htop.
  destruct (alloc_spec s fl [] _ _ HI Ho) as [[Hnil _]|H]; [lia|lia| |].
  - rewrite Hnil in Htop by lia. done.
  - destruct H as (i & b & rest & s' & fl' & Hi & Hfl & _ & E & _).
    assert (i = MAX_ORDER) as Ei by lia. subst i. rewrite Htop in Hfl. injection Hfl as <- <-.
    exists s'. split; [done|]. pose proof base_range. lia.
Qed.

(** C4, as amended.  Containment: a pointer returned by a successful
    [alloc] in a reachable state lies in the buffer; the first block starts
    at [base] itself. *)
Theorem containment s live size p s' :
  reachable s live -> alloc size s = Val (p, s') -> p <> 0 ->
  base <= p <= base + 2 ^ MAX_POWER - 1.
Proof.
  intros Hr Ha Hp. destruct (reachable_inv _ _ Hr) as [fl HI].
  destruct (alloc_cases _ _ _ _ _ _ HI Ha) as [[? _]|(_ & r & i & rest & fl' & H)]; [done|].
  destruct H as (_ & _ & _ & _ & _ & _ & [G' _] & _).
  assert (Blk fl' ((p, size, r) :: live) None Live p r) as Hl.
  { exists size. apply elem_of_cons. auto. }
  pose proof (geo_wf _ _ _ G' _ _ _ Hl) as Hw. pose proof (wfb_pos _ _ Hw).
  destruct Hw as (_ & ? & ? & _). unfold MAX_ORDER in *. lia.
Qed.

(** C6.  Alignment: the byte in front of a returned pointer is the order
    of its block, that is the order line 81 computes for the request
    ([max(MIN_ORDER, ceil_log2(size + 1))] for the sizes below [1U << 31]),
    between [MIN_ORDER] and [MAX_ORDER]; the offset of the pointer from
    [base] is a multiple of the block size [1 << order], and the block of
    that size lies inside the buffer. *)
Theorem alignment s live size p s' :
  reachable s live -> alloc size s = Val (p, s') -> p <> 0 ->
  alloc_order size = Val (bytes s' (p - 1)) /\
  (0 <= size < 2 ^ 31 -> bytes s' (p - 1) = Z.max MIN_ORDER (Z.log2_up (size + 1))) /\
  MIN_ORDER <= bytes s' (p - 1) <= MAX_ORDER /\
  (2 ^ bytes s' (p - 1) | p - base) /\
  base <= p /\ p + 2 ^ bytes s' (p - 1) <= base + 2 ^ MAX_ORDER.
Proof.
  intros Hr Ha Hp. destruct (reachable_inv _ _ Hr) as [fl HI].
  destruct (alloc_cases _ _ _ _ _ _ HI Ha) as [[? _]|(_ & r & i & rest & fl' & H)]; [done|].
  destruct H as (Ho & _ & Hri & Hi & _ & _ & [G' _] & _ & -> & _).
  assert (Blk fl' ((p, size, r) :: live) None Live p r) as Hl.
  { exists size. apply elem_of_cons. auto. }
  destruct (geo_wf _ _ _ G' _ _ _ Hl) as (Hk & Hlo & Hhi & Hdiv).
  split; [done|]. split; [|done].
  intros Hs. rewrite alloc_order_spec in Ho by done. by injection Ho as <-.
Qed.

(** C7.  In every reachable state no block on a free list has its buddy
    on the list of the same order. *)
Theorem no_free_buddies s live k a :
  reachable s live -> on_freelist s k a -> ~ on_freelist s k (buddy_addr a k).
Proof.
  intros Hr (Hk & h & l & Hh & Hl & Hin) (_ & h' & l' & Hh' & Hl' & Hin').
  destruct (reachable_inv _ _ Hr) as [fl [G R]].
  destruct (rep_heads _ _ _ R k Hk) as (h0 & Hh0 & Hl0).
  rewrite Hh in Hh0, Hh'. injection Hh0 as <-. injection Hh' as <-.
  rewrite (flist_inj _ _ _ _ Hl Hl0) in Hin. rewrite (flist_inj _ _ _ _ Hl' Hl0) in Hin'.
  by apply (geo_buddy _ _ _ G a k).
Qed.

Lemma on_freelist_iff s fl live limbo k a :
  Inv s fl live limbo ->
  on_freelist s k a <-> MIN_ORDER <= k <= MAX_ORDER /\ a ∈ fl k.
Proof.
  intros [G R]. split.
  - intros (Hk & h & l & Hh & Hl & Hin). split; [done|].
    destruct (rep_heads _ _ _ R k Hk) as (h0 & Hh0 & Hl0).
    rewrite Hh in Hh0. injection Hh0 as <-. by rewrite <- (flist_inj _ _ _ _ Hl Hl0).
  - intros [Hk Hin]. split; [done|].
    destruct (rep_heads _ _ _ R k Hk) as (h0 & Hh0 & Hl0). by exists h0, (fl k).
Qed.

(** The order in front of an outstanding pointer is the one [alloc]
    computed from the size asked for. *)
Lemma reachable_orders s live :
  reachable s live ->
  forall q sq kq, (q, sq, kq) ∈ live -> alloc_order sq = Val kq /\ sq <> 0.
Proof.
  induction 1 as [|s live size p s' Hr IH Ha Hp|s live size s' _ IH Ha
                  |s live fuel p sz k s' _ IH Hin Hf|s live fuel s' _ IH Hf
                  |s live p sz k a v s' _ IH Hin Ha Hk Hv Hs]; try done.
  - intros q sq kq H. by apply elem_of_nil in H.
  - intros q sq kq H. apply elem_of_cons in H as [H|H]; [|by apply (IH q sq kq)].
    injection H as -> -> ->. destruct (reachable_inv _ _ Hr) as [fl HI].
    destruct (alloc_cases _ _ _ _ _ _ HI Ha) as [[? _]|(_ & r & i & rest & fl' & H)]; [done|].
    by destruct H as (? & ? & _ & _ & _ & _ & _ & _ & -> & _).
  - intros q sq kq H. apply list_elem_of_filter in H as [_ H]. by apply (IH q sq kq).
Qed.

(** Unless the request was [UINT32_MAX], the block holds the bytes asked
    for and one more. *)
Lemma live_fits s live q sq kq :
  reachable s live -> (q, sq, kq) ∈ live -> 0 <= sq < 2 ^ 32 - 1 -> sq <= 2 ^ kq - 1.
Proof.
  intros Hr Hin Hs. destruct (reachable_orders _ _ Hr _ _ _ Hin) as [Ho Hnz].
  unfold alloc_order in Ho. rewrite Z.mod_small in Ho by lia.
  destruct (Z.le_gt_cases (sq + 1) (2 ^ 31)) as [Hle|Hgt].
  - rewrite log2_spec in Ho by done. simpl in Ho. injection Ho as <-.
    assert (sq + 1 <= 2 ^ Z.log2_up (sq + 1)).
    { apply Z.log2_up_le_pow2; lia. }
    assert (2 ^ Z.log2_up (sq + 1) <= 2 ^ Z.max MIN_ORDER (Z.log2_up (sq + 1))).
    { apply pow2_le. pose proof (Z.log2_up_nonneg (sq + 1)). lia. }
    lia.
  - rewrite log2_undefined in Ho by done. done.
Qed.

(** X20.  The frame property of [alloc] and [free], for blocks that hold what
    was asked for: a call of [alloc], or of [free] on another outstanding
    pointer (or on [nullptr]), leaves the order byte in front of an
    outstanding allocation and the bytes of that allocation as they were,
    provided the allocation takes at most [(1 << k) - 1] bytes of its block
    of order [k].  By [live_fits] this covers every request but
    [UINT32_MAX]. *)
Theorem frame s live q sq kq :
  reachable s live -> (q, sq, kq) ∈ live -> sq <= 2 ^ kq - 1 ->
  bytes s (q - 1) = kq /\
  (forall size p s' a, alloc size s = Val (p, s') ->
     q - 1 <= a < q + sq -> bytes s' a = bytes s a) /\
  (forall fuel p s' a, p <> q -> (p = 0 \/ exists sz k, (p, sz, k) ∈ live) ->
     free fuel p s = Val s' -> q - 1 <= a < q + sq -> bytes s' a = bytes s a).
Proof.
  intros Hr Hin Hfit. destruct (reachable_inv _ _ Hr) as [fl HI].
  split; [apply (rep_order _ _ _ (proj2 HI) q sq kq Hin)|]. split.
  - intros size p s' a Ha Hrange.
    destruct (alloc_cases _ _ _ _ _ _ HI Ha) as [[_ ->]|(_ & r & i & rest & fl' & H)]; [done|].
    destruct H as (_ & _ & _ & _ & _ & _ & _ & St & _).
    apply (St q sq kq a Hin). lia.
  - intros fuel p s' a Hne [->|(sz & k & Hp)] Hf Hrange.
    + rewrite free_null in Hf. by injection Hf as <-.
    + destruct (free_cases _ _ _ _ _ _ _ _ HI Hp Hf) as (fl' & _ & St).
      apply (St q sq kq a); [|lia]. apply list_elem_of_filter. split; [|done].
      simpl. congruence.
Qed.

(** C8.  [free] of an outstanding pointer terminates.  The loop body is
    entered exactly [k' - order + 1] times, where [k' <= MAX_ORDER] is the
    order with which the loop ends: [k' - order], so at most
    [MAX_ORDER - order], passes merge, and the last pass finds no buddy and
    pushes the block.  If [k'] is [MAX_ORDER] the block pushed is the whole
    buffer, the buddy address computed for it lies behind the buffer, where
    no free-list entry is, and it is the only block on the top list.  A
    walk needs no more link steps than there are smallest blocks. *)
Theorem free_terminates s live p sz k steps :
  reachable s live -> (p, sz, k) ∈ live ->
  2 ^ (MAX_ORDER - MIN_ORDER) <= Z.of_nat steps ->
  bytes s (p - 1) = k /\
  exists b' k' s',
    k <= k' <= MAX_ORDER /\
    (forall iters, (Z.to_nat (k' - k) < iters)%nat ->
       free_loop iters steps s p k = Val (b', k', s')) /\
    (forall iters, (iters <= Z.to_nat (k' - k))%nat ->
       free_loop iters steps s p k = Err OutOfFuel) /\
    (forall fuel, (steps <= fuel)%nat -> free fuel p s = Val s') /\
    (forall j a, on_freelist s' j a -> base <= a < base + 2 ^ MAX_ORDER) /\
    (k' = MAX_ORDER ->
       b' = base /\ buddy_addr b' k' = base + 2 ^ MAX_ORDER /\
       forall a, on_freelist s' MAX_ORDER a <-> a = base).
Proof.
  intros Hr Hin Hsteps. destruct (reachable_inv _ _ Hr) as [fl [G R]].
  pose proof min_order_spec as Hmin.
  assert (Blk fl live None Live p k) as Hl by (by exists sz).
  pose proof (geo_wf _ _ _ G _ _ _ Hl) as Hw. pose proof (block_room _ _ Hw) as Hroom.
  assert (MIN_ORDER <= k <= MAX_ORDER) as Hk by (by destruct Hw).
  pose proof (rep_order _ _ _ R p sz k Hin) as Hbyte.
  split; [done|].
  pose proof (geo_release fl live p sz k G Hin) as G'.
  assert (Rep s fl (filter (fun x => x.1.1 <> p) live)) as R'.
  { apply (rep_subset s fl live); [done|]. intros x Hx.
    by apply list_elem_of_filter in Hx as [_ ?]. }
  destruct (free_loop_spec steps Hsteps (Z.to_nat (MAX_ORDER - k) + 1) s fl _ p k (conj G' R'))
    as (b' & k' & s' & fl' & tl & Hk' & Hval & Herr & HI' & _ & Hfl'); [lia|].
  exists b', k', s'. split; [done|]. split; [done|]. split; [done|].
  pose proof (Z.pow_gt_lin_r 2 (MAX_ORDER - MIN_ORDER) ltac:(lia) ltac:(lia)) as Hpow.
  split; [|split].
  - intros fuel Hfuel. unfold free. destruct (Z.eqb_spec p 0); [lia|].
    rewrite load_byte_spec by lia. rewrite Hbyte. simpl.
    assert (Z.to_nat (k' - k) + 1 <= fuel)%nat as Hit by lia.
    assert (Z.to_nat (k' - k) < Z.to_nat (k' - k) + 1)%nat as Hone by lia.
    rewrite (free_loop_mono steps fuel Hfuel _ fuel s p k _ Hit (Hval _ Hone)). done.
  - intros j a Ha. apply (on_freelist_iff _ _ _ _ _ _ HI') in Ha as [Hj Ha].
    assert (Blk fl' (filter (fun x => x.1.1 <> p) live) None Free a j) as Hb by done.
    pose proof (geo_wf _ _ _ (proj1 HI') _ _ _ Hb) as Hwa.
    pose proof (wfb_pos _ _ Hwa). destruct Hwa as (_ & ? & ? & _). lia.
  - intros Ek. subst k'.
    assert (forall a, a ∈ fl' MAX_ORDER -> a = base) as Hall.
    { intros a Ha. apply top_block. apply (geo_wf _ _ _ (proj1 HI') Free). split; [lia|done]. }
    assert (b' = base) as Eb by (apply Hall; rewrite Hfl'; apply elem_of_cons; auto).
    subst b'. split; [done|]. split; [apply buddy_addr_top|].
    intros a. rewrite (on_freelist_iff _ _ _ _ _ _ HI'). split.
    + intros [_ Ha]. by apply Hall.
    + intros ->. split; [lia|]. rewrite Hfl'. apply elem_of_cons. auto.
Qed.

(** ** Filling the buffer with blocks of one size *)

Lemma free_bytes_zero fl :
  (forall k, MIN_ORDER <= k <= MAX_ORDER -> fl k = []) -> free_bytes fl = 0.
Proof.
  intros H. unfold free_bytes. rewrite (fsum_ext (fun _ => []) fl); [apply fsum_nil|].
  intros j Hj. apply H. pose proof max_power_range. unfold nlists, MAX_ORDER in *. lia.
Qed.

Lemma fill_spec size r :
  alloc_order size = Val r -> size <> 0 -> r <= MAX_ORDER ->
  forall fuel s fl live n,
    Inv s fl live None -> (forall j, MIN_ORDER <= j < r -> fl j = []) ->
    free_bytes fl = n * 2 ^ r -> 0 <= n < Z.of_nat fuel ->
    exists s', fill fuel size s = Val (n, s').
Proof.
  intros Ho Hnz Hr. pose proof (alloc_order_min _ _ Ho) as Hrmin.
  pose proof min_order_spec as Hmin. pose proof (pow2_pos r ltac:(lia)) as Hpr.
  induction fuel as [|fuel IH]; intros s fl live n HI Hlow Hfree Hn; [lia|].
  simpl.
  destruct (alloc_spec s fl live size r HI Ho Hnz Hr)
    as [[Hnil E]|(i & b & rest & s1 & fl' & Hi & Hfl & Hlow' & E & Hb & HI' & _ & _ & Hfl')].
  - rewrite E. simpl. exists s. f_equal. f_equal.
    rewrite free_bytes_zero in Hfree; [nia|].
    intros k Hk. destruct (Z.lt_ge_cases k r); [apply Hlow|apply Hnil]; lia.
  - rewrite E. simpl. destruct (Z.eqb_spec b 0); [done|].
    pose proof (geo_sum _ _ _ (proj1 HI)) as Hs. pose proof (geo_sum _ _ _ (proj1 HI')) as Hs'.
    simpl in Hs, Hs'.
    pose proof (free_bytes_term fl i ltac:(lia)) as Ht. rewrite Hfl in Ht. simpl length in Ht.
    pose proof (pow2_pos i ltac:(lia)) as Hpi.
    assert (1 <= n) by nia.
    destruct (IH s1 fl' _ (n - 1) HI') as (s2 & ->); [|nia|lia|].
    + intros j Hj. rewrite Hfl'. destruct (Z.eqb_spec j i); [lia|].
      destruct (Z.leb_spec r j); [lia|]. simpl. apply Hlow. lia.
    + simpl. exists s2. f_equal. f_equal. lia.
Qed.

(** C1, as amended.  Capacity: for a size [0 < size < 1 << MAX_POWER], the
    fill loop on a new allocator obtains exactly
    [1 << (MAX_ORDER - max(MIN_ORDER, ceil_log2(size + 1)))] blocks before
    [alloc] returns [nullptr]. *)
Theorem capacity size fuel :
  0 < size < 2 ^ MAX_POWER ->
  2 ^ (MAX_ORDER - Z.max MIN_ORDER (Z.log2_up (size + 1))) < Z.of_nat fuel ->
  exists s',
    fill fuel size init
    = Val (2 ^ (MAX_ORDER - Z.max MIN_ORDER (Z.log2_up (size + 1))), s').
Proof.
  intros Hs Hfuel. pose proof min_order_spec as Hmin. pose proof max_power_range as Hmax.
  set (r := Z.max MIN_ORDER (Z.log2_up (size + 1))) in *.
  assert (2 ^ MAX_POWER <= 2 ^ 31) by (apply pow2_le; lia).
  assert (Z.log2_up (size + 1) <= MAX_POWER) by (apply Z.log2_up_le_pow2; lia).
  assert (MIN_ORDER <= r <= MAX_ORDER) as Hr by (unfold r, MAX_ORDER; lia).
  apply (fill_spec size r) with (fl := fl_init) (live := []).
  - apply alloc_order_spec. lia.
  - lia.
  - lia.
  - apply inv_init.
  - intros j Hj. unfold fl_init. destruct (Z.eqb_spec j MAX_ORDER); [lia|done].
  - change fl_init with (fupd (fun _ => []) MAX_ORDER [base]).
    rewrite free_bytes_fupd by lia. unfold free_bytes. rewrite fsum_nil. simpl.
    rewrite <- Z.pow_add_r by lia. replace (MAX_ORDER - r + r) with MAX_ORDER by lia. lia.
  - split; [|done]. apply Z.pow_nonneg. lia.
Qed.

(** C9, as amended.  Split policy: on a new allocator with more than one
    smallest block, [alloc(1)] returns the block at offset 0 and the next
    [alloc((1 << MIN_ORDER) - 1)] the block at offset [1 << MIN_ORDER]:
    splitting keeps the lower half and frees the upper one. *)
Theorem split_policy :
  MIN_ORDER < MAX_ORDER ->
  exists s1 s2,
    alloc 1 init = Val (base + 0, s1) /\
    alloc (2 ^ MIN_ORDER - 1) s1 = Val (base + 2 ^ MIN_ORDER, s2).
Proof.
  intros Hlt. pose proof min_order_spec as Hmin. pose proof max_power_range as Hmax.
  assert (MAX_ORDER <= 31) as Hm31 by (unfold MAX_ORDER; lia).
  assert (alloc_order 1 = Val MIN_ORDER) as Ho1.
  { rewrite alloc_order_spec by lia. change (1 + 1) with (2 ^ 1).
    rewrite Z.log2_up_pow2 by lia. f_equal. lia. }
  pose proof (pow2_le 1 MIN_ORDER ltac:(lia)) as Hp1.
  pose proof (pow2_lt MIN_ORDER 31 ltac:(lia)) as Hp2.
  assert (alloc_order (2 ^ MIN_ORDER - 1) = Val MIN_ORDER) as Ho2.
  { rewrite alloc_order_spec by lia.
    replace (2 ^ MIN_ORDER - 1 + 1) with (2 ^ MIN_ORDER) by lia.
    rewrite Z.log2_up_pow2 by lia. f_equal. lia. }
  destruct (alloc_spec init fl_init [] 1 MIN_ORDER inv_init Ho1)
    as [[Hnil _]|(i & b & rest & s1 & fl1 & Hi & Hfl & _ & E1 & _ & HI1 & _ & _ & Hfl1)];
    [lia|lia| |].
  { specialize (Hnil MAX_ORDER ltac:(lia)). unfold fl_init in Hnil.
    by rewrite Z.eqb_refl in Hnil. }
  assert (i = MAX_ORDER /\ b = base) as [-> ->].
  { unfold fl_init in Hfl. destruct (Z.eqb_spec i MAX_ORDER); [|done].
    by injection Hfl as <- _. }
  assert (fl1 MIN_ORDER = [base + 2 ^ MIN_ORDER]) as Hmin1.
  { rewrite Hfl1. destruct (Z.eqb_spec MIN_ORDER MAX_ORDER); [lia|].
    destruct (Z.leb_spec MIN_ORDER MIN_ORDER); [|lia].
    destruct (Z.ltb_spec MIN_ORDER MAX_ORDER); [|lia]. done. }
  destruct (alloc_spec s1 fl1 _ (2 ^ MIN_ORDER - 1) MIN_ORDER HI1 Ho2)
    as [[Hnil _]|(i2 & b2 & rest2 & s2 & fl2 & Hi2 & Hfl2 & Hlow & E2 & _)]; [lia|lia| |].
  { rewrite Hnil in Hmin1 by lia. done. }
  assert (i2 = MIN_ORDER) as ->.
  { destruct (Z.eq_dec i2 MIN_ORDER); [done|].
    rewrite Hlow in Hmin1 by lia. done. }
  rewrite Hmin1 in Hfl2. injection Hfl2 as <- _.
  exists s1, s2. rewrite Z.add_0_r. done.
Qed.

(** ** Supporting facts for the claims that fail at [UINT32_MAX] *)

(** The defect: line 81 adds 1 to [size] in [uint32_t]. *)
Lemma alloc_order_wraps : alloc_order 4294967295 = Val MIN_ORDER.
Proof.
  pose proof min_order_spec. unfold alloc_order.
  change ((4294967295 + 1) mod 2 ^ 32) with 0.
  change (log2 0) with (Val 0). simpl. f_equal. lia.
Qed.

Lemma alloc_undefined size s :
  2 ^ 31 <= size < 2 ^ 32 - 1 -> alloc size s = Err Undefined.
Proof.
  intros Hs. unfold alloc, alloc_order. rewrite Z.mod_small by lia.
  rewrite log2_undefined by lia. done.
Qed.

(** X22.  A [nullptr] result leaves the allocator as it was. *)
Lemma alloc_null_unchanged s live size s' :
  reachable s live -> alloc size s = Val (0, s') -> s' = s.
Proof.
  intros Hr Ha. destruct (reachable_inv _ _ Hr) as [fl HI].
  by destruct (alloc_cases _ _ _ _ _ _ HI Ha) as [[_ ->]|[? _]].
Qed.

(** X21.  For sizes whose [size + 1] neither wraps nor exceeds [1U << 31], [alloc]
    returns [nullptr] exactly in the three cases of the specification. *)
Lemma alloc_null_iff s live size :
  reachable s live -> 0 <= size < 2 ^ 31 ->
  (exists s', alloc size s = Val (0, s')) <->
  (size = 0 \/ 2 ^ MAX_ORDER < size + 1 \/
   forall k a, Z.max MIN_ORDER (Z.log2_up (size + 1)) <= k -> ~ on_freelist s k a).
Proof.
  intros Hr Hs. destruct (reachable_inv _ _ Hr) as [fl HI].
  pose proof min_order_spec as Hmin. pose proof max_power_range as Hmax.
  pose proof (alloc_order_spec size Hs) as Ho.
  set (r := Z.max MIN_ORDER (Z.log2_up (size + 1))) in *.
  assert (2 ^ MAX_ORDER < size + 1 <-> MAX_ORDER < r) as Hbig.
  { unfold r, MAX_ORDER. rewrite (Z.log2_up_lt_pow2 (size + 1) MAX_POWER) by lia. lia. }
  destruct (Z.eq_dec size 0) as [Hz|Hnz].
  { split; [auto|]. intros _. exists s. apply (alloc_null_spec s size r Ho). auto. }
  destruct (Z.lt_ge_cases MAX_ORDER r) as [Hlt|Hge].
  { split; [intros _; right; left; by apply Hbig|]. intros _. exists s.
    apply (alloc_null_spec s size r Ho). auto. }
  destruct (alloc_spec s fl live size r HI Ho Hnz Hge)
    as [[Hnil E]|(i & b & rest & s1 & fl' & Hi & Hfl & _ & E & Hb & _)].
  - split; [|by exists s]. intros _. right; right. intros k a Hk Ha.
    apply (on_freelist_iff _ _ _ _ _ _ HI) in Ha as [Hk' Ha].
    rewrite Hnil in Ha by lia. by apply elem_of_nil in Ha.
  - split.
    + intros [s' E']. rewrite E in E'. by injection E' as ? _.
    + intros [?|[?|Hno]]; [done|lia|]. exfalso. apply (Hno i b); [lia|].
      apply (on_freelist_iff _ _ _ _ _ _ HI). split; [lia|].
      rewrite Hfl. apply elem_of_cons. auto.
Qed.

(** X23.  For sizes below [1U << 31] the byte in front of the returned pointer is
    the order of the specification. *)
Lemma order_byte_law s live size p s' :
  reachable s live -> 0 <= size < 2 ^ 31 -> alloc size s = Val (p, s') -> p <> 0 ->
  bytes s' (p - 1) = Z.max MIN_ORDER (Z.log2_up (size + 1)) /\
  MIN_ORDER <= bytes s' (p - 1) <= MAX_ORDER.
Proof.
  intros Hr Hs Ha Hp. destruct (reachable_inv _ _ Hr) as [fl HI].
  destruct (alloc_cases _ _ _ _ _ _ HI Ha) as [[? _]|(_ & r & i & rest & fl' & H)]; [done|].
  destruct H as (Ho & _ & ? & ? & _ & _ & _ & _ & -> & _).
  rewrite alloc_order_spec in Ho by done. injection Ho as <-. split; [done|lia].
Qed.

Lemma freelist_is_inv s fl live limbo k l :
  Inv s fl live limbo ->
  freelist_is s k l <-> MIN_ORDER <= k <= MAX_ORDER /\ l = fl k.
Proof.
  intros [G R]. split.
  - intros (Hk & h & Hh & Hl). split; [done|].
    destruct (rep_heads _ _ _ R k Hk) as (h0 & Hh0 & Hl0).
    rewrite Hh in Hh0. injection Hh0 as <-. by apply (flist_inj s h).
  - intros [Hk ->]. split; [done|]. by apply (rep_heads _ _ _ R).
Qed.

(** ** Releasing everything *)

Lemma alloc_returns s fl live size :
  Inv s fl live None -> 0 <= size < 2 ^ 32 -> ~ (2 ^ 31 <= size < 2 ^ 32 - 1) ->
  exists p s', alloc size s = Val (p, s').
Proof.
  intros HI Hs Hgap.
  assert (exists r, alloc_order size = Val r) as [r Ho].
  { destruct (Z.lt_ge_cases size (2 ^ 31)).
    - eexists. apply alloc_order_spec. lia.
    - assert (size = 4294967295) as -> by lia. eexists. apply alloc_order_wraps. }
  destruct (Z.eq_dec size 0) as [Hz|Hnz].
  { exists 0, s. apply (alloc_null_spec s size r Ho). auto. }
  destruct (Z.lt_ge_cases MAX_ORDER r) as [Hlt|Hge].
  { exists 0, s. apply (alloc_null_spec s size r Ho). auto. }
  destruct (alloc_spec s fl live size r HI Ho Hnz Hge)
    as [[_ E]|(i & b & rest & s1 & fl' & _ & _ & _ & E & _)]; eauto.
Qed.

Lemma elem_of_ptrs (live : list (Z * Z * Z)) q :
  q ∈ live.*1.*1 <-> exists sz k, (q, sz, k) ∈ live.
Proof.
  split.
  - intros Hq. apply list_elem_of_fmap in Hq as (x & -> & Hq).
    apply list_elem_of_fmap in Hq as ([[q' sz] k] & -> & Hq). by exists sz, k.
  - intros (sz & k & Hq). apply list_elem_of_fmap. exists (q, sz). split; [done|].
    apply list_elem_of_fmap. by exists (q, sz, k).
Qed.

(** The calls of [alloc] all return, and the pointers kept are those of the
    new outstanding allocations. *)
Lemma alloc_all_spec : forall sizes s live,
  reachable s live ->
  (forall size, size ∈ sizes -> 0 <= size < 2 ^ 32 /\ ~ (2 ^ 31 <= size < 2 ^ 32 - 1)) ->
  exists ptrs s1 live1,
    alloc_all sizes s = Val (ptrs, s1) /\ reachable s1 live1 /\
    live1.*1.*1 ≡ₚ ptrs ++ live.*1.*1.
Proof.
  induction sizes as [|size sizes IH]; intros s live Hreach Hsizes.
  { by exists [], s, live. }
  destruct (reachable_inv _ _ Hreach) as [fl HI].
  destruct (Hsizes size) as [Hs Hgap]; [apply elem_of_cons; auto|].
  destruct (alloc_returns s fl live size HI Hs Hgap) as (p & s' & E).
  assert (forall x, x ∈ sizes -> 0 <= x < 2 ^ 32 /\ ~ (2 ^ 31 <= x < 2 ^ 32 - 1)) as Hrest.
  { intros x Hx. apply Hsizes. apply elem_of_cons. auto. }
  simpl. rewrite E. simpl. destruct (Z.eqb_spec p 0) as [->|Hp].
  - destruct (IH s' live (reach_alloc_null s live size s' Hreach E) Hrest)
      as (ptrs & s1 & live1 & -> & Hreach1 & Hperm).
    simpl. by exists ptrs, s1, live1.
  - destruct (IH s' _ (reach_alloc s live size p s' Hreach E Hp) Hrest)
      as (ptrs & s1 & live1 & -> & Hreach1 & Hperm).
    simpl. exists (p :: ptrs), s1, live1. split; [done|]. split; [done|].
    rewrite Hperm. simpl. symmetry. apply Permutation_middle.
Qed.

(** With enough fuel the calls of [free] all return, and nothing is
    outstanding after the last one. *)
Lemma free_all_spec fuel :
  2 ^ (MAX_ORDER - MIN_ORDER) <= Z.of_nat fuel ->
  forall order s live,
    reachable s live -> NoDup order -> (forall q, q ∈ order <-> q ∈ live.*1.*1) ->
    exists s2, free_all fuel order s = Val s2 /\ reachable s2 [].
Proof.
  intros Hfuel. induction order as [|p order IH]; intros s live Hreach Hnd Hiff.
  - exists s. split; [done|]. destruct live as [|[[q sq] kq] live]; [done|].
    exfalso. assert (q ∈ ([] : list Z)) as Hbad.
    { apply Hiff. simpl. apply elem_of_cons. auto. }
    by apply elem_of_nil in Hbad.
  - assert (p ∈ live.*1.*1) as Hp by (apply Hiff; apply elem_of_cons; auto).
    apply elem_of_ptrs in Hp as (sz & k & Hin).
    destruct (reachable_inv _ _ Hreach) as [fl HI].
    destruct (free_spec s fl live p sz k fuel HI Hin Hfuel) as (s1 & fl1 & E & _).
    apply NoDup_cons in Hnd as [Hnp Hnd].
    destruct (IH s1 _ (reach_free s live fuel p sz k s1 Hreach Hin E) Hnd)
      as (s2 & E2 & Hreach2).
    + intros q. rewrite elem_of_ptrs. split.
      * intros Hq. assert (q ∈ live.*1.*1) as Hq'.
        { apply Hiff. apply elem_of_cons. auto. }
        apply elem_of_ptrs in Hq' as (sq & kq & Hq'). exists sq, kq.
        apply list_elem_of_filter. split; [|done]. simpl. by intros ->.
      * intros (sq & kq & Hq). apply list_elem_of_filter in Hq as [Hne Hq]. simpl in Hne.
        assert (q ∈ p :: order) as Hq'.
        { apply Hiff. apply elem_of_ptrs. by exists sq, kq. }
        by apply elem_of_cons in Hq' as [->|].
    + exists s2. simpl. rewrite E. simpl. done.
Qed.

(** C3.  Round trip: on a new allocator, any calls of [alloc] (with sizes
    for which [alloc] is defined) followed by [free] of every pointer that
    was returned, in any order, all return; they leave every free list as
    in a new allocator, the whole buffer being the one free block, and
    [alloc((1 << MAX_ORDER) - 1)] then succeeds and returns the buffer. *)
Theorem round_trip sizes fuel :
  (forall size, size ∈ sizes -> 0 <= size < 2 ^ 32 /\ ~ (2 ^ 31 <= size < 2 ^ 32 - 1)) ->
  2 ^ (MAX_ORDER - MIN_ORDER) <= Z.of_nat fuel ->
  exists ptrs s1,
    alloc_all sizes init = Val (ptrs, s1) /\
    forall order, order ≡ₚ ptrs ->
      exists s2 s3,
        free_all fuel order s1 = Val s2 /\
        (forall k l, freelist_is s2 k l <-> freelist_is init k l) /\
        alloc (2 ^ MAX_ORDER - 1) s2 = Val (base, s3) /\ base <> 0.
Proof.
  intros Hsizes Hfuel.
  destruct (alloc_all_spec sizes init [] reach_init Hsizes)
    as (ptrs & s1 & live1 & E & Hreach1 & Hperm).
  rewrite app_nil_r in Hperm.
  exists ptrs, s1. split; [done|]. intros order Horder.
  destruct (reachable_inv _ _ Hreach1) as [fl1 HI1].
  destruct (free_all_spec fuel Hfuel order s1 live1 Hreach1) as (s2 & E2 & Hreach2).
  { rewrite Horder, <- Hperm. apply (geo_live_nodup _ _ _ (proj1 HI1)). }
  { intros q. by rewrite Horder, Hperm. }
  destruct (idle_alloc_whole s2 Hreach2) as (s3 & E3 & Hb).
  exists s2, s3. split; [done|]. split; [|done].
  destruct (reachable_inv _ _ Hreach2) as [fl2 HI2].
  intros k l.
  rewrite (freelist_is_inv _ _ _ _ _ _ HI2), (freelist_is_inv _ _ _ _ _ _ inv_init).
  split; intros [Hk ->]; (split; [done|]); unfold fl_init;
    (destruct (Z.eqb_spec k MAX_ORDER) as [->|];
     [by rewrite (geo_idle_top fl2 (proj1 HI2))
     |by rewrite (geo_idle_low fl2 (proj1 HI2)) by lia]).
Qed.

(** * Further properties of the code *)

(** ** [log2], [MIN_ORDER] and [buddy_of] *)

(** X1.  [log2(size)] is the least [k] with [size <= 1 << k], for every [size]
    up to [1U << 31]; it is 0 for [size = 0] and [size = 1]. *)
Theorem log2_least n :
  n <= 2 ^ 31 ->
  exists k, log2 n = Val k /\ 0 <= k <= 31 /\ n <= 2 ^ k /\
    forall j, 0 <= j < k -> 2 ^ j < n.
Proof.
  intros Hn. destruct (log2_loop_spec n 34 0) as (k & Hk & Hr & Hle & Hlow); try lia.
  exists k. split; [done|]. split; [lia|]. split; [done|].
  intros j Hj. destruct Hlow as [->|Hlow]; [lia|].
  assert (2 ^ j <= 2 ^ (k - 1)) by (apply pow2_le; lia). lia.
Qed.

(** X2.  Beyond [1U << 31] the loop of [log2] does not end before it shifts
    [1U] by 32. *)
Theorem log2_shift_overflow n : 2 ^ 31 < n -> log2 n = Err Undefined.
Proof. apply log2_undefined. Qed.

(** X3.  [MIN_ORDER] is the least order whose block holds a pointer and one more
    byte: the first [static_assert] of the class holds, and no smaller
    order would do. *)
Theorem min_order_least :
  ptr_size + 1 <= 2 ^ MIN_ORDER /\
  forall j, 0 <= j < MIN_ORDER -> 2 ^ j < ptr_size + 1.
Proof.
  destruct (log2_loop_spec (ptr_size + 1) 34 0) as (k & Hk & Hr & Hle & Hlow); try lia.
  unfold MIN_ORDER, log2. rewrite Hk. split; [done|].
  intros j Hj. destruct Hlow as [->|Hlow]; [lia|].
  assert (2 ^ j <= 2 ^ (k - 1)) by (apply pow2_le; lia). lia.
Qed.

(** X4.  [buddy_of] is an involution without fixed points: the buddy of the
    buddy is the block itself, and a block is never its own buddy. *)
Theorem buddy_of_involutive p k q :
  buddy_of p k = Val q -> buddy_of q k = Val p /\ q <> p.
Proof.
  unfold buddy_of. destruct (Z.leb_spec 0 k); [|done].
  destruct (Z.ltb_spec k 32); [|done]. simpl. intros [= <-].
  rewrite shiftl_1 by done. fold (buddy_addr p k). fold (buddy_addr (buddy_addr p k) k).
  rewrite buddy_addr_invol. split; [done|]. by apply buddy_addr_neq.
Qed.

(** X5.  For a block below the top order, [buddy_of] gives the other half of
    the enclosing block of the next order: a block of the same order inside
    the buffer, one block size above or below.  For the whole buffer it
    gives the address behind the buffer. *)
Theorem buddy_of_halves a k :
  wfb a k ->
  (k < MAX_ORDER ->
     exists q, buddy_of a k = Val q /\ wfb q k /\ wfb (Z.min a q) (k + 1) /\
       (q = a + 2 ^ k \/ q = a - 2 ^ k)) /\
  (k = MAX_ORDER -> buddy_of a k = Val (base + 2 ^ MAX_ORDER)).
Proof.
  intros Hw. pose proof (block_room _ _ Hw) as Hr. pose proof min_order_spec as Hmin.
  pose proof (wfb_pos _ _ Hw) as [_ Hpos]. split.
  - intros Hk. assert (MIN_ORDER <= k) as Hk0 by (by destruct Hw as ((? & _) & _)).
    destruct (enclosing_block a k ltac:(lia) Hw) as (m & Hm & Hc).
    destruct (wfb_halves m k Hk0 Hm) as (Hw1 & Hw2 & _).
    exists (buddy_addr a k). split; [apply buddy_of_spec; lia|].
    destruct Hc as [[-> ->]|[-> ->]].
    + split; [done|]. split; [by rewrite Z.min_l by lia|by left].
    + split; [done|]. split; [by rewrite Z.min_r by lia|right; lia].
  - intros ->. rewrite buddy_of_spec by lia. rewrite (top_block a Hw).
    by rewrite buddy_addr_top.
Qed.

(** X6.  A link stored in a block is read back as it was written, and the store
    changes nothing but the [sizeof(void* )] bytes of the link. *)
Theorem link_round_trip s a v s' :
  0 <= v < 2 ^ (8 * ptr_size) -> store_ptr s a v = Val s' ->
  load_ptr s' a = Val v /\ m_freelists s' = m_freelists s /\
  forall x, x < a \/ a + ptr_size <= x -> bytes s' x = bytes s x.
Proof.
  intros Hv Hs. assert (in_buffer a ptr_size = true) as Hin.
  { unfold store_ptr in Hs. by destruct (in_buffer a ptr_size). }
  unfold in_buffer in Hin. apply andb_true_iff in Hin as [H1 H2].
  apply Z.leb_le in H1, H2.
  destruct (store_ptr_spec s a v) as (s1 & E & Hfl & Hp & Hb); [lia..|].
  rewrite E in Hs. injection Hs as <-.
  split; [rewrite load_ptr_spec by lia; by rewrite Hp|done].
Qed.

(** ** The constructor *)

(** X7.  A new allocator has the whole buffer as the only entry of the top
    free list, all other lists empty, and every byte of [m_buffer] zero;
    this holds whatever the byte in front of the buffer is. *)
Theorem init_state :
  (forall k l, freelist_is init k l <->
     MIN_ORDER <= k <= MAX_ORDER /\ l = if k =? MAX_ORDER then [base] else []) /\
  forall a, base <= a < base + 2 ^ MAX_ORDER -> bytes init a = 0.
Proof.
  split.
  - intros k l. apply (freelist_is_inv _ _ _ _ _ _ inv_init).
  - intros a Ha. unfold bytes, init. simpl. destruct (Z.eqb_spec a (base - 1)); [lia|done].
Qed.

(** ** Invariants of the reachable states *)


(** X9.  Free lists: every entry is a block of the order of its list, inside
    the buffer and aligned; it overlaps neither another free-list entry nor
    an outstanding block, and occurs once. *)
Theorem free_blocks_disjoint s live k a :
  reachable s live -> on_freelist s k a ->
  wfb a k /\
  (forall l, freelist_is s k l -> NoDup l) /\
  (forall k' a', on_freelist s k' a' -> (a', k') <> (a, k) ->
     a + 2 ^ k <= a' \/ a' + 2 ^ k' <= a) /\
  (forall p sz kp, (p, sz, kp) ∈ live -> a + 2 ^ k <= p \/ p + 2 ^ kp <= a).
Proof.
  intros Hr Ha. destruct (reachable_inv _ _ Hr) as [fl HI].
  pose proof HI as [G R].
  apply (on_freelist_iff _ _ _ _ _ _ HI) in Ha.
  assert (Blk fl live None Free a k) as Hb by done.
  split; [by apply (geo_wf _ _ _ G Free)|]. split; [|split].
  - intros l Hl. apply (freelist_is_inv _ _ _ _ _ _ HI) in Hl as [_ ->].
    apply (geo_nodup _ _ _ G).
  - intros k' a' Ha' Hne. apply (on_freelist_iff _ _ _ _ _ _ HI) in Ha'.
    destruct (geo_disj _ _ _ G Free a k Free a' k') as [(_ & ? & ?)|D]; [done|done| |done].
    exfalso. apply Hne. congruence.
  - intros p sz kp Hp.
    destruct (geo_disj _ _ _ G Free a k Live p kp) as [(? & _)|D];
      [done|by exists sz|done|done].
Qed.

(** X10.  Every byte of the buffer lies in a block that is on a free list or
    outstanding. *)
Theorem buffer_tiled s live x :
  reachable s live -> base <= x < base + 2 ^ MAX_ORDER ->
  (exists k a, on_freelist s k a /\ a <= x < a + 2 ^ k) \/
  (exists p sz k, (p, sz, k) ∈ live /\ p <= x < p + 2 ^ k).
Proof.
  intros Hr Hx. destruct (reachable_inv _ _ Hr) as [fl HI].
  destruct (geo_cover _ _ _ (proj1 HI) x Hx) as (t & a & k & Hb & Hrange).
  destruct t; simpl in Hb.
  - left. exists k, a. split; [|done]. by apply (on_freelist_iff _ _ _ _ _ _ HI).
  - right. destruct Hb as [sz Hb]. by exists a, sz, k.
  - done.
Qed.

(** X11.  A client that writes a byte of an allocation it holds, within the
    size it asked for, where that size is at most [(1 << k) - 1] for the
    block of order [k] it got (every request but [UINT32_MAX], by
    [live_fits]), changes that byte only, and neither a free list nor the
    order in front of any outstanding pointer. *)
Theorem client_write_safe s live p sz k a v s' :
  reachable s live -> (p, sz, k) ∈ live -> sz <= 2 ^ k - 1 -> p <= a < p + sz ->
  store_byte s a v = Val s' ->
  (forall j l, freelist_is s j l -> freelist_is s' j l) /\
  (forall q sq kq, (q, sq, kq) ∈ live -> bytes s' (q - 1) = kq) /\
  bytes s' a = v /\ forall x, x <> a -> bytes s' x = bytes s x.
Proof.
  intros Hr Hin Hfit Ha Hs. destruct (reachable_inv _ _ Hr) as [fl HI].
  destruct (step_write s fl live p sz k a v HI Hin) as (s1 & E & HI1 & Hoth); [lia|].
  rewrite E in Hs. injection Hs as <-. split; [|split; [|split]].
  - intros j l Hl. apply (freelist_is_inv _ _ _ _ _ _ HI) in Hl.
    by apply (freelist_is_inv _ _ _ _ _ _ HI1).
  - intros q sq kq Hq. by apply (rep_order _ _ _ (proj2 HI1) q sq kq).
  - assert (Blk fl live None Live p k) as Hb by (by exists sz).
    pose proof (block_room _ _ (geo_wf _ _ _ (proj1 HI) _ _ _ Hb)).
    destruct (store_byte_spec s a v) as (s2 & E2 & _ & Hv & _); [lia|].
    rewrite E in E2. by injection E2 as <-.
  - done.
Qed.

(** ** What a call of [alloc] does to the free lists *)

(** X12.  A successful [alloc] takes the head [p] of the first non-empty list
    [i] from its order [r] upwards, leaves the upper halves
    [p + (1 << j)] alone on the lists [r <= j < i], which were empty, and
    no other list changes. *)
Theorem alloc_effect s live size p s' :
  reachable s live -> alloc size s = Val (p, s') -> p <> 0 ->
  exists i rest,
    MIN_ORDER <= bytes s' (p - 1) <= i /\ i <= MAX_ORDER /\
    freelist_is s i (p :: rest) /\ freelist_is s' i rest /\
    (forall j, bytes s' (p - 1) <= j < i ->
       freelist_is s j [] /\ freelist_is s' j [p + 2 ^ j]) /\
    (forall j l, j < bytes s' (p - 1) \/ i < j -> freelist_is s j l -> freelist_is s' j l).
Proof.
  intros Hr Ha Hp. destruct (reachable_inv _ _ Hr) as [fl HI].
  destruct (alloc_cases _ _ _ _ _ _ HI Ha) as [[? _]|(_ & r & i & rest & fl' & H)]; [done|].
  destruct H as (_ & _ & Hri & Hi & Hfl & Hlow & HI' & _ & -> & Hfl').
  exists i, rest. split; [done|]. split; [done|]. split; [|split; [|split]].
  - apply (freelist_is_inv _ _ _ _ _ _ HI). split; [lia|done].
  - apply (freelist_is_inv _ _ _ _ _ _ HI'). split; [lia|].
    rewrite Hfl'. by rewrite Z.eqb_refl.
  - intros j Hj. split.
    + apply (freelist_is_inv _ _ _ _ _ _ HI). split; [lia|]. by rewrite Hlow.
    + apply (freelist_is_inv _ _ _ _ _ _ HI'). split; [lia|]. rewrite Hfl'.
      destruct (Z.eqb_spec j i); [lia|]. destruct (Z.leb_spec r j); [|lia].
      destruct (Z.ltb_spec j i); [done|lia].
  - intros j l Hj Hl. apply (freelist_is_inv _ _ _ _ _ _ HI) in Hl as [Hjr ->].
    apply (freelist_is_inv _ _ _ _ _ _ HI'). split; [done|]. rewrite Hfl'.
    destruct (Z.eqb_spec j i); [lia|].
    destruct (Z.leb_spec r j), (Z.ltb_spec j i); simpl; done || lia.
Qed.

(** X13.  The block a successful [alloc] returns was not outstanding: its pointer
    differs from every outstanding pointer and its block overlaps none of
    their blocks. *)
Theorem alloc_fresh s live size p s' q sq kq :
  reachable s live -> alloc size s = Val (p, s') -> p <> 0 -> (q, sq, kq) ∈ live ->
  q <> p /\ (p + 2 ^ bytes s' (p - 1) <= q \/ q + 2 ^ kq <= p).
Proof.
  intros Hr Ha Hp Hq. destruct (reachable_inv _ _ Hr) as [fl HI].
  destruct (alloc_cases _ _ _ _ _ _ HI Ha) as [[? _]|(_ & r & i & rest & fl' & H)]; [done|].
  destruct H as (_ & _ & _ & _ & _ & _ & [G' _] & _ & -> & _).
  assert (q <> p) as Hne.
  { pose proof (geo_live_nodup _ _ _ G') as Hnd. simpl in Hnd.
    apply NoDup_cons in Hnd as [Hnd _]. intros ->. apply Hnd.
    apply list_elem_of_fmap. exists (p, sq). split; [done|].
    apply list_elem_of_fmap. by exists (p, sq, kq). }
  split; [done|].
  destruct (geo_disj _ _ _ G' Live p r Live q kq) as [(_ & ? & _)|D]; try done.
  - exists size. apply elem_of_cons. auto.
  - exists sq. apply elem_of_cons. auto.
Qed.

(** X14.  In a reachable state [alloc] runs into undefined behaviour for the
    sizes from [1U << 31] to [UINT32_MAX - 1] and for no other size: every
    other call stays inside the object and returns. *)
Theorem alloc_defined s live size :
  reachable s live -> 0 <= size < 2 ^ 32 ->
  (2 ^ 31 <= size < 2 ^ 32 - 1 -> alloc size s = Err Undefined) /\
  (~ (2 ^ 31 <= size < 2 ^ 32 - 1) -> exists p s', alloc size s = Val (p, s')).
Proof.
  intros Hr Hs. split; [apply alloc_undefined|]. intros Hgap.
  destruct (reachable_inv _ _ Hr) as [fl HI].
  assert (exists r, alloc_order size = Val r) as [r Ho].
  { destruct (Z.lt_ge_cases size (2 ^ 31)).
    - eexists. apply alloc_order_spec. lia.
    - assert (size = 4294967295) as -> by lia. eexists. apply alloc_order_wraps. }
  destruct (Z.eq_dec size 0) as [Hz|Hnz].
  { exists 0, s. apply (alloc_null_spec s size r Ho). auto. }
  destruct (Z.lt_ge_cases MAX_ORDER r) as [Hlt|Hge].
  { exists 0, s. apply (alloc_null_spec s size r Ho). auto. }
  destruct (alloc_spec s fl live size r HI Ho Hnz Hge)
    as [[_ E]|(i & b & rest & s1 & fl' & _ & _ & _ & E & _)]; eauto.
Qed.

(** X15.  The fill loop of the tests obtains the same number of blocks in every
    state in which nothing is outstanding, not only on a new allocator: the
    rounds of the first test all count the same. *)
Theorem capacity_idle s size fuel :
  reachable s [] -> 0 < size < 2 ^ MAX_POWER ->
  2 ^ (MAX_ORDER - Z.max MIN_ORDER (Z.log2_up (size + 1))) < Z.of_nat fuel ->
  exists s',
    fill fuel size s
    = Val (2 ^ (MAX_ORDER - Z.max MIN_ORDER (Z.log2_up (size + 1))), s').
Proof.
  intros Hreach Hs Hfuel. destruct (reachable_inv _ _ Hreach) as [fl HI].
  pose proof min_order_spec as Hmin. pose proof max_power_range as Hmax.
  set (r := Z.max MIN_ORDER (Z.log2_up (size + 1))) in *.
  assert (2 ^ MAX_POWER <= 2 ^ 31) by (apply pow2_le; lia).
  assert (Z.log2_up (size + 1) <= MAX_POWER) by (apply Z.log2_up_le_pow2; lia).
  assert (MIN_ORDER <= r <= MAX_ORDER) as Hr by (unfold r, MAX_ORDER; lia).
  apply (fill_spec size r) with (fl := fl) (live := []).
  - apply alloc_order_spec. lia.
  - lia.
  - lia.
  - done.
  - intros j Hj. apply (geo_idle_low fl (proj1 HI)); lia.
  - pose proof (geo_sum _ _ _ (proj1 HI)) as Hsum. simpl in Hsum.
    rewrite <- Z.pow_add_r by lia. replace (MAX_ORDER - r + r) with MAX_ORDER by lia. lia.
  - split; [|done]. apply Z.pow_nonneg. lia.
Qed.

(** ** What a call of [free] does to the free lists *)

(** One pass through the loop body, with the lists it leaves. *)
Lemma free_pass_exact steps s fl live b k :
  2 ^ (MAX_ORDER - MIN_ORDER) <= Z.of_nat steps ->
  Inv s fl live (Some (b, k)) ->
  ((buddy_addr b k ∉ fl k) /\
   exists s2,
     (forall it, free_loop (S it) steps s b k = Val (b, k, s2)) /\
     Inv s2 (fupd fl k (b :: fl k)) live None /\ stable live s s2) \/
  (exists l1 l2 s1,
     fl k = l1 ++ buddy_addr b k :: l2 /\ (buddy_addr b k ∉ l1) /\
     k + 1 <= MAX_ORDER /\
     (forall it, free_loop (S it) steps s b k
                 = free_loop it steps s1 (Z.min b (buddy_addr b k)) (k + 1)) /\
     Inv s1 (fupd fl k (l1 ++ l2)) live (Some (Z.min b (buddy_addr b k), k + 1)) /\
     stable live s s1).
Proof.
  intros Hsteps [G R].
  assert (Blk fl live (Some (b, k)) Limbo b k) as Hl by done.
  pose proof (geo_wf _ _ _ G _ _ _ Hl) as Hw. pose proof (block_room _ _ Hw) as Hr.
  assert (MIN_ORDER <= k <= MAX_ORDER) as Hk by (by destruct Hw).
  destruct (rep_heads _ _ _ R k Hk) as (h & Hh & Hlk).
  destruct (walk_spec s (buddy_addr b k) (fl k) steps (Head (k - MIN_ORDER)) h)
    as [W0 W1]; try done.
  { simpl. by apply freelist_get_spec; [lia|]. }
  { intros a Ha. assert (Blk fl live (Some (b, k)) Free a k) as Hb by done.
    apply (geo_wf _ _ _ G), block_room in Hb. lia. }
  { pose proof (geo_length _ _ _ k G Hk). lia. }
  destruct (decide (buddy_addr b k ∈ fl k)) as [Hin|Hnin].
  - right. destruct (list_elem_of_split_l _ _ Hin) as (l1 & l2 & Hfl & Hnl1).
    destruct (W1 l1 l2 Hfl Hnl1) as [Hwalk Hd].
    assert (Blk fl live (Some (b, k)) Free (buddy_addr b k) k) as Hbd by done.
    pose proof (block_room _ _ (geo_wf _ _ _ G _ _ _ Hbd)) as Hbr.
    destruct (rep_unlink s fl live _ k l1 _ l2 G R Hk Hfl) as (s1 & Hld & Ha & R1 & St1).
    destruct (geo_merge fl live b k l1 l2 G Hfl) as [Hk1 G1].
    exists l1, l2, s1. split; [done|]. split; [done|]. split; [done|]. split; [|done].
    intros it. simpl. rewrite buddy_of_spec by lia. simpl.
    rewrite Hwalk. simpl. rewrite Hd. simpl.
    destruct (Z.eqb_spec (buddy_addr b k) 0); [lia|].
    rewrite Hld. simpl. rewrite Ha. simpl. by rewrite Z.mod_small by lia.
  - left. split; [done|]. destruct (W0 Hnin) as (ptr' & Hwalk & Hd).
    destruct (step_push s fl live b k (conj G R) Hnin)
      as (h' & s1 & s2 & Hg & Hs1 & Hs2 & HI2 & St).
    exists s2. split; [|done].
    intros it. simpl. rewrite buddy_of_spec by lia. simpl.
    rewrite Hwalk. simpl. rewrite Hd. simpl. rewrite Hg. simpl.
    rewrite Hs1. simpl. by rewrite Hs2.
Qed.

(** The loop of [free] ends with the block it started from inside the
    block at the head of a free list. *)
Lemma free_loop_covers steps :
  2 ^ (MAX_ORDER - MIN_ORDER) <= Z.of_nat steps ->
  forall n s fl live b k,
  Inv s fl live (Some (b, k)) -> MAX_ORDER - k < Z.of_nat n ->
  exists b' k' s' fl' tl, k <= k' <= MAX_ORDER /\
    (forall iters, (Z.to_nat (k' - k) < iters)%nat ->
       free_loop iters steps s b k = Val (b', k', s')) /\
    Inv s' fl' live None /\ fl' k' = b' :: tl /\
    b' <= b /\ b + 2 ^ k <= b' + 2 ^ k'.
Proof.
  intros Hsteps. induction n as [|n IH]; intros s fl live b k HI Hn.
  { assert (Blk fl live (Some (b, k)) Limbo b k) as Hl by done.
    apply (geo_wf _ _ _ (proj1 HI)) in Hl as (? & _). lia. }
  assert (Blk fl live (Some (b, k)) Limbo b k) as Hl by done.
  pose proof (geo_wf _ _ _ (proj1 HI) _ _ _ Hl) as Hw.
  assert (MIN_ORDER <= k <= MAX_ORDER) as Hk by (by destruct Hw).
  destruct (free_pass_exact steps s fl live b k Hsteps HI)
    as [(_ & s2 & Hpass & HI2 & _)|(l1 & l2 & s1 & _ & _ & Hk1 & Hpass & HI1 & _)].
  - exists b, k, s2, (fupd fl k (b :: fl k)), (fl k). split; [lia|].
    rewrite Z.sub_diag. simpl. split.
    + intros [|it] Hit; [lia|]. apply Hpass.
    + split; [done|]. split; [by rewrite fupd_same|lia].
  - pose proof min_order_spec as Hmin.
    destruct (enclosing_block b k ltac:(lia) Hw) as (m & _ & Hcase).
    pose proof (pow2_succ k ltac:(lia)) as Hp.
    pose proof (pow2_pos k ltac:(lia)) as Hpp.
    destruct (IH s1 _ live _ (k + 1) HI1)
      as (b' & k' & s' & fl' & tl & Hk' & Hval & HI' & Hfl' & Hlo & Hhi); [lia|].
    exists b', k', s', fl', tl. split; [lia|]. split.
    + intros [|it] Hit; [lia|]. rewrite Hpass. apply Hval. lia.
    + split; [done|]. split; [done|]. lia.
Qed.

Lemma wfb_lower a i j : wfb a i -> MIN_ORDER <= j <= i -> wfb a j.
Proof.
  intros (Hi & Hb & Hend & Hdiv) Hj. pose proof min_order_spec as Hmin.
  pose proof (pow2_le j i ltac:(lia)).
  split; [lia|]. split; [done|]. split; [lia|].
  etrans; [apply (pow2_divide j i); lia|done].
Qed.

(** Released right after it was split off, a block merges with the upper
    halves [p + (1 << m)] one order after the other and is pushed back
    onto the list it came from. *)
Lemma free_loop_rejoin steps :
  2 ^ (MAX_ORDER - MIN_ORDER) <= Z.of_nat steps ->
  forall n j s fl live p i,
  Z.of_nat n = i - j ->
  Inv s fl live (Some (p, j)) -> wfb p i ->
  (forall m, j <= m < i -> fl m = [p + 2 ^ m]) ->
  buddy_addr p i ∉ fl i ->
  exists s' fl',
    (forall iters, (n < iters)%nat -> free_loop iters steps s p j = Val (p, i, s')) /\
    Inv s' fl' live None /\
    forall m, fl' m = if m =? i then p :: fl i
                      else if (j <=? m) && (m <? i) then [] else fl m.
Proof.
  intros Hsteps. induction n as [|n IH]; intros j s fl live p i Hn HI Hw Hup Hbd.
  - assert (j = i) as -> by lia.
    destruct (free_pass_exact steps s fl live p i Hsteps HI)
      as [(_ & s2 & Hpass & HI2 & _)|(l1 & l2 & s1 & Hfl & _)].
    + exists s2, (fupd fl i (p :: fl i)). split.
      { intros [|it] Hit; [lia|]. apply Hpass. }
      split; [done|]. intros m. unfold fupd.
      destruct (Z.eqb_spec m i); [done|].
      destruct (Z.leb_spec i m), (Z.ltb_spec m i); simpl; done || lia.
    + exfalso. apply Hbd. rewrite Hfl. apply elem_of_app. right.
      apply elem_of_cons. by left.
  - assert (Blk fl live (Some (p, j)) Limbo p j) as Hl by done.
    pose proof (geo_wf _ _ _ (proj1 HI) _ _ _ Hl) as Hwj.
    assert (MIN_ORDER <= j <= MAX_ORDER) as Hj by (by destruct Hwj).
    pose proof min_order_spec as Hmin.
    assert (wfb p (j + 1)) as Hw1 by (apply (wfb_lower p i); [done|lia]).
    destruct (wfb_halves p j ltac:(lia) Hw1) as (_ & _ & _ & Hbuddy).
    pose proof (pow2_pos j ltac:(lia)) as Hpos.
    destruct (free_pass_exact steps s fl live p j Hsteps HI)
      as [(Hnin & _)|(l1 & l2 & s1 & Hfl & _ & _ & Hpass & HI1 & _)].
    + exfalso. apply Hnin. rewrite Hbuddy, (Hup j) by lia. apply elem_of_cons. by left.
    + rewrite (Hup j) in Hfl by lia.
      destruct l1 as [|x l1]; [|by destruct l1].
      simpl in Hfl. injection Hfl as _ <-. simpl in HI1.
      rewrite Hbuddy in HI1, Hpass. rewrite Z.min_l in HI1, Hpass by lia.
      destruct (IH (j + 1) s1 (fupd fl j []) live p i) as (s' & fl' & Hval & HI' & Hfl').
      * lia.
      * done.
      * done.
      * intros m Hm. rewrite fupd_other by lia. apply Hup. lia.
      * rewrite fupd_other by lia. done.
      * exists s', fl'. split.
        { intros [|it] Hit; [lia|]. rewrite Hpass. apply Hval. lia. }
        split; [done|]. intros m. rewrite Hfl'. unfold fupd.
        destruct (Z.eqb_spec m i), (Z.eqb_spec i j); try lia.
        { done. }
        destruct (Z.eqb_spec m j), (Z.leb_spec (j + 1) m), (Z.ltb_spec m i),
          (Z.leb_spec j m); simpl; done || lia.
Qed.

(** X16.  [free] leaves the block it was given inside the block at the head of
    the free list of the order it stopped at, which is the order of the
    block or a higher one. *)
Theorem free_releases s live p sz k fuel :
  reachable s live -> (p, sz, k) ∈ live ->
  2 ^ (MAX_ORDER - MIN_ORDER) <= Z.of_nat fuel ->
  exists s' k' b' tl,
    free fuel p s = Val s' /\ k <= k' <= MAX_ORDER /\
    freelist_is s' k' (b' :: tl) /\ b' <= p /\ p + 2 ^ k <= b' + 2 ^ k'.
Proof.
  intros Hreach Hin Hfuel. destruct (reachable_inv _ _ Hreach) as [fl [G R]].
  assert (Blk fl live None Live p k) as Hl by (by exists sz).
  pose proof (geo_wf _ _ _ G _ _ _ Hl) as Hw. pose proof (block_room _ _ Hw) as Hr.
  assert (MIN_ORDER <= k <= MAX_ORDER) as Hk by (by destruct Hw).
  unfold free. destruct (Z.eqb_spec p 0); [lia|].
  rewrite load_byte_spec by lia. rewrite (rep_order _ _ _ R p sz k Hin). simpl.
  pose proof (geo_release fl live p sz k G Hin) as G'.
  assert (Rep s fl (filter (fun x => x.1.1 <> p) live)) as R'.
  { apply (rep_subset s fl live); [done|]. intros x Hx.
    by apply list_elem_of_filter in Hx as [_ ?]. }
  pose proof (Z.pow_gt_lin_r 2 (MAX_ORDER - MIN_ORDER) ltac:(lia) ltac:(lia)).
  destruct (free_loop_covers fuel Hfuel fuel s fl _ p k (conj G' R'))
    as (b' & k' & s' & fl' & tl & Hk' & Hval & HI' & Hfl' & Hlo & Hhi); [lia|].
  rewrite Hval by lia. simpl. exists s', k', b', tl.
  split; [done|]. split; [done|]. split; [|done].
  apply (freelist_is_inv _ _ _ _ _ _ HI'). split; [lia|done].
Qed.

(** X17.  After [free] of an outstanding pointer, [alloc] of the size it was
    obtained with succeeds; if the buddy of the block was not free, the
    block was pushed at the head of its list and [alloc] returns the same
    pointer again. *)
Theorem alloc_after_free s live p sz k fuel :
  reachable s live -> (p, sz, k) ∈ live ->
  2 ^ (MAX_ORDER - MIN_ORDER) <= Z.of_nat fuel ->
  exists s1 q s2,
    free fuel p s = Val s1 /\ alloc sz s1 = Val (q, s2) /\ q <> 0 /\
    (~ on_freelist s k (buddy_addr p k) -> q = p).
Proof.
  intros Hreach Hin Hfuel. destruct (reachable_inv _ _ Hreach) as [fl [G R]].
  destruct (reachable_orders _ _ Hreach _ _ _ Hin) as [Ho Hnz].
  assert (Blk fl live None Live p k) as Hl by (by exists sz).
  pose proof (geo_wf _ _ _ G _ _ _ Hl) as Hw. pose proof (block_room _ _ Hw) as Hr.
  assert (MIN_ORDER <= k <= MAX_ORDER) as Hk by (by destruct Hw).
  unfold free. destruct (Z.eqb_spec p 0); [lia|].
  rewrite load_byte_spec by lia. rewrite (rep_order _ _ _ R p sz k Hin). simpl.
  pose proof (geo_release fl live p sz k G Hin) as G'.
  assert (Rep s fl (filter (fun x => x.1.1 <> p) live)) as R'.
  { apply (rep_subset s fl live); [done|]. intros x Hx.
    by apply list_elem_of_filter in Hx as [_ ?]. }
  pose proof (Z.pow_gt_lin_r 2 (MAX_ORDER - MIN_ORDER) ltac:(lia) ltac:(lia)).
  destruct (free_pass_exact fuel s fl _ p k Hfuel (conj G' R'))
    as [(Hnin & s2 & Hpass & HI2 & _)|(l1 & l2 & s1 & Hfl & _)].
  - destruct fuel as [|fuel]; [lia|]. rewrite Hpass. simpl.
    destruct (alloc_spec s2 _ _ sz k HI2 Ho Hnz ltac:(lia))
      as [[Hempty _]|(i & b & rest & s3 & fl3 & Hi & Hfli & Hlow & Ha & Hb & _)].
    + specialize (Hempty k ltac:(lia)). by rewrite fupd_same in Hempty.
    + exists s2, b, s3. split; [done|]. split; [done|]. split; [done|]. intros _.
      destruct (Z.eq_dec i k) as [->|Hne].
      * rewrite fupd_same in Hfli. by injection Hfli as ->.
      * specialize (Hlow k ltac:(lia)). by rewrite fupd_same in Hlow.
  - destruct (free_loop_covers fuel Hfuel fuel s fl _ p k (conj G' R'))
      as (b' & k' & s' & fl' & tl & Hk' & Hval & HI' & Hfl' & _); [lia|].
    rewrite Hval by lia. simpl.
    destruct (alloc_spec s' _ _ sz k HI' Ho Hnz ltac:(lia))
      as [[Hempty _]|(i & b & rest & s3 & fl3 & Hi & Hfli & Hlow & Ha & Hb & _)].
    + specialize (Hempty k' ltac:(lia)). by rewrite Hfl' in Hempty.
    + exists s', b, s3. split; [done|]. split; [done|]. split; [done|].
      intros Hnot. exfalso. apply Hnot.
      apply (on_freelist_iff s fl live None); [done|]. split; [done|].
      rewrite Hfl. apply elem_of_app. right. apply elem_of_cons. by left.
Qed.

(** X18.  [free] undoes [alloc]: releasing a block right after it was obtained
    merges the halves that were split off for it and leaves every free
    list as it was before the [alloc], blocks and their order alike. *)
Theorem alloc_free_restores s live size p s1 fuel :
  reachable s live -> alloc size s = Val (p, s1) -> p <> 0 ->
  2 ^ (MAX_ORDER - MIN_ORDER) <= Z.of_nat fuel ->
  exists s2, free fuel p s1 = Val s2 /\
    forall j l, freelist_is s j l <-> freelist_is s2 j l.
Proof.
  intros Hreach Ha Hp Hfuel. destruct (reachable_inv _ _ Hreach) as [fl HI].
  destruct (alloc_cases _ _ _ _ _ _ HI Ha) as [[? _]|(_ & r & i & rest & fl' & H)]; [done|].
  destruct H as (_ & _ & Hri & Hi & Hfl & Hlow & [G1 R1] & _ & Hbyte & Hfl').
  assert (Blk fl live None Free p i) as Hfree.
  { split; [lia|]. rewrite Hfl. apply elem_of_cons. by left. }
  pose proof (geo_wf _ _ _ (proj1 HI) _ _ _ Hfree) as Hwi.
  assert ((p, size, r) ∈ (p, size, r) :: live) as Hin by (apply elem_of_cons; auto).
  assert (Blk fl' ((p, size, r) :: live) None Live p r) as Hl by (by exists size).
  pose proof (geo_wf _ _ _ G1 _ _ _ Hl) as Hw. pose proof (block_room _ _ Hw) as Hr.
  unfold free. destruct (Z.eqb_spec p 0); [lia|].
  rewrite load_byte_spec by lia. rewrite Hbyte. simpl.
  pose proof (geo_release fl' _ p size r G1 Hin) as G'.
  assert (Rep s1 fl' (filter (fun x => x.1.1 <> p) ((p, size, r) :: live))) as R'.
  { apply (rep_subset s1 fl' ((p, size, r) :: live)); [done|]. intros x Hx.
    by apply list_elem_of_filter in Hx as [_ ?]. }
  assert (Z.of_nat (Z.to_nat (i - r)) = i - r) as Hn by lia.
  destruct (free_loop_rejoin fuel Hfuel (Z.to_nat (i - r)) r s1 fl' _ p i Hn (conj G' R') Hwi)
    as (s2 & fl2 & Hval & HI2 & Hfl2).
  - intros m Hm. rewrite Hfl'. destruct (Z.eqb_spec m i); [lia|].
    destruct (Z.leb_spec r m), (Z.ltb_spec m i); simpl; done || lia.
  - rewrite Hfl', Z.eqb_refl. intros Hbd.
    apply (geo_buddy _ _ _ (proj1 HI) p i Hfree). split; [lia|].
    rewrite Hfl. apply elem_of_cons. by right.
  - pose proof (Z.pow_gt_lin_r 2 (MAX_ORDER - MIN_ORDER) ltac:(lia) ltac:(lia)).
    rewrite Hval by lia. simpl. exists s2. split; [done|].
    assert (forall m, fl2 m = fl m) as Hsame.
    { intros m. rewrite Hfl2, !Hfl'. rewrite Z.eqb_refl.
      destruct (Z.eqb_spec m i) as [->|]; [done|].
      destruct (Z.leb_spec r m), (Z.ltb_spec m i); simpl; try done.
      symmetry. apply Hlow. lia. }
    intros j l. rewrite (freelist_is_inv _ _ _ _ _ _ HI), (freelist_is_inv _ _ _ _ _ _ HI2).
    by rewrite Hsame.
Qed.

(** ** The first test case *)

Lemma shl_spec bits k : 0 <= k < bits -> shl bits k = Val (2 ^ k).
Proof.
  intros Hk. unfold shl. destruct (Z.leb_spec 0 k); [|lia].
  destruct (Z.ltb_spec k bits); [|lia]. simpl. by rewrite shiftl_1.
Qed.

(** [memset] inside an outstanding block. *)
Lemma memset_spec fl live p sz k v :
  (p, sz, k) ∈ live -> sz <= 2 ^ k - 1 -> 0 <= v < 256 ->
  forall n s a, reachable s live -> Inv s fl live None ->
    p <= a -> a + Z.of_nat n <= p + sz ->
    exists s', memset n s a v = Val s' /\ reachable s' live /\ Inv s' fl live None /\
      (forall x, a <= x < a + Z.of_nat n -> bytes s' x = v) /\
      (forall x, ~ (a <= x < a + Z.of_nat n) -> bytes s' x = bytes s x).
Proof.
  intros Hin Hsz Hv. induction n as [|n IH]; intros s a Hr HI Ha Hn.
  - exists s. simpl. split; [done|]. split; [done|]. split; [done|].
    split; [|done]. intros x Hx. lia.
  - simpl.
    assert (Blk fl live None Live p k) as Hl by (by exists sz).
    pose proof (block_room _ _ (geo_wf _ _ _ (proj1 HI) _ _ _ Hl)) as Hroom.
    destruct (step_write s fl live p sz k a v HI Hin ltac:(lia)) as (s1 & E & HI1 & Hoth).
    assert (bytes s1 a = v) as Hat.
    { destruct (store_byte_spec s a v ltac:(lia)) as (s1' & E' & _ & Hv' & _).
      assert (s1' = s1) as <- by congruence. done. }
    rewrite E. simpl.
    assert (reachable s1 live) as Hr1.
    { apply (reach_write s live p sz k a v s1); done || lia. }
    destruct (IH s1 (a + 1) Hr1 HI1) as (s' & E2 & Hr' & HI' & Hin' & Hout'); [lia|lia|].
    exists s'. split; [done|]. split; [done|]. split; [done|]. split.
    + intros x Hx. destruct (Z.eq_dec x a) as [->|].
      * rewrite Hout' by lia. done.
      * apply Hin'. lia.
    + intros x Hx. rewrite Hout' by lia. apply Hoth. lia.
Qed.

Lemma all_of_spec s v : forall n a,
  base - 1 <= a -> a + Z.of_nat n <= base + 2 ^ MAX_ORDER ->
  (forall x, a <= x < a + Z.of_nat n -> bytes s x = v) -> all_of n s a v = Val true.
Proof.
  induction n as [|n IH]; intros a Ha Hn Hx; [done|]. simpl.
  rewrite load_byte_spec by lia. simpl. rewrite Hx by lia. rewrite Z.eqb_refl.
  apply IH; [lia|lia|]. intros x ?. apply Hx. lia.
Qed.

(** One successful pass of a fill loop: [alloc], then [memset] over the
    new block. *)
Lemma alloc_fill_step s fl live size r c :
  reachable s live -> Inv s fl live None -> alloc_order size = Val r ->
  0 < size < 2 ^ 31 -> r <= MAX_ORDER -> 0 <= c < 256 ->
  ((forall k, r <= k <= MAX_ORDER -> fl k = []) /\ alloc size s = Val (0, s)) \/
  (exists b s1 s2 fl',
     alloc size s = Val (b, s1) /\ b <> 0 /\
     memset (Z.to_nat size) s1 b c = Val s2 /\
     reachable s2 ((b, size, r) :: live) /\ Inv s2 fl' ((b, size, r) :: live) None /\
     stable live s s2 /\ size <= 2 ^ r - 1 /\
     (forall x, b <= x < b + size -> bytes s2 x = c) /\
     free_bytes fl' = free_bytes fl - 2 ^ r /\
     (forall j, MIN_ORDER <= j < r -> fl' j = fl j)).
Proof.
  intros Hreach HI Ho Hsize Hr Hc. assert (size <> 0) as Hnz by lia.
  destruct (alloc_spec s fl live size r HI Ho Hnz Hr)
    as [?|(i & b & rest & s1 & fl' & Hi & Hfl & Hlow' & E & Hb & HI' & St & Hbyte & Hfl')];
    [by left|right].
  assert (reachable s1 ((b, size, r) :: live)) as Hreach1.
  { rewrite <- Hbyte. by apply (reach_alloc s live size b s1). }
  assert ((b, size, r) ∈ (b, size, r) :: live) as Hin1 by (apply elem_of_cons; auto).
  pose proof (live_fits _ _ _ _ _ Hreach1 Hin1 ltac:(lia)) as Hfit.
  destruct (memset_spec fl' _ b size r c Hin1 Hfit Hc (Z.to_nat size) s1 b Hreach1 HI')
    as (s2 & E2 & Hreach2 & HI2 & Hin2 & Hout2); [lia|lia|].
  exists b, s1, s2, fl'. split; [done|]. split; [done|]. split; [done|].
  split; [done|]. split; [done|]. split; [|split; [done|split; [|split]]].
  - intros q sq kq a Hq Ha.
    assert (Blk fl' ((b, size, r) :: live) None Live b r) as B1 by (by exists size).
    assert (Blk fl' ((b, size, r) :: live) None Live q kq) as B2.
    { exists sq. apply elem_of_cons. auto. }
    pose proof (wfb_pos _ _ (geo_wf _ _ _ (proj1 HI') _ _ _ B2)) as [_ Hpq].
    assert (disj b r q kq) as D.
    { destruct (geo_disj _ _ _ (proj1 HI') _ _ _ _ _ _ B1 B2) as [(_ & Eq & _)|D]; [|done].
      exfalso. pose proof (geo_live_nodup _ _ _ (proj1 HI')) as Hnd. simpl in Hnd.
      apply NoDup_cons in Hnd as [Hnd _]. apply Hnd. rewrite Eq.
      apply list_elem_of_fmap. exists (q, sq). split; [done|].
      apply list_elem_of_fmap. by exists (q, sq, kq). }
    rewrite Hout2 by (unfold disj in D; lia). by apply (St q sq kq).
  - intros x Hx. apply Hin2. lia.
  - pose proof (geo_sum _ _ _ (proj1 HI)) as Hs. pose proof (geo_sum _ _ _ (proj1 HI')) as Hs'.
    simpl in Hs, Hs'. lia.
  - intros j Hj. rewrite Hfl'. destruct (Z.eqb_spec j i); [lia|].
    destruct (Z.leb_spec r j); [lia|]. done.
Qed.

(** The blocks recorded so far, with one more in front. *)
Lemma blocks_extend (P : Z -> Prop) s s2 s' live b size r c bl live' :
  stable live s s2 -> stable ((b, size, r) :: live) s2 s' -> size <= 2 ^ r - 1 ->
  (forall x, b <= x < b + size -> bytes s2 x = c) -> P size ->
  live'.*1 = reverse (bl.*1) ->
  (forall p sz cc, (p, sz, cc) ∈ bl ->
     P sz /\ forall x, p <= x < p + sz -> bytes s' x = cc) ->
  stable live s s' /\
  (live' ++ [(b, size, r)]).*1 = reverse (((b, size, c) :: bl).*1) /\
  (forall p sz cc, (p, sz, cc) ∈ (b, size, c) :: bl ->
     P sz /\ forall x, p <= x < p + sz -> bytes s' x = cc).
Proof.
  intros St St' Hfit Hfill HP Hl Hpat. split; [|split].
  - intros q sq kq a Hq Ha.
    rewrite (St' q sq kq) by (done || (apply elem_of_cons; auto)). by apply (St q sq kq).
  - rewrite fmap_app, Hl. simpl. by rewrite reverse_cons.
  - intros p sz cc Hin. apply elem_of_cons in Hin as [[= -> -> ->]|Hin]; [|by apply Hpat].
    split; [done|]. intros x Hx.
    rewrite (St' b size r) by (lia || (apply elem_of_cons; auto)). by apply Hfill.
Qed.

(** The fill loop with its [memset]: the blocks it records are the new
    outstanding allocations, each holds its fill byte, and the data of
    the allocations made before are as they were. *)
Lemma fill_blocks_spec size r :
  alloc_order size = Val r -> 0 < size < 2 ^ 31 -> r <= MAX_ORDER ->
  forall fuel s fl live c n,
    reachable s live -> Inv s fl live None ->
    (forall j, MIN_ORDER <= j < r -> fl j = []) ->
    free_bytes fl = n * 2 ^ r -> 0 <= n < Z.of_nat fuel -> 0 <= c < 256 ->
    exists bl s' live',
      fill_blocks fuel size c s = Val (bl, s') /\ Z.of_nat (length bl) = n /\
      reachable s' (live' ++ live) /\ stable live s s' /\
      live'.*1 = reverse (bl.*1) /\
      (forall p sz cc, (p, sz, cc) ∈ bl ->
         sz = size /\ forall x, p <= x < p + sz -> bytes s' x = cc).
Proof.
  intros Ho Hsize Hr. pose proof (alloc_order_min _ _ Ho) as Hrmin.
  pose proof min_order_spec as Hmin. pose proof (pow2_pos r ltac:(lia)) as Hpr.
  induction fuel as [|fuel IH]; intros s fl live c n Hreach HI Hlow Hfree Hn Hc; [lia|].
  simpl.
  destruct (alloc_fill_step s fl live size r c Hreach HI Ho Hsize Hr Hc)
    as [[Hnil E]|(b & s1 & s2 & fl' & E & Hb & E2 & Hreach2 & HI2 & St & Hfit & Hin2
                  & Hfb & Hlow')].
  - rewrite E. simpl. exists [], s, []. split; [done|]. split.
    { rewrite free_bytes_zero in Hfree; [simpl; nia|].
      intros k Hk. destruct (Z.lt_ge_cases k r); [apply Hlow|apply Hnil]; lia. }
    split; [done|]. split; [apply stable_refl|]. split; [done|].
    intros p sz cc Hin. by apply elem_of_nil in Hin.
  - rewrite E. simpl. destruct (Z.eqb_spec b 0); [done|]. rewrite E2. simpl.
    pose proof (free_bytes_nonneg fl') as Hnn.
    assert (1 <= n) by nia.
    destruct (IH s2 fl' _ ((c + 1) mod 256) (n - 1) Hreach2 HI2)
      as (bl & s' & live' & E3 & Hlen & Hreach' & St' & Hl & Hpat).
    { intros j Hj. rewrite Hlow' by done. by apply Hlow. }
    { nia. }
    { lia. }
    { apply Z.mod_pos_bound. lia. }
    rewrite E3. simpl.
    exists ((b, size, c) :: bl), s', (live' ++ [(b, size, r)]).
    split; [done|]. split; [simpl length; lia|]. split.
    { by rewrite <- app_assoc. }
    by apply (blocks_extend (fun sz => sz = size) s s2 s' live b size r c bl live').
Qed.

Lemma adjacent_distinct_nodup l : NoDup l -> adjacent_distinct l = true.
Proof.
  induction l as [|a l IH]; [done|]. intros Hnd. apply NoDup_cons in Hnd as [Hna Hnd].
  destruct l as [|b l]; [done|].
  change (adjacent_distinct (a :: b :: l))
    with (negb (a =? b) && adjacent_distinct (b :: l)).
  rewrite IH by done. destruct (Z.eqb_spec a b) as [->|]; [|done].
  exfalso. apply Hna. apply elem_of_cons. auto.
Qed.

Lemma foldr_min_spec a l :
  foldr Z.min a l ∈ a :: l /\ forall x, x ∈ a :: l -> foldr Z.min a l <= x.
Proof.
  induction l as [|b l [IH1 IH2]]; simpl.
  - split; [apply elem_of_cons; auto|]. intros x Hx.
    apply elem_of_cons in Hx as [->|Hx]; [lia|by apply elem_of_nil in Hx].
  - split.
    + destruct (Z.min_spec b (foldr Z.min a l)) as [[_ ->]|[_ ->]].
      * apply elem_of_cons. right. apply elem_of_cons. auto.
      * apply elem_of_cons in IH1 as [->|IH1]; apply elem_of_cons; auto.
        right. apply elem_of_cons. auto.
    + intros x Hx. apply elem_of_cons in Hx as [->|Hx].
      * specialize (IH2 a ltac:(apply elem_of_cons; auto)). lia.
      * apply elem_of_cons in Hx as [->|Hx]; [lia|].
        specialize (IH2 x ltac:(apply elem_of_cons; auto)). lia.
Qed.

Lemma foldr_max_spec a l :
  foldr Z.max a l ∈ a :: l /\ forall x, x ∈ a :: l -> x <= foldr Z.max a l.
Proof.
  induction l as [|b l [IH1 IH2]]; simpl.
  - split; [apply elem_of_cons; auto|]. intros x Hx.
    apply elem_of_cons in Hx as [->|Hx]; [lia|by apply elem_of_nil in Hx].
  - split.
    + destruct (Z.max_spec b (foldr Z.max a l)) as [[_ ->]|[_ ->]].
      * apply elem_of_cons in IH1 as [->|IH1]; apply elem_of_cons; auto.
        right. apply elem_of_cons. auto.
      * apply elem_of_cons. right. apply elem_of_cons. auto.
    + intros x Hx. apply elem_of_cons in Hx as [->|Hx].
      * specialize (IH2 a ltac:(apply elem_of_cons; auto)). lia.
      * apply elem_of_cons in Hx as [->|Hx]; [lia|].
        specialize (IH2 x ltac:(apply elem_of_cons; auto)). lia.
Qed.

Lemma elem_of_fst3 (l : list (Z * Z * Z)) p sz :
  (p, sz) ∈ l.*1 <-> exists k, (p, sz, k) ∈ l.
Proof.
  rewrite list_elem_of_fmap. split.
  - intros ([[p' sz'] k] & [= -> ->] & Hin). by exists k.
  - intros [k Hin]. by exists (p, sz, k).
Qed.

(** The sizes the tests ask for, [(1 << i) - 1]: with the byte for the
    order they fill a block. *)
Lemma good_size_pow i : 1 <= i < 31 -> good_size (2 ^ i - 1).
Proof.
  intros Hi. pose proof min_order_spec as Hmin.
  pose proof (pow2_lt i 31 ltac:(lia)) as Hi31.
  pose proof (pow2_le 1 i ltac:(lia)) as Hi1. change (2 ^ 1) with 2 in Hi1.
  split; [lia|]. replace (2 ^ i - 1 + 1) with (2 ^ i) by lia.
  rewrite Z.log2_up_pow2 by lia.
  destruct (Z.max_spec MIN_ORDER i) as [[Hlt ->]|[Hge ->]].
  - pose proof (pow2_le MIN_ORDER i ltac:(lia)). lia.
  - pose proof (pow2_le i MIN_ORDER ltac:(lia)). lia.
Qed.

(** The release loop: every check holds for every recorded block and the
    loop leaves nothing outstanding. *)
Lemma release_blocks_spec fuel :
  2 ^ (MAX_ORDER - MIN_ORDER) <= Z.of_nat fuel ->
  forall bl s live, reachable s live -> NoDup (bl.*1.*1) ->
    (forall p sz, (p, sz) ∈ live.*1 <-> (p, sz) ∈ bl.*1) ->
    (forall p sz c, (p, sz, c) ∈ bl ->
       good_size sz /\ forall x, p <= x < p + sz -> bytes s x = c) ->
    exists s', release_blocks fuel bl s = Val (true, s') /\ reachable s' [].
Proof.
  intros Hfuel. pose proof min_order_spec as Hmin.
  induction bl as [|[[p sz] c] bl IH]; intros s live Hreach Hnd Hiff Hpat.
  - exists s. split; [done|]. destruct live as [|[[q sq] kq] live]; [done|].
    exfalso. assert ((q, sq) ∈ ([] : list (Z * Z * Z)).*1) as Hbad.
    { apply Hiff. simpl. apply elem_of_cons. auto. }
    by apply elem_of_nil in Hbad.
  - assert ((p, sz) ∈ live.*1) as Hin.
    { apply Hiff. simpl. apply elem_of_cons. auto. }
    apply elem_of_fst3 in Hin as [k Hin].
    destruct (reachable_inv _ _ Hreach) as [fl [G R]].
    assert (Blk fl live None Live p k) as Hl by (by exists sz).
    pose proof (geo_wf _ _ _ G _ _ _ Hl) as Hw. pose proof (block_room _ _ Hw) as Hroom.
    assert (MIN_ORDER <= k <= MAX_ORDER) as Hk by (by destruct Hw).
    destruct (Hpat p sz c) as [[Hsz Hpow] Hfill]; [apply elem_of_cons; auto|].
    destruct (reachable_orders _ _ Hreach _ _ _ Hin) as [Ho' _].
    rewrite alloc_order_spec in Ho' by lia. injection Ho' as Ho'. rewrite Ho' in Hpow.
    pose proof (live_fits _ _ _ _ _ Hreach Hin ltac:(lia)) as Hfit.
    simpl. rewrite load_byte_spec by lia. rewrite (rep_order _ _ _ R p sz k Hin). simpl.
    rewrite !shl_spec by lia. simpl.
    rewrite (all_of_spec s c (Z.to_nat sz) p); [|lia|lia|intros x Hx; apply Hfill; lia].
    simpl.
    destruct (free_spec s fl live p sz k fuel (conj G R) Hin Hfuel)
      as (s1 & fl1 & E & HI1 & St1).
    rewrite E. simpl.
    assert (reachable s1 (filter (fun x => x.1.1 <> p) live)) as Hreach1.
    { by apply (reach_free s live fuel p sz k s1). }
    simpl in Hnd. apply NoDup_cons in Hnd as [Hnp Hnd].
    destruct (IH s1 _ Hreach1 Hnd) as (s' & E' & Hreach').
    + intros q sq. rewrite !elem_of_fst3. split.
      * intros [kq Hq]. apply list_elem_of_filter in Hq as [Hne Hq]. simpl in Hne.
        assert ((q, sq) ∈ ((p, sz, c) :: bl).*1) as Hq'.
        { apply Hiff. apply elem_of_fst3. by exists kq. }
        simpl in Hq'. apply elem_of_cons in Hq' as [[= -> ->]|Hq']; [done|].
        by apply elem_of_fst3.
      * intros [cq Hq].
        assert (q <> p) as Hne.
        { intros ->. apply Hnp. apply list_elem_of_fmap. exists (p, sq). split; [done|].
          apply elem_of_fst3. by exists cq. }
        assert ((q, sq) ∈ live.*1) as Hq'.
        { apply Hiff. simpl. apply elem_of_cons. right. apply elem_of_fst3. by exists cq. }
        apply elem_of_fst3 in Hq' as [kq Hq']. exists kq.
        apply list_elem_of_filter. done.
    + intros q sq cq Hq.
      destruct (Hpat q sq cq) as [Hgq Hfq]; [apply elem_of_cons; auto|].
      split; [done|]. intros x Hx.
      assert (q <> p) as Hne.
      { intros ->. apply Hnp. apply list_elem_of_fmap. exists (p, sq). split; [done|].
        apply elem_of_fst3. by exists cq. }
      assert ((q, sq) ∈ live.*1) as Hq'.
      { apply Hiff. simpl. apply elem_of_cons. right. apply elem_of_fst3. by exists cq. }
      apply elem_of_fst3 in Hq' as [kq Hq'].
      pose proof (live_fits _ _ _ _ _ Hreach Hq' ltac:(destruct Hgq; lia)) as Hfq'.
      rewrite (St1 q sq kq) by (lia || by apply list_elem_of_filter). by apply Hfq.
    + rewrite E'. simpl. exists s'. split; [|done]. f_equal. f_equal.
      rewrite Z.mod_small by lia. rewrite <- Hpow, Z.eqb_refl.
      destruct (Z.leb_spec MIN_ORDER k); [|lia].
      destruct (Z.leb_spec k MAX_ORDER); [done|lia].
Qed.

Lemma min_ptr_spec bl :
  bl <> [] ->
  exists lo, min_ptr bl = Val lo /\ lo ∈ bl.*1.*1 /\ forall x, x ∈ bl.*1.*1 -> lo <= x.
Proof.
  intros Hne. unfold min_ptr. destruct bl as [|[[p sz] c] bl]; [done|]. simpl.
  eexists. split; [done|]. apply foldr_min_spec.
Qed.

Lemma max_ptr_spec bl :
  bl <> [] ->
  exists hi, max_ptr bl = Val hi /\ hi ∈ bl.*1.*1 /\ forall x, x ∈ bl.*1.*1 -> x <= hi.
Proof.
  intros Hne. unfold max_ptr. destruct bl as [|[[p sz] c] bl]; [done|]. simpl.
  eexists. split; [done|]. apply foldr_max_spec.
Qed.

(** The checks on the pointers of the recorded blocks (lines 65-71). *)
Lemma pointer_checks s live bl :
  reachable s live -> live.*1 = reverse (bl.*1) -> bl <> [] ->
  NoDup (bl.*1.*1) /\
  exists lo hi, min_ptr bl = Val lo /\ max_ptr bl = Val hi /\
    adjacent_distinct (bl.*1.*1) = true /\
    (Z.of_nat (length bl) =? 1) || (lo <? hi) = true /\
    (hi - lo <=? 2 ^ MAX_ORDER) = true.
Proof.
  intros Hreach Hl Hne. destruct (reachable_inv _ _ Hreach) as [fl HI].
  assert (NoDup (bl.*1.*1)) as Hnd.
  { pose proof (geo_live_nodup _ _ _ (proj1 HI)) as Hnd.
    rewrite Hl, fmap_reverse in Hnd. by rewrite reverse_Permutation in Hnd. }
  assert (forall x, x ∈ bl.*1.*1 -> base <= x < base + 2 ^ MAX_ORDER) as Hrange.
  { intros x Hx. apply list_elem_of_fmap in Hx as ([x' sz] & -> & Hx). simpl.
    apply elem_of_reverse in Hx. rewrite <- Hl in Hx. apply elem_of_fst3 in Hx as [k Hx].
    assert (Blk fl live None Live x' k) as Hb by (by exists sz).
    pose proof (geo_wf _ _ _ (proj1 HI) _ _ _ Hb) as Hw.
    pose proof (wfb_pos _ _ Hw). destruct Hw as (_ & ? & ? & _). lia. }
  split; [done|].
  destruct (min_ptr_spec bl Hne) as (lo & Elo & Hlo & Hlo').
  destruct (max_ptr_spec bl Hne) as (hi & Ehi & Hhi & Hhi').
  exists lo, hi. split; [done|]. split; [done|].
  split; [by apply adjacent_distinct_nodup|].
  pose proof (Hrange _ Hlo). pose proof (Hrange _ Hhi).
  split; [|apply Z.leb_le; lia].
  destruct (Z.eqb_spec (Z.of_nat (length bl)) 1) as [|Hmany]; [done|].
  simpl. destruct (Z.ltb_spec lo hi) as [|Hle]; [done|]. exfalso.
  assert (hi = lo) as -> by (specialize (Hlo' _ Hhi); lia).
  assert (forall x, x ∈ bl.*1.*1 -> x = lo) as Hall.
  { intros x Hx. specialize (Hlo' _ Hx). specialize (Hhi' _ Hx). lia. }
  assert (length (bl.*1.*1) <> 1%nat /\ length (bl.*1.*1) <> 0%nat) as [Hlen1 Hlen0].
  { rewrite !length_fmap. destruct bl; simpl in *; [done|lia]. }
  destruct (bl.*1.*1) as [|a [|b l]]; simpl in Hlen1, Hlen0; [done|done|].
  apply NoDup_cons in Hnd as [Hnd _]. apply Hnd.
  rewrite (Hall a), (Hall b); apply elem_of_cons; auto.
  right. apply elem_of_cons. auto.
Qed.

(** One round of the loop, started with nothing outstanding: every check
    holds and the round ends with nothing outstanding. *)
Lemma test_round_spec fuel shuffle i s :
  MAX_POWER < 31 -> reachable s [] -> 1 <= i < MAX_ORDER ->
  (forall l, shuffle l ≡ₚ l) -> 2 ^ (MAX_ORDER - MIN_ORDER) < Z.of_nat fuel ->
  exists s', test_round fuel shuffle i s = Val (true, s') /\ reachable s' [].
Proof.
  intros Hmax31 Hreach Hi Hperm Hfuel.
  pose proof min_order_spec as Hmin. pose proof max_power_range as Hmax.
  assert (MAX_ORDER = MAX_POWER) as HMO by done.
  unfold test_round. rewrite (shl_spec 31 i), (shl_spec 31 MAX_ORDER) by lia. simpl.
  remember (2 ^ i - 1) as size eqn:Esize. remember (Z.max MIN_ORDER i) as r eqn:Er.
  assert (good_size size) as Hgood by (rewrite Esize; apply good_size_pow; lia).
  pose proof Hgood as [Hsize _].
  assert (alloc_order size = Val r) as Ho.
  { rewrite alloc_order_spec by lia. rewrite Esize.
    replace (2 ^ i - 1 + 1) with (2 ^ i) by lia. rewrite Z.log2_up_pow2 by lia.
    by rewrite Er. }
  assert (MIN_ORDER <= r <= MAX_ORDER) as Hr by lia.
  destruct (reachable_inv _ _ Hreach) as [fl HI].
  pose proof (pow2_pos (MAX_ORDER - r) ltac:(lia)) as Hcount.
  pose proof (pow2_le (MAX_ORDER - r) (MAX_ORDER - MIN_ORDER) ltac:(lia)) as Hcount'.
  destruct (fill_blocks_spec size r Ho Hsize ltac:(lia) fuel s fl [] 0
              (2 ^ (MAX_ORDER - r)) Hreach HI)
    as (bl & s1 & live' & E & Hlen & Hreach1 & _ & Hl & Hpat).
  { intros j Hj. apply (geo_idle_low fl (proj1 HI)); lia. }
  { pose proof (geo_sum _ _ _ (proj1 HI)) as Hsum. simpl in Hsum.
    rewrite <- Z.pow_add_r by lia. replace (MAX_ORDER - r + r) with MAX_ORDER by lia. lia. }
  { lia. }
  { lia. }
  rewrite app_nil_r in Hreach1. rewrite E. simpl.
  rewrite (shl_spec 31 (MAX_ORDER - r)) by lia. simpl.
  assert (bl <> []) as Hne by (intros ->; simpl in Hlen; lia).
  destruct (pointer_checks s1 live' bl Hreach1 Hl Hne)
    as (Hnd & lo & hi & -> & -> & Hadj & Hlohi & Hspan).
  simpl.
  destruct (release_blocks_spec fuel ltac:(lia) (shuffle bl) s1 live' Hreach1)
    as (s2 & E2 & Hreach2).
  { by rewrite Hperm. }
  { intros p sz. by rewrite Hperm, Hl, elem_of_reverse. }
  { intros p sz c Hin. rewrite Hperm in Hin. by destruct (Hpat p sz c Hin) as [-> ?]. }
  rewrite E2. simpl. exists s2. split; [|done]. f_equal. f_equal.
  by rewrite Hadj, Hlohi, Hspan, Hlen, Z.eqb_refl.
Qed.

Lemma test_rounds_spec fuel shuffle :
  MAX_POWER < 31 -> (forall i l, shuffle i l ≡ₚ l) ->
  2 ^ (MAX_ORDER - MIN_ORDER) < Z.of_nat fuel ->
  forall n i s, reachable s [] -> 1 <= i <= MAX_ORDER -> MAX_ORDER - i <= Z.of_nat n ->
  exists s', test_rounds n fuel shuffle i s = Val (true, s') /\ reachable s' [].
Proof.
  intros Hmax31 Hperm Hfuel. pose proof max_power_range as Hmax.
  assert (MAX_ORDER = MAX_POWER) as HMO by done.
  induction n as [|n IH]; intros i s Hreach Hi Hn; simpl;
    destruct (Z.ltb_spec i MAX_ORDER) as [Hlt|Hge]; try (by exists s); [lia|].
  destruct (test_round_spec fuel (shuffle i) i s Hmax31 Hreach ltac:(lia) (Hperm i) Hfuel)
    as (s1 & -> & Hreach1).
  simpl. rewrite Z.mod_small by lia.
  destruct (IH (i + 1) s1 Hreach1) as (s2 & -> & Hreach2); [lia|lia|].
  simpl. by exists s2.
Qed.

(** X19.  The first test case of test/test.cpp passes: on a new pool of any
    [MAX_POWER] below 31, with any shuffles, [alloc(0)] and
    [alloc(1 << MAX_ORDER)] return [nullptr] and in every round of the
    loop the number of blocks, their distinct pointers, the recorded
    orders and the fill bytes are as the checks demand. *)
Theorem test_fixed_passes fuel shuffle :
  MAX_POWER < 31 -> (forall i l, shuffle i l ≡ₚ l) ->
  2 ^ (MAX_ORDER - MIN_ORDER) < Z.of_nat fuel ->
  test_fixed fuel shuffle = Val true.
Proof.
  intros Hmax31 Hperm Hfuel.
  pose proof min_order_spec as Hmin. pose proof max_power_range as Hmax.
  assert (MAX_ORDER = MAX_POWER) as HMO by done.
  pose proof (pow2_lt MAX_ORDER 31 ltac:(lia)) as Hlt.
  pose proof (pow2_pos MAX_ORDER ltac:(lia)) as Hpos.
  assert (0 <= 0 < 2 ^ 31) as H0 by lia.
  assert (0 <= 2 ^ MAX_ORDER < 2 ^ 31) as H1 by lia.
  unfold test_fixed.
  rewrite (alloc_null_spec init 0 _ (alloc_order_spec 0 H0)) by auto. simpl.
  rewrite (shl_spec 31 MAX_ORDER) by lia. simpl.
  rewrite (alloc_null_spec init (2 ^ MAX_ORDER) _ (alloc_order_spec _ H1)).
  2:{ right. change (2 ^ MAX_ORDER + 1) with (Z.succ (2 ^ MAX_ORDER)).
      rewrite Z.log2_up_succ_pow2 by lia. lia. }
  simpl.
  destruct (test_rounds_spec fuel shuffle Hmax31 Hperm Hfuel (Z.to_nat MAX_ORDER) 1 init)
    as (s' & -> & _); [apply reach_init|lia|lia|done].
Qed.

(** ** The second test case *)

(** The size a value of [std::rand()] selects. *)
Lemma random_size r :
  MAX_POWER < 31 -> 0 <= r ->
  exists k, Z.rem r (MAX_ORDER - MIN_ORDER + 1) + MIN_ORDER = k /\
    MIN_ORDER <= k <= MAX_ORDER /\ 2 ^ MIN_ORDER <= 2 ^ k < 2 ^ 31 /\
    good_size (2 ^ k - 1) /\ alloc_order (2 ^ k - 1) = Val k.
Proof.
  intros Hmax31 Hr. pose proof min_order_spec as Hmin. pose proof max_power_range as Hmax.
  assert (MAX_ORDER = MAX_POWER) as HMO by done.
  pose proof (Z.rem_bound_pos r (MAX_ORDER - MIN_ORDER + 1) Hr ltac:(lia)) as Hrem.
  eexists. split; [done|].
  remember (Z.rem r (MAX_ORDER - MIN_ORDER + 1) + MIN_ORDER) as k eqn:Ek.
  pose proof (pow2_lt k 31 ltac:(lia)). pose proof (pow2_le MIN_ORDER k ltac:(lia)).
  pose proof (good_size_pow k ltac:(lia)) as Hgood.
  split; [lia|]. split; [lia|]. split; [done|].
  rewrite alloc_order_spec by (destruct Hgood; lia).
  replace (2 ^ k - 1 + 1) with (2 ^ k) by lia. rewrite Z.log2_up_pow2 by lia.
  by rewrite Z.max_r by lia.
Qed.

(** The random fill loop either uses up [rands] or ends with the blocks it
    records outstanding, each with its fill byte. *)
Lemma fill_random_spec :
  MAX_POWER < 31 ->
  forall rands total count s live,
    reachable s live -> 0 <= count < 256 -> (forall r, r ∈ rands -> 0 <= r) ->
    fill_random rands total count s = Err OutOfFuel \/
    exists bl s' live' rest,
      fill_random rands total count s = Val (bl, s', rest) /\
      reachable s' (live' ++ live) /\ stable live s s' /\
      live'.*1 = reverse (bl.*1) /\
      (forall p sz cc, (p, sz, cc) ∈ bl ->
         good_size sz /\ forall x, p <= x < p + sz -> bytes s' x = cc) /\
      (total < 2 ^ MAX_ORDER -> bl <> []) /\ (forall r, r ∈ rest -> 0 <= r).
Proof.
  intros Hmax31. pose proof min_order_spec as Hmin. pose proof max_power_range as Hmax.
  assert (MAX_ORDER = MAX_POWER) as HMO by done.
  induction rands as [|r rands IH]; intros total count s live Hreach Hc Hpos; simpl;
    rewrite (shl_spec 31 MAX_ORDER) by lia; simpl;
    destruct (Z.ltb_spec total (2 ^ MAX_ORDER)) as [Hlt|Hge].
  - by left.
  - right. exists [], s, [], []. split; [done|]. split; [done|].
    split; [apply stable_refl|]. split; [done|]. split; [|split; [lia|done]].
    intros p sz cc Hin. by apply elem_of_nil in Hin.
  - assert (0 <= r) as Hr by (apply Hpos; apply elem_of_cons; auto).
    destruct (random_size r Hmax31 Hr) as (k & -> & Hk & Hpk & Hgood & Ho).
    rewrite (shl_spec 32 k) by lia. simpl. rewrite (Z.mod_small (2 ^ k - 1)) by lia.
    destruct (reachable_inv _ _ Hreach) as [fl HI].
    destruct (alloc_fill_step s fl live (2 ^ k - 1) k count Hreach HI Ho
                ltac:(lia) ltac:(lia) Hc)
      as [[_ E]|(b & s1 & s2 & fl' & E & Hb & E2 & Hreach2 & HI2 & St & Hfit & Hin2 & _)].
    + rewrite E. simpl. apply IH; try done.
      intros r' Hr'. apply Hpos. apply elem_of_cons. auto.
    + rewrite E. simpl. destruct (Z.eqb_spec b 0); [done|]. rewrite E2. simpl.
      destruct (IH ((total + (2 ^ k - 1 + 1) mod 2 ^ 32) mod 2 ^ 32)
                  ((count + 1) mod 256) s2 _ Hreach2)
        as [E3|(bl & s' & live' & rest & E3 & Hreach' & St' & Hl & Hpat & _ & Hrest)].
      { apply Z.mod_pos_bound. lia. }
      { intros r' Hr'. apply Hpos. apply elem_of_cons. auto. }
      * left. by rewrite E3.
      * right. rewrite E3. simpl.
        exists ((b, 2 ^ k - 1, count) :: bl), s', (live' ++ [(b, 2 ^ k - 1, k)]), rest.
        split; [done|]. split; [by rewrite <- app_assoc|].
        destruct (blocks_extend good_size s s2 s' live b (2 ^ k - 1) k count bl live')
          as (A & B & C); try done.
  - right. exists [], s, [], (r :: rands). split; [done|]. split; [done|].
    split; [apply stable_refl|]. split; [done|]. split; [|split; [lia|done]].
    intros p sz cc Hin. by apply elem_of_nil in Hin.
Qed.

(** The random fill loop ends at the latest when [std::rand()] has selected
    the smallest order as often as the free bytes hold smallest blocks. *)
Lemma fill_random_ends :
  MAX_POWER < 31 ->
  forall rands total count s fl live,
    reachable s live -> Inv s fl live None -> 0 <= count < 256 ->
    (forall r, r ∈ rands -> 0 <= r) ->
    0 <= total -> total + free_bytes fl = 2 ^ MAX_ORDER ->
    free_bytes fl <= 2 ^ MIN_ORDER * min_picks rands ->
    exists out, fill_random rands total count s = Val out.
Proof.
  intros Hmax31. pose proof min_order_spec as Hmin. pose proof max_power_range as Hmax.
  assert (MAX_ORDER = MAX_POWER) as HMO by done.
  pose proof (pow2_lt MAX_ORDER 31 ltac:(lia)) as HM31.
  induction rands as [|r rands IH]; intros total count s fl live Hreach HI Hc Hpos Ht Hsum Hpicks;
    simpl; rewrite (shl_spec 31 MAX_ORDER) by lia; simpl;
    destruct (Z.ltb_spec total (2 ^ MAX_ORDER)) as [Hlt|Hge]; try by eexists.
  - simpl in Hpicks. lia.
  - assert (0 <= r) as Hr by (apply Hpos; apply elem_of_cons; auto).
    destruct (random_size r Hmax31 Hr) as (k & Ek & Hk & Hpk & Hgood & Ho).
    rewrite Ek. rewrite (shl_spec 32 k) by lia. simpl.
    rewrite (Z.mod_small (2 ^ k - 1)) by lia.
    assert (forall r', r' ∈ rands -> 0 <= r') as Hpos'.
    { intros r' Hr'. apply Hpos. apply elem_of_cons. auto. }
    simpl in Hpicks.
    destruct (alloc_fill_step s fl live (2 ^ k - 1) k count Hreach HI Ho
                ltac:(lia) ltac:(lia) Hc)
      as [[Hnil E]|(b & s1 & s2 & fl' & E & Hb & E2 & Hreach2 & HI2 & _ & _ & _ & Hfb & _)].
    + rewrite E. simpl. apply (IH total count s fl live); try done.
      destruct (Z.eqb_spec (Z.rem r (MAX_ORDER - MIN_ORDER + 1)) 0) as [Ez|]; [|lia].
      exfalso. rewrite free_bytes_zero in Hsum; [lia|].
      intros j Hj. apply Hnil. lia.
    + rewrite E. simpl. destruct (Z.eqb_spec b 0); [done|]. rewrite E2. simpl.
      pose proof (free_bytes_nonneg fl') as Hnn.
      replace (2 ^ k - 1 + 1) with (2 ^ k) by lia.
      rewrite (Z.mod_small (2 ^ k)) by lia.
      rewrite (Z.mod_small (total + 2 ^ k)) by lia.
      destruct (IH (total + 2 ^ k) ((count + 1) mod 256) s2 fl' _ Hreach2 HI2)
        as [[[bl s'] rest] E3]; try done; try lia.
      { apply Z.mod_pos_bound. lia. }
      { destruct (Z.rem r (MAX_ORDER - MIN_ORDER + 1) =? 0); lia. }
      rewrite E3. simpl. by eexists.
Qed.

(** One round of the second test, started with nothing outstanding: it
    uses up [rands], or every check holds and nothing is outstanding at
    its end. *)
Lemma random_round_spec fuel shuffle rands s :
  MAX_POWER < 31 -> reachable s [] -> (forall r, r ∈ rands -> 0 <= r) ->
  (forall l, shuffle l ≡ₚ l) -> 2 ^ (MAX_ORDER - MIN_ORDER) <= Z.of_nat fuel ->
  (fill_random rands 0 0 s = Err OutOfFuel /\
   random_round fuel shuffle rands s = Err OutOfFuel) \/
  exists s' rest,
    random_round fuel shuffle rands s = Val (true, s', rest) /\
    reachable s' [] /\ forall r, r ∈ rest -> 0 <= r.
Proof.
  intros Hmax31 Hreach Hpos Hperm Hfuel.
  pose proof min_order_spec as Hmin. pose proof max_power_range as Hmax.
  assert (MAX_ORDER = MAX_POWER) as HMO by done.
  pose proof (pow2_pos MAX_ORDER ltac:(lia)) as HM.
  unfold random_round.
  destruct (fill_random_spec Hmax31 rands 0 0 s [] Hreach ltac:(lia) Hpos)
    as [E|(bl & s1 & live' & rest & E & Hreach1 & _ & Hl & Hpat & Hne & Hrest)].
  { left. by rewrite E. }
  right. rewrite app_nil_r in Hreach1. rewrite E. simpl.
  destruct (pointer_checks s1 live' bl Hreach1 Hl (Hne HM))
    as (Hnd & lo & hi & -> & -> & Hadj & Hlohi & Hspan).
  simpl. rewrite (shl_spec 31 MAX_ORDER) by lia. simpl.
  destruct (release_blocks_spec fuel Hfuel (shuffle bl) s1 live' Hreach1)
    as (s2 & E2 & Hreach2).
  { by rewrite Hperm. }
  { intros p sz. by rewrite Hperm, Hl, elem_of_reverse. }
  { intros p sz c Hin. rewrite Hperm in Hin. by apply Hpat. }
  rewrite E2. simpl. exists s2, rest. split; [|done]. f_equal. f_equal. f_equal.
  by rewrite Hadj, Hlohi, Hspan.
Qed.

(** X24.  The second test case of test/test.cpp never fails a check and never
    leaves the pool object, whatever [std::rand()] and the shuffles
    return: the model ends with every check passed, or [rands] is used up
    before a fill loop has ended. *)
Theorem test_random_safe fuel shuffle rands :
  MAX_POWER < 31 -> (forall i l, shuffle i l ≡ₚ l) -> (forall r, r ∈ rands -> 0 <= r) ->
  2 ^ (MAX_ORDER - MIN_ORDER) <= Z.of_nat fuel ->
  test_random fuel shuffle rands = Val true \/
  test_random fuel shuffle rands = Err OutOfFuel.
Proof.
  intros Hmax31 Hperm Hpos Hfuel. unfold test_random.
  generalize 1000%nat as n. intros n. generalize reach_init. generalize init as s.
  revert rands Hpos. induction n as [|n IH]; intros rands Hpos s Hreach; [by left|].
  simpl.
  destruct (random_round_spec fuel (shuffle n) rands s Hmax31 Hreach Hpos (Hperm n) Hfuel)
    as [[_ E]|(s1 & rest & E & Hreach1 & Hrest)]; rewrite E; simpl; [by right|].
  destruct (IH rest Hrest s1 Hreach1) as [E'|E']; rewrite E'; simpl; auto.
Qed.

(** X25.  A round of the second test ends, with every check passed and nothing
    outstanding, as soon as [std::rand()] has selected the smallest order
    [1 << (MAX_ORDER - MIN_ORDER)] times: a request of the smallest order
    fails only when the buffer is full. *)
Theorem random_round_ends fuel shuffle rands s :
  MAX_POWER < 31 -> reachable s [] -> (forall r, r ∈ rands -> 0 <= r) ->
  (forall l, shuffle l ≡ₚ l) -> 2 ^ (MAX_ORDER - MIN_ORDER) <= Z.of_nat fuel ->
  2 ^ (MAX_ORDER - MIN_ORDER) <= min_picks rands ->
  exists s' rest,
    random_round fuel shuffle rands s = Val (true, s', rest) /\ reachable s' [].
Proof.
  intros Hmax31 Hreach Hpos Hperm Hfuel Hpicks.
  pose proof min_order_spec as Hmin. pose proof max_power_range as Hmax.
  assert (MAX_ORDER = MAX_POWER) as HMO by done.
  destruct (reachable_inv _ _ Hreach) as [fl HI].
  pose proof (geo_sum _ _ _ (proj1 HI)) as Hsum. simpl in Hsum.
  destruct (fill_random_ends Hmax31 rands 0 0 s fl [] Hreach HI) as [out Eout];
    try done; try lia.
  { pose proof (pow2_pos MIN_ORDER ltac:(lia)).
    replace (free_bytes fl) with (2 ^ MIN_ORDER * 2 ^ (MAX_ORDER - MIN_ORDER)); [nia|].
    rewrite <- Z.pow_add_r by lia.
    replace (MIN_ORDER + (MAX_ORDER - MIN_ORDER)) with MAX_ORDER by lia. lia. }
  destruct (random_round_spec fuel shuffle rands s Hmax31 Hreach Hpos Hperm Hfuel)
    as [[E _]|(s' & rest & E & Hreach' & _)].
  - rewrite E in Eout. done.
  - by exists s', rest.
Qed.

End BuddyAllocator.

(** * The allocator of the tests

    [ub::BuddyAllocator<14>] on a target with 8-byte pointers, its buffer at
    address 4192. *)

Module Pool14.

Definition state_of (r : res (Z * state)) : state :=
  match r with
  | Val (_, s) => s
  | Err _ => init 14 8 4192 170
  end.

Definition pool0 : state := init 14 8 4192 170.
Definition pool1 : state := state_of (alloc 14 8 4192 1 pool0).
Definition pool2 : state := state_of (alloc 14 8 4192 15 pool1).
Definition pool3 : state :=
  match free 14 8 4192 1024 4192 pool1 with
  | Val s => s
  | Err _ => pool0
  end.

Lemma target_ptr : 1 <= 8 <= 8.
Proof. lia. Defined.

Lemma target_max : MIN_ORDER 8 <= 14 <= 31.
Proof. assert (MIN_ORDER 8 = 4) as -> by reflexivity. lia. Defined.

Lemma target_base : 1 < 4192 /\ 4192 + 2 ^ 14 < 2 ^ (8 * 8).
Proof. lia. Defined.

Lemma alloc_pool0 : alloc 14 8 4192 1 pool0 = Val (4192, pool1).
Proof. vm_compute. reflexivity. Defined.

Lemma alloc_pool1 : alloc 14 8 4192 15 pool1 = Val (4208, pool2).
Proof. vm_compute. reflexivity. Defined.

Lemma free_pool1 : free 14 8 4192 1024 4192 pool1 = Val pool3.
Proof. vm_compute. reflexivity. Defined.

Lemma reach_pool1 : reachable 14 8 4192 170 pool1 [(4192, 1, 4)].
Proof. exact (reach_alloc 14 8 4192 170 pool0 [] 1 4192 pool1 (reach_init 14 8 4192 170) alloc_pool0 ltac:(lia)). Defined.

Lemma reach_pool2 : reachable 14 8 4192 170 pool2 [(4208, 15, 4); (4192, 1, 4)].
Proof. exact (reach_alloc 14 8 4192 170 pool1 _ 15 4208 pool2 reach_pool1 alloc_pool1 ltac:(lia)). Defined.

Lemma reach_pool3 : reachable 14 8 4192 170 pool3 [].
Proof.
  exact (reach_free 14 8 4192 170 pool1 _ 1024 4192 1 4 pool3 reach_pool1
           ltac:(apply elem_of_cons; auto) free_pool1).
Defined.

(** The scenarios of the tests and of the specification, run on the model:
    offsets from the buffer and recorded orders. *)

Example rejection_at_boundaries :
  alloc 14 8 4192 0 pool0 = Val (0, pool0) /\
  alloc 14 8 4192 16384 pool0 = Val (0, pool0) /\
  ('(p, s) ← alloc 14 8 4192 15 pool0; Val (p - 4192, bytes 4192 s (p - 1)))
  = Val (0, 4).
Proof. repeat split; vm_compute; reflexivity. Qed.

Example single_large_block :
  ('(p1, s1) ← alloc 14 8 4192 8191 pool0;
   '(p2, s2) ← alloc 14 8 4192 8191 s1;
   '(p3, s3) ← alloc 14 8 4192 1 s2;
   s4 ← free 14 8 4192 1024 p1 s3;
   s5 ← free 14 8 4192 1024 p2 s4;
   '(p6, s6) ← alloc 14 8 4192 16383 s5;
   Val (p1 - 4192, bytes 4192 s2 (p1 - 1), p2 - 4192, bytes 4192 s2 (p2 - 1), p3,
        p6 - 4192, bytes 4192 s6 (p6 - 1)))
  = Val (0, 13, 8192, 13, 0, 0, 14).
Proof. vm_compute. reflexivity. Qed.

Example coalescing_in_any_order :
  ('(p0, s0) ← alloc 14 8 4192 15 pool0;
   '(p1, s1) ← alloc 14 8 4192 15 s0;
   '(p2, s2) ← alloc 14 8 4192 15 s1;
   '(p3, s3) ← alloc 14 8 4192 15 s2;
   s4 ← free 14 8 4192 1024 p1 s3;
   s5 ← free 14 8 4192 1024 p0 s4;
   s6 ← free 14 8 4192 1024 p3 s5;
   s7 ← free 14 8 4192 1024 p2 s6;
   '(p8, s8) ← alloc 14 8 4192 63 s7;
   Val ([p0 - 4192; p1 - 4192; p2 - 4192; p3 - 4192], m_freelists s7,
        p8 - 4192, bytes 4192 s8 (p8 - 1)))
  = Val ([0; 16; 32; 48], [0; 0; 0; 0; 0; 0; 0; 0; 0; 0; 4192], 0, 6).
Proof. vm_compute. reflexivity. Qed.

(** [capacity] at [size = 15]: 1024 blocks of order 4. *)
Lemma capacity_witness :
  0 < 15 < 2 ^ 14 /\
  exists s', fill 14 8 4192 1025 15 pool0 = Val (1024, s').
Proof.
  split; [lia|].
  apply (capacity 14 8 4192 170 target_ptr target_max target_base 15 1025); [lia|].
  vm_compute. reflexivity.
Defined.

(** [round_trip] for three allocations and their release in any order. *)
Lemma round_trip_witness :
  exists ptrs s1,
    alloc_all 14 8 4192 [1; 15; 100] pool0 = Val (ptrs, s1) /\
    forall order, order ≡ₚ ptrs ->
      exists s2 s3,
        free_all 14 8 4192 1024 order s1 = Val s2 /\
        (forall k l, freelist_is 14 8 4192 s2 k l <-> freelist_is 14 8 4192 pool0 k l) /\
        alloc 14 8 4192 (2 ^ MAX_ORDER 14 - 1) s2 = Val (4192, s3) /\ 4192 <> 0.
Proof.
  apply (round_trip 14 8 4192 170 target_ptr target_max target_base [1; 15; 100] 1024).
  - intros size Hsize.
    apply elem_of_cons in Hsize as [->|Hsize]; [lia|].
    apply elem_of_cons in Hsize as [->|Hsize]; [lia|].
    apply elem_of_cons in Hsize as [->|Hsize]; [lia|].
    by apply elem_of_nil in Hsize.
  - vm_compute. discriminate.
Defined.

(** [containment] for the second allocation. *)
Lemma containment_witness : 4192 <= 4208 <= 4192 + 2 ^ 14 - 1.
Proof.
  apply (containment 14 8 4192 170 target_ptr target_max target_base
           pool1 _ 15 4208 pool2 reach_pool1 alloc_pool1).
  lia.
Defined.

(** [alignment] for the second allocation. *)
Lemma alignment_witness :
  alloc_order 8 15 = Val (bytes 4192 pool2 (4208 - 1)) /\
  (0 <= 15 < 2 ^ 31 ->
   bytes 4192 pool2 (4208 - 1) = Z.max (MIN_ORDER 8) (Z.log2_up (15 + 1))) /\
  MIN_ORDER 8 <= bytes 4192 pool2 (4208 - 1) <= MAX_ORDER 14 /\
  (2 ^ bytes 4192 pool2 (4208 - 1) | 4208 - 4192) /\
  4192 <= 4208 /\ 4208 + 2 ^ bytes 4192 pool2 (4208 - 1) <= 4192 + 2 ^ MAX_ORDER 14.
Proof.
  apply (alignment 14 8 4192 170 target_ptr target_max target_base
           pool1 _ 15 4208 pool2 reach_pool1 alloc_pool1).
  lia.
Defined.

Lemma pool1_freelist : on_freelist 14 8 4192 pool1 4 4208.
Proof.
  split; [vm_compute; split; discriminate|].
  exists 4208, [4208]. split; [reflexivity|]. split.
  - simpl. split; [reflexivity|]. split; [discriminate|]. vm_compute. reflexivity.
  - apply elem_of_cons. auto.
Defined.

(** [no_free_buddies] after the first allocation: block 4208 is free, its
    buddy 4192 is not. *)
Lemma no_free_buddies_witness :
  ~ on_freelist 14 8 4192 pool1 4 (buddy_addr 4192 4208 4).
Proof.
  exact (no_free_buddies 14 8 4192 170 target_ptr target_max target_base
           pool1 _ 4 4208 reach_pool1 pool1_freelist).
Defined.

(** [free_terminates] for the release of the first allocation. *)
Lemma free_terminates_witness :
  bytes 4192 pool1 (4192 - 1) = 4 /\
  exists b' k' s',
    4 <= k' <= MAX_ORDER 14 /\
    (forall iters, (Z.to_nat (k' - 4) < iters)%nat ->
       free_loop 14 8 4192 iters 1024 pool1 4192 4 = Val (b', k', s')) /\
    (forall iters, (iters <= Z.to_nat (k' - 4))%nat ->
       free_loop 14 8 4192 iters 1024 pool1 4192 4 = Err OutOfFuel) /\
    (forall fuel, (1024 <= fuel)%nat -> free 14 8 4192 fuel 4192 pool1 = Val s') /\
    (forall j a, on_freelist 14 8 4192 s' j a -> 4192 <= a < 4192 + 2 ^ MAX_ORDER 14) /\
    (k' = MAX_ORDER 14 ->
       b' = 4192 /\ buddy_addr 4192 b' k' = 4192 + 2 ^ MAX_ORDER 14 /\
       forall a, on_freelist 14 8 4192 s' (MAX_ORDER 14) a <-> a = 4192).
Proof.
  apply (free_terminates 14 8 4192 170 target_ptr target_max target_base
           pool1 _ 4192 1 4 1024 reach_pool1).
  - apply elem_of_cons. auto.
  - vm_compute. discriminate.
Defined.

(** [split_policy] for the pool of the tests. *)
Lemma split_policy_witness :
  exists s1 s2,
    alloc 14 8 4192 1 pool0 = Val (4192 + 0, s1) /\
    alloc 14 8 4192 (2 ^ MIN_ORDER 8 - 1) s1 = Val (4192 + 2 ^ MIN_ORDER 8, s2).
Proof.
  apply (split_policy 14 8 4192 170 target_ptr target_max target_base).
  vm_compute. reflexivity.
Defined.

(** [frame] for the first allocation while a second one is outstanding. *)
Lemma frame_witness :
  bytes 4192 pool2 (4192 - 1) = 4 /\
  (forall size p s' a, alloc 14 8 4192 size pool2 = Val (p, s') ->
     4192 - 1 <= a < 4192 + 1 -> bytes 4192 s' a = bytes 4192 pool2 a) /\
  (forall fuel p s' a, p <> 4192 ->
     (p = 0 \/ exists sz k, (p, sz, k) ∈ [(4208, 15, 4); (4192, 1, 4)]) ->
     free 14 8 4192 fuel p pool2 = Val s' ->
     4192 - 1 <= a < 4192 + 1 -> bytes 4192 s' a = bytes 4192 pool2 a).
Proof.
  apply (frame 14 8 4192 170 target_ptr target_max target_base pool2 _ 4192 1 4 reach_pool2).
  - apply elem_of_cons. right. apply elem_of_cons. auto.
  - vm_compute. discriminate.
Defined.

(** C1 as stated fails for [size = 0]: [alloc(0)] returns [nullptr] at once,
    so the fill loop obtains no block, not 1024. *)
Lemma capacity_counterexample :
  ~ (forall size, 0 <= size < 2 ^ 14 ->
       exists fuel s', fill 14 8 4192 fuel size pool0
         = Val (2 ^ (MAX_ORDER 14 - Z.max (MIN_ORDER 8) (Z.log2_up (size + 1))), s')).
Proof.
  intros H. destruct (H 0 ltac:(lia)) as (fuel & s' & E).
  destruct fuel as [|fuel]; vm_compute in E; discriminate.
Qed.

(** C4 as stated fails for the first allocation: it returns [base] itself. *)
Lemma containment_counterexample :
  ~ (forall s live size p s', reachable 14 8 4192 170 s live ->
       alloc 14 8 4192 size s = Val (p, s') -> p <> 0 ->
       4192 < p <= 4192 + 2 ^ 14 - 1).
Proof.
  intros H.
  specialize (H pool0 [] 1 4192 pool1 (reach_init 14 8 4192 170) alloc_pool0 ltac:(lia)).
  lia.
Qed.

(** C9 as stated fails: the first [alloc(1)] does not return offset 1. *)
Lemma split_policy_counterexample :
  ~ (exists s1 s2,
       alloc 14 8 4192 1 pool0 = Val (4192 + 1, s1) /\
       alloc 14 8 4192 (2 ^ MIN_ORDER 8 - 1) s1 = Val (4192 + 2 ^ MIN_ORDER 8, s2)).
Proof.
  intros (s1 & s2 & E & _).
  assert (Val (4192, pool1) = Val (4192 + 1, s1)) as E1.
  { transitivity (alloc 14 8 4192 1 pool0); [symmetry; exact alloc_pool0|exact E]. }
  assert (4192 = 4192 + 1) as E2; [|lia].
  exact (f_equal (fun r => match r with Val (p, _) => p | Err _ => 0 end) E1).
Qed.

(** C2 fails in the code: for [size = UINT32_MAX] the sum [size + 1] wraps
    to 0, the order is [MIN_ORDER], and [alloc] returns a block although
    [size + 1] exceeds [1 << MAX_ORDER]; for the sizes from [1 << 31] to
    [UINT32_MAX - 1] the loop of [log2] shifts by 32. *)
Theorem alloc_too_large_not_null :
  2 ^ MAX_ORDER 14 < 4294967295 + 1 /\
  (exists s', alloc 14 8 4192 4294967295 pool0 = Val (4192, s') /\ 4192 <> 0) /\
  alloc 14 8 4192 4294967294 pool0 = Err Undefined /\
  alloc 14 8 4192 2147483648 pool0 = Err Undefined.
Proof.
  split; [vm_compute; reflexivity|]. split.
  - eexists. split; [vm_compute; reflexivity|lia].
  - split; vm_compute; reflexivity.
Qed.

(** C5 fails in the code at the same input: the order stored in front of
    the pointer returned for [size = UINT32_MAX] is 4, and a block of 16
    bytes does not hold [size + 1] bytes. *)
Theorem order_byte_wraps :
  exists p s', alloc 14 8 4192 4294967295 pool0 = Val (p, s') /\ p <> 0 /\
    bytes 4192 s' (p - 1) = 4 /\
    Z.max (MIN_ORDER 8) (Z.log2_up (4294967295 + 1)) = 32 /\
    2 ^ 4 < Z.max (4294967295 + 1) (2 ^ MIN_ORDER 8).
Proof.
  exists 4192. eexists. split; [vm_compute; reflexivity|].
  split; [lia|]. split; [vm_compute; reflexivity|].
  split; vm_compute; reflexivity.
Qed.

(** C10 fails in the code at the same input: the block returned for
    [size = UINT32_MAX] has order 4, so the next [alloc] stores the order of
    its own block in the sixteenth of the bytes the first caller asked for. *)
Theorem frame_wraps :
  exists q s1 p s2,
    alloc 14 8 4192 4294967295 pool0 = Val (q, s1) /\ q <> 0 /\
    alloc 14 8 4192 1 s1 = Val (p, s2) /\ p <> 0 /\ p <> q /\
    q <= q + 15 < q + 4294967295 /\
    bytes 4192 s2 (q + 15) <> bytes 4192 s1 (q + 15).
Proof.
  exists 4192. eexists. exists 4208. eexists.
  split; [vm_compute; reflexivity|]. split; [lia|].
  split; [vm_compute; reflexivity|]. split; [lia|]. split; [lia|]. split; [lia|].
  vm_compute. discriminate.
Qed.

(** ** Instances of the further properties *)

Definition pool1_null : state := state_of (alloc 14 8 4192 0 pool1).

Definition pool1_byte : state :=
  match store_byte 14 4192 pool1 4192 7 with
  | Val s => s
  | Err _ => pool0
  end.

Definition pool0_link : state :=
  match store_ptr 14 8 4192 pool0 4208 4192 with
  | Val s => s
  | Err _ => pool0
  end.

Lemma log2_least_witness :
  exists k, log2 17 = Val k /\ 0 <= k <= 31 /\ 17 <= 2 ^ k /\
    forall j, 0 <= j < k -> 2 ^ j < 17.
Proof. apply (log2_least 14 8 target_ptr 17). lia. Defined.

Lemma log2_shift_overflow_witness : log2 2147483649 = Err Undefined.
Proof. apply (log2_shift_overflow 14 8 2147483649). lia. Defined.

Lemma min_order_least_witness :
  8 + 1 <= 2 ^ MIN_ORDER 8 /\ forall j, 0 <= j < MIN_ORDER 8 -> 2 ^ j < 8 + 1.
Proof. exact (min_order_least 14 8 target_ptr). Defined.

Lemma buddy_of_involutive_witness : buddy_of 4192 4208 4 = Val 4192 /\ 4208 <> 4192.
Proof. apply (buddy_of_involutive 14 8 4192 4192 4 4208). reflexivity. Defined.

Lemma wfb_4192 : wfb 14 8 4192 4192 4.
Proof.
  split; [vm_compute; split; discriminate|]. split; [lia|].
  split; [vm_compute; discriminate|]. by exists 0.
Defined.

Lemma buddy_of_halves_witness :
  (4 < MAX_ORDER 14 ->
     exists q, buddy_of 4192 4192 4 = Val q /\ wfb 14 8 4192 q 4 /\
       wfb 14 8 4192 (Z.min 4192 q) (4 + 1) /\ (q = 4192 + 2 ^ 4 \/ q = 4192 - 2 ^ 4)) /\
  (4 = MAX_ORDER 14 -> buddy_of 4192 4192 4 = Val (4192 + 2 ^ MAX_ORDER 14)).
Proof.
  exact (buddy_of_halves 14 8 4192 target_ptr target_max target_base 4192 4 wfb_4192).
Defined.

Lemma store_pool0_link : store_ptr 14 8 4192 pool0 4208 4192 = Val pool0_link.
Proof. vm_compute. reflexivity. Defined.

Lemma link_round_trip_witness :
  load_ptr 14 8 4192 pool0_link 4208 = Val 4192 /\
  m_freelists pool0_link = m_freelists pool0 /\
  forall x, x < 4208 \/ 4208 + 8 <= x -> bytes 4192 pool0_link x = bytes 4192 pool0 x.
Proof.
  apply (link_round_trip 14 8 4192 target_ptr pool0 4208 4192 pool0_link).
  - lia.
  - exact store_pool0_link.
Defined.

Lemma init_state_witness :
  (forall k l, freelist_is 14 8 4192 pool0 k l <->
     MIN_ORDER 8 <= k <= MAX_ORDER 14 /\
     l = if k =? MAX_ORDER 14 then [4192] else []) /\
  forall a, 4192 <= a < 4192 + 2 ^ MAX_ORDER 14 -> bytes 4192 pool0 a = 0.
Proof. exact (init_state 14 8 4192 170 target_ptr target_max target_base). Defined.


Lemma free_blocks_disjoint_witness :
  wfb 14 8 4192 4208 4 /\
  (forall l, freelist_is 14 8 4192 pool1 4 l -> NoDup l) /\
  (forall k' a', on_freelist 14 8 4192 pool1 k' a' -> (a', k') <> (4208, 4) ->
     4208 + 2 ^ 4 <= a' \/ a' + 2 ^ k' <= 4208) /\
  (forall p sz kp, (p, sz, kp) ∈ [(4192, 1, 4)] ->
     4208 + 2 ^ 4 <= p \/ p + 2 ^ kp <= 4208).
Proof.
  exact (free_blocks_disjoint 14 8 4192 170 target_ptr target_max target_base
           pool1 _ 4 4208 reach_pool1 pool1_freelist).
Defined.

Lemma buffer_tiled_witness :
  (exists k a, on_freelist 14 8 4192 pool1 k a /\ a <= 4200 < a + 2 ^ k) \/
  (exists p sz k, (p, sz, k) ∈ [(4192, 1, 4)] /\ p <= 4200 < p + 2 ^ k).
Proof.
  apply (buffer_tiled 14 8 4192 170 target_ptr target_max target_base pool1 _ 4200 reach_pool1).
  vm_compute. split; discriminate || reflexivity.
Defined.

Lemma store_pool1_byte : store_byte 14 4192 pool1 4192 7 = Val pool1_byte.
Proof. vm_compute. reflexivity. Defined.

Lemma client_write_safe_witness :
  (forall j l, freelist_is 14 8 4192 pool1 j l -> freelist_is 14 8 4192 pool1_byte j l) /\
  (forall q sq kq, (q, sq, kq) ∈ [(4192, 1, 4)] -> bytes 4192 pool1_byte (q - 1) = kq) /\
  bytes 4192 pool1_byte 4192 = 7 /\
  forall x, x <> 4192 -> bytes 4192 pool1_byte x = bytes 4192 pool1 x.
Proof.
  apply (client_write_safe 14 8 4192 170 target_ptr target_max target_base
           pool1 _ 4192 1 4 4192 7 pool1_byte reach_pool1).
  - apply elem_of_cons. auto.
  - vm_compute. discriminate.
  - lia.
  - exact store_pool1_byte.
Defined.

Lemma alloc_effect_witness :
  exists i rest,
    MIN_ORDER 8 <= bytes 4192 pool2 (4208 - 1) <= i /\ i <= MAX_ORDER 14 /\
    freelist_is 14 8 4192 pool1 i (4208 :: rest) /\ freelist_is 14 8 4192 pool2 i rest /\
    (forall j, bytes 4192 pool2 (4208 - 1) <= j < i ->
       freelist_is 14 8 4192 pool1 j [] /\ freelist_is 14 8 4192 pool2 j [4208 + 2 ^ j]) /\
    (forall j l, j < bytes 4192 pool2 (4208 - 1) \/ i < j ->
       freelist_is 14 8 4192 pool1 j l -> freelist_is 14 8 4192 pool2 j l).
Proof.
  apply (alloc_effect 14 8 4192 170 target_ptr target_max target_base
           pool1 _ 15 4208 pool2 reach_pool1 alloc_pool1).
  lia.
Defined.

Lemma alloc_fresh_witness :
  4192 <> 4208 /\ (4208 + 2 ^ bytes 4192 pool2 (4208 - 1) <= 4192 \/ 4192 + 2 ^ 4 <= 4208).
Proof.
  apply (alloc_fresh 14 8 4192 170 target_ptr target_max target_base
           pool1 _ 15 4208 pool2 4192 1 4 reach_pool1 alloc_pool1).
  - lia.
  - apply elem_of_cons. auto.
Defined.

Lemma alloc_defined_witness :
  (2 ^ 31 <= 5 < 2 ^ 32 - 1 -> alloc 14 8 4192 5 pool1 = Err Undefined) /\
  (~ (2 ^ 31 <= 5 < 2 ^ 32 - 1) -> exists p s', alloc 14 8 4192 5 pool1 = Val (p, s')).
Proof.
  apply (alloc_defined 14 8 4192 170 target_ptr target_max target_base pool1 _ 5 reach_pool1).
  lia.
Defined.

Lemma capacity_idle_witness :
  exists s',
    fill 14 8 4192 1025 15 pool3
    = Val (2 ^ (MAX_ORDER 14 - Z.max (MIN_ORDER 8) (Z.log2_up (15 + 1))), s').
Proof.
  apply (capacity_idle 14 8 4192 170 target_ptr target_max target_base pool3 15 1025 reach_pool3).
  - lia.
  - vm_compute. reflexivity.
Defined.

Lemma free_releases_witness :
  exists s' k' b' tl,
    free 14 8 4192 1024 4192 pool1 = Val s' /\ 4 <= k' <= MAX_ORDER 14 /\
    freelist_is 14 8 4192 s' k' (b' :: tl) /\ b' <= 4192 /\ 4192 + 2 ^ 4 <= b' + 2 ^ k'.
Proof.
  apply (free_releases 14 8 4192 170 target_ptr target_max target_base
           pool1 _ 4192 1 4 1024 reach_pool1).
  - apply elem_of_cons. auto.
  - vm_compute. discriminate.
Defined.

Lemma alloc_after_free_witness :
  exists s1 q s2,
    free 14 8 4192 1024 4192 pool1 = Val s1 /\ alloc 14 8 4192 1 s1 = Val (q, s2) /\
    q <> 0 /\ (~ on_freelist 14 8 4192 pool1 4 (buddy_addr 4192 4192 4) -> q = 4192).
Proof.
  apply (alloc_after_free 14 8 4192 170 target_ptr target_max target_base
           pool1 _ 4192 1 4 1024 reach_pool1).
  - apply elem_of_cons. auto.
  - vm_compute. discriminate.
Defined.

Lemma alloc_free_restores_witness :
  exists s2, free 14 8 4192 1024 4192 pool1 = Val s2 /\
    forall j l, freelist_is 14 8 4192 pool0 j l <-> freelist_is 14 8 4192 s2 j l.
Proof.
  apply (alloc_free_restores 14 8 4192 170 target_ptr target_max target_base
           pool0 [] 1 4192 pool1 1024 (reach_init 14 8 4192 170) alloc_pool0).
  - lia.
  - vm_compute. discriminate.
Defined.

Lemma test_fixed_passes_witness :
  test_fixed 14 8 4192 170 1025 (fun _ l => reverse l) = Val true.
Proof.
  apply (test_fixed_passes 14 8 4192 170 target_ptr target_max target_base 1025).
  - lia.
  - intros i l. apply reverse_Permutation.
  - vm_compute. reflexivity.
Defined.

Lemma alloc_null_iff_witness :
  (exists s', alloc 14 8 4192 0 pool1 = Val (0, s')) <->
  (0 = 0 \/ 2 ^ MAX_ORDER 14 < 0 + 1 \/
   forall k a, Z.max (MIN_ORDER 8) (Z.log2_up (0 + 1)) <= k ->
     ~ on_freelist 14 8 4192 pool1 k a).
Proof.
  apply (alloc_null_iff 14 8 4192 170 target_ptr target_max target_base pool1 _ 0 reach_pool1).
  lia.
Defined.

Lemma alloc_pool1_null : alloc 14 8 4192 0 pool1 = Val (0, pool1_null).
Proof. vm_compute. reflexivity. Defined.

Lemma alloc_null_unchanged_witness : pool1_null = pool1.
Proof.
  exact (alloc_null_unchanged 14 8 4192 170 target_ptr target_max target_base
           pool1 _ 0 pool1_null reach_pool1 alloc_pool1_null).
Defined.

Lemma order_byte_law_witness :
  bytes 4192 pool2 (4208 - 1) = Z.max (MIN_ORDER 8) (Z.log2_up (15 + 1)) /\
  MIN_ORDER 8 <= bytes 4192 pool2 (4208 - 1) <= MAX_ORDER 14.
Proof.
  apply (order_byte_law 14 8 4192 170 target_ptr target_max target_base
           pool1 _ 15 4208 pool2 reach_pool1); [lia|exact alloc_pool1|lia].
Defined.

Lemma test_random_safe_witness :
  test_random 14 8 4192 170 1024 (fun _ l => reverse l) (replicate 2000 0) = Val true \/
  test_random 14 8 4192 170 1024 (fun _ l => reverse l) (replicate 2000 0) = Err OutOfFuel.
Proof.
  apply (test_random_safe 14 8 4192 170 target_ptr target_max target_base 1024).
  - lia.
  - intros i l. apply reverse_Permutation.
  - intros r Hr. apply elem_of_replicate in Hr as [-> _]. lia.
  - vm_compute. discriminate.
Defined.

Lemma random_round_ends_witness :
  exists s' rest,
    random_round 14 8 4192 1024 (fun l => reverse l) (replicate 1024 0) pool3
    = Val (true, s', rest) /\ reachable 14 8 4192 170 s' [].
Proof.
  apply (random_round_ends 14 8 4192 170 target_ptr target_max target_base 1024).
  - lia.
  - exact reach_pool3.
  - intros r Hr. apply elem_of_replicate in Hr as [-> _]. lia.
  - intros l. apply reverse_Permutation.
  - vm_compute. discriminate.
  - vm_compute. discriminate.
Defined.

End Pool14.
